(** * OSPF network simulator (tech295.py): shallow embedding and verification

    The simulator keeps a fixed 7-node topology in a networkx graph, two
    dictionaries keyed by directed node pairs (link latency as a Python
    float, OSPF cost as a Python int), a background coroutine perturbing the
    latencies, and three queries (shortest path, ping, traceroute).

    Python floats are IEEE-754 binary64 numbers: they are modelled by Rocq's
    primitive floats, so every rounding of the source is the rounding of the
    model.  Dictionaries are [gmap]s; the networkx adjacency structure, whose
    iteration order the source relies on, is an insertion-ordered association
    list.  Exceptions, the shared [random] module and the mutable simulator
    object are threaded through a state-and-exception monad. *)

From Stdlib Require Import ZArith Floats.
From stdpp Require Import gmap strings list fin_maps pretty.

Set Warnings "-inexact-float".
Local Open Scope Z_scope.

(** ** Python values and exceptions *)

(** The exceptions the source raises, lets escape or catches.
    [NodeNotFound] and [NetworkXNoPath] are networkx's; both derive from
    [Exception], neither from the other. *)
Inductive exn : Type :=
  | KeyError
  | ZeroDivisionError
  | OverflowError
  | ValueError (msg : string)
  | TimeoutError (msg : string)
  | NodeNotFound
  | NetworkXNoPath.

Inductive result (A : Type) : Type :=
  | Ok (a : A)
  | Raise (e : exn).
Arguments Ok {A} a.
Arguments Raise {A} e.

(** A Python number as the probes return it: the literal [0] is an [int],
    every measured latency a [float]. *)
Inductive num : Type :=
  | Int (z : Z)
  | Float (f : float).

(** [x / y] on floats: Python raises on a zero divisor (of either sign) and
    otherwise performs the IEEE division. *)
Definition float_truediv (x y : float) : result float :=
  if (y =? 0)%float then Raise ZeroDivisionError else Ok (x / y)%float.

(** [int(x)] on a float: truncation toward zero; infinities and NaN raise. *)
Definition int_of_float (x : float) : result Z :=
  match Prim2SF x with
  | S754_zero _ => Ok 0
  | S754_finite s m e =>
      let a := Z.shiftl (Z.pos m) e in Ok (if s then - a else a)
  | S754_infinity _ => Raise OverflowError
  | S754_nan => Raise (ValueError "cannot convert float NaN to integer")
  end.

(** [int(100 / (latency / 10))], the cost expression of both
    [_initialize_network] and [update_latencies]. *)
Definition ospf_cost (latency : float) : result Z :=
  match float_truediv latency 10 with
  | Raise e => Raise e
  | Ok d =>
      match float_truediv 100 d with
      | Raise e => Raise e
      | Ok q => int_of_float q
      end
  end.

(** [max(0, rtt)]: the second argument is kept only when it is strictly
    greater than the first, so a NaN or a negative [rtt] yields the int 0. *)
Definition max0 (rtt : float) : num :=
  if (0 <? rtt)%float then Float rtt else Int 0.

(** A value [random.random()] can return: a float in [0, 1). *)
Record unit_float : Type := {
  uf :> float;
  uf_range : ((0 <=? uf) && (uf <? 1))%float = true
}.

(** ** networkx graphs *)

Module nx.

(** Insertion-ordered dictionary operations on association lists. *)
Fixpoint assoc {B : Type} (k : string) (l : list (string * B)) : option B :=
  match l with
  | [] => None
  | (k', b) :: l' => if decide (k = k') then Some b else assoc k l'
  end.

Fixpoint assoc_set {B : Type} (k : string) (b : B) (l : list (string * B))
  : list (string * B) :=
  match l with
  | [] => [(k, b)]
  | (k', b') :: l' =>
      if decide (k = k') then (k, b) :: l' else (k', b') :: assoc_set k b l'
  end.

Fixpoint assoc_alter {B : Type} (f : B -> B) (k : string)
    (l : list (string * B)) : list (string * B) :=
  match l with
  | [] => []
  | (k', b') :: l' =>
      if decide (k = k') then (k', f b') :: l' else (k', b') :: assoc_alter f k l'
  end.

(** [nx.Graph]: the adjacency dictionary [_adj], node to neighbour to edge
    attribute, both levels in insertion order. *)
Definition Graph (A : Type) : Type := list (string * list (string * A)).

Definition empty {A : Type} : Graph A := [].

Definition nodes {A : Type} (G : Graph A) : list string := G.*1.

Definition has_node {A : Type} (G : Graph A) (n : string) : bool :=
  bool_decide (is_Some (assoc n G)).

Definition neighbors {A : Type} (G : Graph A) (n : string) : list (string * A) :=
  default [] (assoc n G).

Definition add_node {A : Type} (G : Graph A) (n : string) : Graph A :=
  if has_node G n then G else G ++ [(n, [])].

(** [G.add_edge(u, v, **attr)]: both endpoints are created when missing,
    then [_adj[u][v]] and [_adj[v][u]] receive the attribute. *)
Definition add_edge {A : Type} (G : Graph A) (u v : string) (a : A) : Graph A :=
  let G1 := add_node (add_node G u) v in
  let G2 := assoc_alter (assoc_set v a) u G1 in
  assoc_alter (assoc_set u a) v G2.

(** [G.edges()]: every node in insertion order, each of its neighbours not
    already visited as a node; an undirected edge is reported once, from
    the endpoint that was inserted first. *)
Fixpoint edges_from {A : Type} (seen : list string) (G : Graph A)
  : list (string * string) :=
  match G with
  | [] => []
  | (n, nbrs) :: G' =>
      ((λ nbr, (n, nbr)) <$> filter (λ nbr, nbr ∉ seen) nbrs.*1)
        ++ edges_from (n :: seen) G'
  end.

Definition edges {A : Type} (G : Graph A) : list (string * string) :=
  edges_from [] G.

(** *** [nx.shortest_path(G, source, target, weight='weight')] *)

(** Tentative distances and paths, as Dijkstra's algorithm keeps them. *)
Definition relax (d : Z) (p : list string) (todo : list string)
    (seen : gmap string (Z * list string)) (e : string * Z)
  : gmap string (Z * list string) :=
  let '(u, c) := e in
  if bool_decide (u ∈ todo) then
    match seen !! u with
    | Some (du, _) =>
        if d + c <? du then <[u := (d + c, p ++ [u])]> seen else seen
    | None => <[u := (d + c, p ++ [u])]> seen
    end
  else seen.

Fixpoint closest (todo : list string) (seen : gmap string (Z * list string))
  : option (string * (Z * list string)) :=
  match todo with
  | [] => None
  | v :: todo' =>
      match seen !! v, closest todo' seen with
      | Some (d, p), Some (v', (d', p')) =>
          if d <=? d' then Some (v, (d, p)) else Some (v', (d', p'))
      | Some dp, None => Some (v, dp)
      | None, r => r
      end
  end.

Fixpoint dijkstra (fuel : nat) (G : Graph Z) (target : string)
    (todo : list string) (seen : gmap string (Z * list string))
  : result (list string) :=
  match fuel with
  | O => Raise NetworkXNoPath
  | S fuel' =>
      match closest todo seen with
      | None => Raise NetworkXNoPath
      | Some (v, (d, p)) =>
          if decide (v = target) then Ok p
          else
            let todo' := filter (λ n, n ≠ v) todo in
            dijkstra fuel' G target todo'
              (foldl (relax d p todo') seen (neighbors G v))
      end
  end.

(** Modelled from the spec: [networkx.shortest_path] is a routine of the
    networkx library, which is not part of the repository's sources.  Per
    the specification of the Path Resolver it fails with the unknown-node
    error when an endpoint is not in the graph it is given, computes a
    minimum total-weight path with Dijkstra's single-source algorithm,
    breaks ties deterministically, and fails with the no-path error when
    the endpoints are not connected. *)
Definition shortest_path (G : Graph Z) (source target : string)
  : result (list string) :=
  if has_node G source && has_node G target
  then dijkstra (length (nodes G)) G target (nodes G) {[ source := (0, [source]) ]}
  else Raise NodeNotFound.

End nx.

(** ** The simulator object and its world *)

Record NetworkNode : Type := {
  name : string;
  ip_address : string;
  is_router : bool;
  area_id : Z
}.

(** The attributes of a [NetworkSimulator] instance.  [node_pos] holds the
    [pos] attribute the graph stores per node (read by the drawing code
    only). *)
Record NetworkSimulator : Type := {
  graph : nx.Graph unit;
  node_pos : gmap string (Z * Z);
  nodes : gmap string NetworkNode;
  latencies : gmap (string * string) float;
  ospf_costs : gmap (string * string) Z;
  _running : bool
}.

(** Everything a method can read or write: the instance and the position of
    the process-wide [random] generator in its stream of draws. *)
Record World : Type := {
  self : NetworkSimulator;
  random_state : nat
}.

(** What the program does not determine: the draws of [random.random()],
    and what the event loop lets the other tasks do to the world while a
    coroutine is suspended in [await asyncio.sleep]. *)
Class Runtime : Type := {
  random_stream : nat -> unit_float;
  other_tasks : World -> World
}.

Definition set_graph (g : nx.Graph unit) (s : NetworkSimulator) :=
  {| graph := g; node_pos := node_pos s; nodes := nodes s;
     latencies := latencies s; ospf_costs := ospf_costs s; _running := _running s |}.
Definition set_node_pos (p : gmap string (Z * Z)) (s : NetworkSimulator) :=
  {| graph := graph s; node_pos := p; nodes := nodes s;
     latencies := latencies s; ospf_costs := ospf_costs s; _running := _running s |}.
Definition set_nodes (n : gmap string NetworkNode) (s : NetworkSimulator) :=
  {| graph := graph s; node_pos := node_pos s; nodes := n;
     latencies := latencies s; ospf_costs := ospf_costs s; _running := _running s |}.
Definition set_latencies (l : gmap (string * string) float) (s : NetworkSimulator) :=
  {| graph := graph s; node_pos := node_pos s; nodes := nodes s;
     latencies := l; ospf_costs := ospf_costs s; _running := _running s |}.
Definition set_ospf_costs (c : gmap (string * string) Z) (s : NetworkSimulator) :=
  {| graph := graph s; node_pos := node_pos s; nodes := nodes s;
     latencies := latencies s; ospf_costs := c; _running := _running s |}.
Definition set_running (b : bool) (s : NetworkSimulator) :=
  {| graph := graph s; node_pos := node_pos s; nodes := nodes s;
     latencies := latencies s; ospf_costs := ospf_costs s; _running := b |}.

(** ** The state-and-exception monad of method bodies

    A raised exception keeps the writes made before it, as in Python. *)
Definition M (A : Type) : Type := World -> result A * World.

Definition ret {A : Type} (a : A) : M A := λ w, (Ok a, w).

Definition bind {A B : Type} (c : M A) (k : A -> M B) : M B :=
  λ w, match c w with
       | (Ok a, w') => k a w'
       | (Raise e, w') => (Raise e, w')
       end.

Definition raise {A : Type} (e : exn) : M A := λ w, (Raise e, w).

Notation "'let*' x ':=' c 'in' k" := (bind c (λ x, k))
  (at level 10, x pattern, c at level 100, k at level 200).
Notation "c ';;' k" := (bind c (λ _, k))
  (at level 100, k at level 200, right associativity).

(** [try: c except <those handled by [handler]>: ...]. *)
Definition try_except {A : Type} (c : M A) (handler : exn -> option (M A)) : M A :=
  λ w, match c w with
       | (Ok a, w') => (Ok a, w')
       | (Raise e, w') =>
           match handler e with
           | Some h => h w'
           | None => (Raise e, w')
           end
       end.

Definition lift {A : Type} (r : result A) : M A := λ w, (r, w).

Definition read {A : Type} (f : NetworkSimulator -> A) : M A := λ w, (Ok (f (self w)), w).

Definition write (f : NetworkSimulator -> NetworkSimulator) : M unit :=
  λ w, (Ok tt, {| self := f (self w); random_state := random_state w |}).

(** [d[k]] on a dictionary: [KeyError] when the key is missing. *)
Definition getitem {K V : Type} `{Countable K} (d : gmap K V) (k : K) : M V :=
  match d !! k with
  | Some v => ret v
  | None => raise KeyError
  end.

(** [for x in l: body]. *)
Fixpoint for_ {A : Type} (l : list A) (body : A -> M unit) : M unit :=
  match l with
  | [] => ret tt
  | x :: l' => body x ;; for_ l' body
  end.

(** A loop threading a local variable: [for x in l: acc = body(acc, x)]. *)
Fixpoint for_acc {A B : Type} (l : list A) (acc : B) (body : B -> A -> M B) : M B :=
  match l with
  | [] => ret acc
  | x :: l' => let* acc' := body acc x in for_acc l' acc' body
  end.

Section Methods.
Context `{Runtime}.

(** [random.random()]: the next draw of the stream. *)
Definition random_random : M float :=
  λ w, (Ok (uf (random_stream (random_state w))),
        {| self := self w; random_state := S (random_state w) |}).

(** [random.uniform(a, b)] is [a + (b - a) * random()]. *)
Definition random_uniform (a b : float) : M float :=
  let* u := random_random in ret (a + (b - a) * u)%float.

(** [await asyncio.sleep(delay)]: control goes to the event loop; the
    delay itself is not modelled. *)
Definition asyncio_sleep (delay : float) : M unit :=
  λ w, (Ok tt, other_tasks w).

(** *** [_initialize_network] *)

Definition node_positions : list (string * (Z * Z)) :=
  [("R1", (0, 2)); ("R2", (2, 2)); ("R3", (2, 0)); ("R4", (0, 0));
   ("N1", (1, 3)); ("N2", (3, 1)); ("N3", (1, -1))].

Definition connections : list (string * string) :=
  [("R1", "R2"); ("R2", "R3"); ("R3", "R4"); ("R4", "R1");
   ("R1", "N1"); ("R2", "N2"); ("R3", "N3")].

Definition create_node (entry : string * (Z * Z)) : M unit :=
  let '(node_name, pos) := entry in
  let* known := read nodes in
  let ip_address := "192.168.1." +:+ pretty (size known) in
  let is_router := String.prefix "R" node_name in
  let area_id :=
    if bool_decide (node_name ∈ ["R1"; "N1"]) then 0
    else if bool_decide (node_name ∈ ["R2"; "N2"]) then 1 else 2 in
  let node := {| name := node_name; ip_address := ip_address;
                 is_router := is_router; area_id := area_id |} in
  write (λ s, set_nodes (<[node_name := node]> (nodes s)) s) ;;
  write (λ s, set_node_pos (<[node_name := pos]> (node_pos s))
                (set_graph (nx.add_node (graph s) node_name) s)).

Definition create_connection (c : string * string) : M unit :=
  let '(u, v) := c in
  write (λ s, set_graph (nx.add_edge (graph s) u v tt) s) ;;
  let* latency := random_uniform 10 50 in
  write (λ s, set_latencies (<[(u, v) := latency]> (latencies s)) s) ;;
  write (λ s, set_latencies (<[(v, u) := latency]> (latencies s)) s) ;;
  let* cost := lift (ospf_cost latency) in
  write (λ s, set_ospf_costs (<[(u, v) := cost]> (ospf_costs s)) s) ;;
  write (λ s, set_ospf_costs (<[(v, u) := cost]> (ospf_costs s)) s).

Definition _initialize_network : M unit :=
  for_ node_positions create_node ;;
  for_ connections create_connection.

(** [__init__]: empty containers, the topology, then the running flag. *)
Definition __init__ : M unit :=
  write (λ _, {| graph := nx.empty; node_pos := ∅; nodes := ∅;
                 latencies := ∅; ospf_costs := ∅; _running := false |}) ;;
  _initialize_network ;;
  write (set_running true).

(** *** [update_latencies] *)

(** The body of the [for edge in self.graph.edges()] loop. *)
Definition perturb (edge : string * string) : M unit :=
  let* table := read latencies in
  let* current_latency := getitem table edge in
  let* factor := random_uniform 0.9 1.1 in
  let new_latency := (current_latency * factor)%float in
  write (λ s, set_latencies (<[edge := new_latency]> (latencies s)) s) ;;
  write (λ s, set_latencies (<[(edge.2, edge.1) := new_latency]> (latencies s)) s) ;;
  let* cost := lift (ospf_cost new_latency) in
  write (λ s, set_ospf_costs (<[edge := cost]> (ospf_costs s)) s) ;;
  write (λ s, set_ospf_costs (<[(edge.2, edge.1) := cost]> (ospf_costs s)) s).

(** One perturbation pass: the whole [for] loop of one iteration. *)
Definition perturbation_pass : M unit :=
  let* g := read graph in for_ (nx.edges g) perturb.

(** The coroutine up to [fuel] iterations of its [while] loop; [None] when
    it is still looping after them. *)
Fixpoint update_latencies (fuel : nat) : M (option unit) :=
  match fuel with
  | O => ret None
  | S fuel' =>
      let* running := read _running in
      if running : bool then
        perturbation_pass ;;
        asyncio_sleep 5 ;;
        update_latencies fuel'
      else ret (Some tt)
  end.

(** *** [get_ospf_path] *)

Definition build_ospf_graph : M (nx.Graph Z) :=
  let* g := read graph in
  for_acc (nx.edges g) nx.empty (λ ospf_graph edge,
    let* costs := read ospf_costs in
    let* w := getitem costs edge in
    ret (nx.add_edge ospf_graph edge.1 edge.2 w)).

Definition get_ospf_path (source destination : string) : M (list string) :=
  try_except
    (let* ospf_graph := build_ospf_graph in
     lift (nx.shortest_path ospf_graph source destination))
    (λ e, match e with
          | NetworkXNoPath =>
              Some (raise (ValueError ("No OSPF path found between " +:+ source
                                         +:+ " and " +:+ destination)))
          | _ => None
          end).

(** *** [ping] *)

(** [path[i], path[i+1]] for [i in range(len(path) - 1)]. *)
Fixpoint hops_of (path : list string) : list (string * string) :=
  match path with
  | u :: (v :: _) as rest => (u, v) :: hops_of rest
  | _ => []
  end.

(** [sum(self.latencies[(path[i], path[i+1])] for i in ...)].  The int 0
    [sum] starts from is promoted to 0.0 by the first addition; an empty
    sum is only ever added to a float afterwards, which promotes it too. *)
Definition total_latency_of (path : list string) : M float :=
  for_acc (hops_of path) 0%float (λ acc hop,
    let* table := read latencies in
    let* l := getitem table hop in
    ret (acc + l)%float).

(** One echo.  [rtts.append] is the last statement that can fail to be
    reached, so the list is extended exactly once on either way out. *)
Definition echo (path : list string) (rtts : list (option num))
  : M (list (option num)) :=
  try_except
    (let* loss := random_random in
     (if (loss <? 0.01)%float then raise (TimeoutError "Request timed out") else ret tt) ;;
     let* total_latency := total_latency_of path in
     let* jitter := random_uniform (-2) 2 in
     let rtt := (total_latency + jitter)%float in
     let rtts' := rtts ++ [Some (max0 rtt)] in
     asyncio_sleep 0.1 ;;
     ret rtts')
    (λ e, match e with
          | TimeoutError _ => Some (ret (rtts ++ [None]))
          | _ => Some (ret (rtts ++ [None]))
          end).

Definition ping (source destination : string) (count : option Z)
  : M (list (option num) * list string) :=
  let count := default 4 count in
  let* known := read nodes in
  if bool_decide (is_Some (known !! source)) && bool_decide (is_Some (known !! destination)) then
    let* path := get_ospf_path source destination in
    let* rtts := for_acc (replicate (Z.to_nat count) tt) [] (λ rtts _, echo path rtts) in
    ret (rtts, path)
  else raise (ValueError "Source or destination node not found").

(** *** [traceroute] *)

Definition traceroute (source destination : string)
  : M (list (string * num) * list string) :=
  let* known := read nodes in
  if bool_decide (is_Some (known !! source)) && bool_decide (is_Some (known !! destination)) then
    try_except
      (let* path := get_ospf_path source destination in
       let* hops := for_acc (hops_of path) [] (λ hops hop,
         let* table := read latencies in
         let* latency := getitem table hop in
         asyncio_sleep 0.1 ;;
         ret (hops ++ [(hop.1, Float latency)])) in
       ret (hops ++ [(destination, Int 0)], path))
      (λ _, Some (ret ([], [])))
  else raise (ValueError "Source or destination node not found").

(** *** [stop] *)

Definition stop : M unit := write (set_running false).

(** *** [visualize_network]: the data it hands to the drawing routines

    The calls into matplotlib and networkx's drawing are outside the
    model; what is modelled is what the method computes from the
    simulator before drawing: the edge labels and the edges to
    highlight. *)

(** [f"{x:.1f}"]: [x] in decimal with one digit after the point, rounded
    from its exact binary value, ties to even. *)
Definition format_1f (x : float) : string :=
  match Prim2SF x with
  | S754_nan => "nan"
  | S754_infinity s => if s then "-inf" else "inf"
  | S754_zero s => if s then "-0.0" else "0.0"
  | S754_finite s m e =>
      let num := if 0 <=? e then Z.pos m * 2 ^ e * 10 else Z.pos m * 10 in
      let den := if 0 <=? e then 1 else 2 ^ (- e) in
      let q := num / den in
      let r := num mod den in
      let n := if 2 * r <? den then q
               else if den <? 2 * r then q + 1
               else if Z.even q then q else q + 1 in
      (if s then "-" else "") +:+ pretty (n / 10) +:+ "." +:+ pretty (n mod 10)
  end.

Definition newline : string := String (Ascii.ascii_of_nat 10) "".

(** [f"{latency:.1f}ms\nCost: {cost}"]. *)
Definition edge_label (latency : float) (cost : Z) : string :=
  format_1f latency +:+ "ms" +:+ newline +:+ "Cost: " +:+ pretty cost.

(** The [edge_labels] dictionary comprehension. *)
Definition edge_labels : M (gmap (string * string) string) :=
  let* g := read graph in
  for_acc (nx.edges g) ∅ (λ labels edge,
    let* table := read latencies in
    let* latency := getitem table edge in
    let* costs := read ospf_costs in
    let* cost := getitem costs edge in
    ret (<[edge := edge_label latency cost]> labels)).

(** [path_edges], when [if highlight_path:] lets it be computed: not for
    [None] and not for an empty list. *)
Definition path_edges (highlight_path : option (list string))
  : option (list (string * string)) :=
  match highlight_path with
  | Some ((_ :: _) as path) => Some (hops_of path)
  | _ => None
  end.

(** *** The updater coroutine, statement by statement

    The control points of [update_latencies]: the test of the [while]
    loop, the [for] loop with the edges still to perturb, the suspension
    in [asyncio.sleep(5)], the normal return, and an escaped exception. *)
Inductive updater_pc : Type :=
  | AtWhile
  | InFor (rest : list (string * string))
  | InSleep
  | Returned
  | Crashed (e : exn).

Definition updater_step (c : updater_pc * World) : updater_pc * World :=
  match c with
  | (AtWhile, w) =>
      if _running (self w) then (InFor (nx.edges (graph (self w))), w)
      else (Returned, w)
  | (InFor (edge :: rest), w) =>
      match perturb edge w with
      | (Ok _, w') => (InFor rest, w')
      | (Raise e, w') => (Crashed e, w')
      end
  | (InFor [], w) => (InSleep, w)
  | (InSleep, w) => (AtWhile, w)
  | (Returned, w) => (Returned, w)
  | (Crashed e, w) => (Crashed e, w)
  end.

(** What can happen to the updater and its flag: the event loop lets the
    coroutine advance by one statement, or another task calls [stop()].
    The event loop switches tasks at an [await] only, and the body of the
    [for] loop has none: [stop()] cannot run while the updater is inside
    a pass, so the event is not enabled there ([None]). *)
Inductive event : Type :=
  | Advance
  | Stop.

Definition handle (c : updater_pc * World) (ev : event)
  : option (updater_pc * World) :=
  match ev, c.1 with
  | Advance, _ => Some (updater_step c)
  | Stop, InFor _ => None
  | Stop, _ => Some (c.1, (stop c.2).2)
  end.

(** A schedule, as far as its events are enabled one after the other. *)
Fixpoint run (evs : list event) (c : updater_pc * World)
  : option (updater_pc * World) :=
  match evs with
  | [] => Some c
  | ev :: evs' =>
      match handle c ev with
      | Some c' => run evs' c'
      | None => None
      end
  end.

(** The control points a schedule goes through, the starting one
    excluded. *)
Fixpoint visited (evs : list event) (c : updater_pc * World) : list updater_pc :=
  match evs with
  | [] => []
  | ev :: evs' =>
      match handle c ev with
      | Some c' => c'.1 :: visited evs' c'
      | None => []
      end
  end.

(** [NetworkSimulator()] with the generator at position [seed]. *)
Definition NetworkSimulator_new (seed : nat) : result unit * World :=
  __init__ {| self := {| graph := nx.empty; node_pos := ∅; nodes := ∅;
                          latencies := ∅; ospf_costs := ∅; _running := false |};
              random_state := seed |}.

End Methods.

(** ** Vocabulary of the specification *)

(** [floor(1000 / latency)] in exact arithmetic, for a finite positive
    latency [m * 2^e] (and 0 for an infinite one). *)
Definition floor_1000_over (latency : float) : option Z :=
  match Prim2SF latency with
  | S754_finite false m e =>
      Some (if 0 <=? e then 1000 / (Z.pos m * 2 ^ e)
            else (1000 * 2 ^ (- e)) / Z.pos m)
  | S754_infinity false => Some 0
  | _ => None
  end.

(** The fixed topology, as [_initialize_network] builds it: the adjacency
    of the four routers of the ring and of the three leaf nodes. *)
Definition reference_graph : nx.Graph unit :=
  [("R1", [("R2", tt); ("R4", tt); ("N1", tt)]);
   ("R2", [("R1", tt); ("R3", tt); ("N2", tt)]);
   ("R3", [("R2", tt); ("R4", tt); ("N3", tt)]);
   ("R4", [("R3", tt); ("R1", tt)]);
   ("N1", [("R1", tt)]);
   ("N2", [("R2", tt)]);
   ("N3", [("R3", tt)])].

(** The [nodes] dictionary, as [_initialize_network] fills it. *)
Definition reference_nodes : gmap string NetworkNode :=
  list_to_map
    [("R1", {| name := "R1"; ip_address := "192.168.1.0"; is_router := true; area_id := 0 |});
     ("R2", {| name := "R2"; ip_address := "192.168.1.1"; is_router := true; area_id := 1 |});
     ("R3", {| name := "R3"; ip_address := "192.168.1.2"; is_router := true; area_id := 2 |});
     ("R4", {| name := "R4"; ip_address := "192.168.1.3"; is_router := true; area_id := 2 |});
     ("N1", {| name := "N1"; ip_address := "192.168.1.4"; is_router := false; area_id := 0 |});
     ("N2", {| name := "N2"; ip_address := "192.168.1.5"; is_router := false; area_id := 1 |});
     ("N3", {| name := "N3"; ip_address := "192.168.1.6"; is_router := false; area_id := 2 |})].

(** [walk G s p t d]: [p] is a walk from [s] to [t] through nodes of the
    weighted graph [G], of total weight [d]. *)
Inductive walk (G : nx.Graph Z) (s : string) : list string -> string -> Z -> Prop :=
  | walk_start :
      s ∈ nx.nodes G -> walk G s [s] s 0
  | walk_step p u v c d :
      walk G s p u d -> (v, c) ∈ nx.neighbors G u -> v ∈ nx.nodes G ->
      walk G s (p ++ [v]) v (d + c).

Definition nonneg_weights (G : nx.Graph Z) : Prop :=
  ∀ u v c, (v, c) ∈ nx.neighbors G u -> 0 <= c.

(** The invariant of Dijkstra's loop: [todo] are the nodes not yet closed,
    [seen] the tentative distances and paths. *)
Record dijkstra_inv (G : nx.Graph Z) (s t : string) (todo : list string)
    (seen : gmap string (Z * list string)) : Prop := {
  inv_todo : ∀ v, v ∈ todo -> v ∈ nx.nodes G;
  inv_closed : ∀ v, v ∈ nx.nodes G -> v ∉ todo -> is_Some (seen !! v);
  inv_target : t ∈ todo;
  inv_sound : ∀ v d p, seen !! v = Some (d, p) -> walk G s p v d;
  inv_source : ∃ d p, seen !! s = Some (d, p) ∧ d <= 0;
  inv_relaxed : ∀ v dv pv u c,
    seen !! v = Some (dv, pv) -> v ∉ todo ->
    (u, c) ∈ nx.neighbors G v -> u ∈ nx.nodes G ->
    ∃ du pu, seen !! u = Some (du, pu) ∧ du <= dv + c;
  inv_mono : ∀ v dv pv u du pu,
    seen !! v = Some (dv, pv) -> v ∉ todo ->
    seen !! u = Some (du, pu) -> u ∈ todo -> dv <= du
}.

(** A dictionary keyed by directed pairs that stores the same value under
    [(u, v)] and [(v, u)]. *)
Definition mirrored {V : Type} (m : gmap (string * string) V) : Prop :=
  ∀ u v, m !! (u, v) = m !! (v, u).

(** [u] and [v] are joined by an edge of the topology. *)
Definition topology_edge (w : World) (u v : string) : Prop :=
  (u, v) ∈ nx.edges (graph (self w)) ∨ (v, u) ∈ nx.edges (graph (self w)).

(** [n] is an endpoint of some edge of the topology. *)
Definition linked (w : World) (n : string) : Prop :=
  ∃ v, topology_edge w n v.

(** [p] leads from [source] to [destination] along edges of the topology. *)
Definition is_path (w : World) (source destination : string) (p : list string) : Prop :=
  head p = Some source ∧ last p = Some destination ∧ linked w source
  ∧ Forall (λ hop, topology_edge w hop.1 hop.2) (hops_of p).

(** The total cost of a path in the cost snapshot of [w]. *)
Definition path_cost (w : World) (p : list string) : Z :=
  foldr (λ hop acc, default 0 (ospf_costs (self w) !! hop) + acc) 0 (hops_of p).

(** Every edge of the topology has a cost, the same in both directions and
    not negative. *)
Definition costs_ok (w : World) : Prop :=
  Forall (λ e, ∃ c, ospf_costs (self w) !! e = Some c
                    ∧ ospf_costs (self w) !! (e.2, e.1) = Some c ∧ 0 <= c)
         (nx.edges (graph (self w))).

(** Every edge of the topology has a cost entry. *)
Definition costs_present (w : World) : Prop :=
  Forall (λ e, is_Some (ospf_costs (self w) !! e)) (nx.edges (graph (self w))).

(** The transient weighted view of the topology that [get_ospf_path] builds
    from a cost table: one [add_edge] per edge, in the order of [edges()]. *)
Definition weighted_view (costs : gmap (string * string) Z)
    (E : list (string * string)) : nx.Graph Z :=
  foldl (λ g e, nx.add_edge g e.1 e.2 (default 0 (costs !! e))) nx.empty E.

Definition ospf_graph_of (w : World) : nx.Graph Z :=
  weighted_view (ospf_costs (self w)) (nx.edges (graph (self w))).

(** Every edge of the topology has a latency entry, in both directions. *)
Definition latencies_present (w : World) : Prop :=
  ∀ u v, topology_edge w u v -> is_Some (latencies (self w) !! (u, v)).

(** The stored cost of every stored latency is the cost expression of the
    source evaluated on that latency. *)
Definition in_sync (w : World) : Prop :=
  ∀ k l, latencies (self w) !! k = Some l ->
         ∃ c, ospf_cost l = Ok c ∧ ospf_costs (self w) !! k = Some c.

(** The shape every world of the program has: the reference topology and
    two mirrored tables that cover its edges. *)
Definition well_formed (w : World) : Prop :=
  graph (self w) = reference_graph
  ∧ nodes (self w) = reference_nodes
  ∧ mirrored (latencies (self w))
  ∧ mirrored (ospf_costs (self w))
  ∧ ∀ e, e ∈ nx.edges reference_graph ->
         is_Some (latencies (self w) !! e) ∧ is_Some (ospf_costs (self w) !! e).

(** A ping sample: a timeout, the int 0 or a float that is not below 0. *)
Definition sample_ok (s : option num) : Prop :=
  match s with
  | None => True
  | Some (Int z) => 0 <= z
  | Some (Float f) => (0 <=? f)%float = true
  end.

(** A float whose sign is not negative: a zero, a positive finite number,
    plus infinity, or NaN (which no comparison finds below zero). *)
Definition sf_not_negative (x : spec_float) : Prop :=
  match x with
  | S754_finite s _ _ | S754_infinity s => s = false
  | _ => True
  end.

Definition not_negative (x : float) : Prop := sf_not_negative (Prim2SF x).

(** No stored latency and no stored cost is negative. *)
Definition nonneg_tables (w : World) : Prop :=
  (∀ k l, latencies (self w) !! k = Some l -> not_negative l)
  ∧ (∀ k c, ospf_costs (self w) !! k = Some c -> 0 <= c).

Section Reachability.
Context `{Runtime}.

(** The worlds the program can be in between two statements of the
    updater's loop: construction, then perturbation passes (each may end
    in an exception) or single edge updates of a pass under way, calls of
    [stop], and draws made by the probes. *)
Inductive reachable : World -> Prop :=
  | reachable_new seed w :
      NetworkSimulator_new seed = (Ok tt, w) -> reachable w
  | reachable_pass w r w' :
      reachable w -> perturbation_pass w = (r, w') -> reachable w'
  | reachable_perturb w edge r w' :
      reachable w -> perturb edge w = (r, w') -> reachable w'
  | reachable_stop w :
      reachable w -> reachable (stop w).2
  | reachable_draw w n :
      reachable w -> reachable {| self := self w; random_state := n |}.

(** The worlds right after the construction or right after a perturbation
    pass that ran to its end. *)
Inductive settled : World -> Prop :=
  | settled_new seed w :
      NetworkSimulator_new seed = (Ok tt, w) -> settled w
  | settled_pass w w' :
      settled w -> perturbation_pass w = (Ok tt, w') -> settled w'
  | settled_stop w :
      settled w -> settled (stop w).2
  | settled_draw w n :
      settled w -> settled {| self := self w; random_state := n |}.

(** No other task ever removes a latency entry. *)
Definition keeps_latencies : Prop :=
  ∀ w k, is_Some (latencies (self w) !! k) ->
         is_Some (latencies (self (other_tasks w)) !! k).

(** How many times a schedule makes the updater enter [asyncio.sleep],
    and how many times it makes it enter the [for] loop, from
    configuration [c] on. *)
Fixpoint sleeps_started (evs : list event) (c : updater_pc * World) : nat :=
  match evs with
  | [] => 0%nat
  | ev :: evs' =>
      match handle c ev with
      | Some c' =>
          (match ev, c.1 with
           | Advance, InFor [] => 1%nat
           | _, _ => 0%nat
           end + sleeps_started evs' c')%nat
      | None => 0%nat
      end
  end.

Fixpoint passes_started (evs : list event) (c : updater_pc * World) : nat :=
  match evs with
  | [] => 0%nat
  | ev :: evs' =>
      match handle c ev with
      | Some c' =>
          (match ev, c.1 with
           | Advance, AtWhile => if _running (self c.2) then 1%nat else 0%nat
           | _, _ => 0%nat
           end + passes_started evs' c')%nat
      | None => 0%nat
      end
  end.

(** A control point outside the [for] loop: the updater has not run yet,
    is suspended in its sleep or about to test the flag on waking up, or
    has ended.  These are the points where another task can run. *)
Definition outside_pass (pc : updater_pc) : Prop :=
  match pc with
  | InFor _ => False
  | _ => True
  end.

(** The updater has left its loop, by [return] or by an exception. *)
Definition terminated (pc : updater_pc) : Prop :=
  match pc with
  | Returned | Crashed _ => True
  | _ => False
  end.

End Reachability.

(** ** Concrete runs

    Two generators: one whose draws vary, and one that keeps drawing the
    same high value, under which every latency grows pass after pass.  No
    other task interferes during a suspension. *)

Definition draw (f : float) (range : ((0 <=? f) && (f <? 1))%float = true) : unit_float :=
  {| uf := f; uf_range := range |}.

Definition demo_draws : list unit_float :=
  [draw 0.5 eq_refl; draw 0.25 eq_refl; draw 0x1.2aaaaaaaaaaabp-1 eq_refl;
   draw 0.75 eq_refl; draw 0.125 eq_refl; draw 0.0625 eq_refl;
   draw 0.875 eq_refl; draw 0.375 eq_refl; draw 0.001 eq_refl].

Definition demo_runtime : Runtime :=
  {| random_stream := λ n, nth (n mod 9) demo_draws (draw 0.5 eq_refl);
     other_tasks := λ w, w |}.

Definition drift_runtime : Runtime :=
  {| random_stream := λ _, draw 0.99 eq_refl;
     other_tasks := λ w, w |}.

(** The world right after [NetworkSimulator()] under [demo_runtime]. *)
Definition demo_world : World :=
  Eval vm_compute in (@NetworkSimulator_new demo_runtime 0).2.

(** The world after construction and [n] perturbation passes under
    [drift_runtime]. *)
Definition drift_world (n : nat) : World :=
  Nat.iter n (λ w, (@perturbation_pass drift_runtime w).2)
           (@NetworkSimulator_new drift_runtime 0).2.

(** A generator like [demo_runtime] in a program whose updater completes one
    perturbation pass during every suspension of a probe. *)
Definition busy_runtime : Runtime :=
  {| random_stream := λ n, nth (n mod 9) demo_draws (draw 0.5 eq_refl);
     other_tasks := λ w, (@perturbation_pass demo_runtime w).2 |}.

(** [demo_world] with the link between [R3] and [N3] taken out of the graph:
    [N3] is still a node of the simulator, without any edge. *)
Definition cut_world : World :=
  {| self := set_graph
       [("R1", [("R2", tt); ("R4", tt); ("N1", tt)]);
        ("R2", [("R1", tt); ("R3", tt); ("N2", tt)]);
        ("R3", [("R2", tt); ("R4", tt)]);
        ("R4", [("R3", tt); ("R1", tt)]);
        ("N1", [("R1", tt)]);
        ("N2", [("R2", tt)]);
        ("N3", [])] (self demo_world);
     random_state := random_state demo_world |}.

(** [demo_world] with the ring cut between [R1] and [R2] and between [R3]
    and [R4]: two components, every node still on some edge. *)
Definition split_world : World :=
  {| self := set_graph
       [("R1", [("R4", tt); ("N1", tt)]);
        ("R2", [("R3", tt); ("N2", tt)]);
        ("R3", [("R2", tt); ("N3", tt)]);
        ("R4", [("R1", tt)]);
        ("N1", [("R1", tt)]);
        ("N2", [("R2", tt)]);
        ("N3", [("R3", tt)])] (self demo_world);
     random_state := random_state demo_world |}.

(** ** Vocabulary of the further properties *)

(** A list of links none of which occurs twice, in either direction, and
    none of which joins a node to itself. *)
Definition separate (es : list (string * string)) : Prop :=
  NoDup (es ++ ((λ e, (e.2, e.1)) <$> es)).

(** The part of the simulator that is set up once: the graph, the positions
    of its nodes and the node table. *)
Definition topology_fixed (w : World) : Prop :=
  graph (self w) = reference_graph
  ∧ node_pos (self w) = list_to_map node_positions
  ∧ nodes (self w) = reference_nodes.

(** Both tables hold entries for links of [connections] only. *)
Definition keys_on_links (w : World) : Prop :=
  ∀ k, is_Some (latencies (self w) !! k) ∨ is_Some (ospf_costs (self w) !! k) ->
       k ∈ connections ∨ (k.2, k.1) ∈ connections.

Section Interference.
Context `{Runtime}.

(** No other task writes the running flag: nobody calls [stop]. *)
Definition keeps_flag : Prop :=
  ∀ w, _running (self (other_tasks w)) = _running (self w).

(** No other task adds a latency entry. *)
Definition adds_no_latency : Prop :=
  ∀ w k, latencies (self w) !! k = None ->
         latencies (self (other_tasks w)) !! k = None.

End Interference.

(** [demo_world] after somebody removed the cost entry of the edge
    [("R3", "N3")], and after somebody removed its latency entry. *)
Definition unpriced_world : World :=
  {| self := set_ospf_costs (delete ("R3", "N3") (ospf_costs (self demo_world)))
               (self demo_world);
     random_state := random_state demo_world |}.

Definition unmeasured_world : World :=
  {| self := set_latencies (delete ("R3", "N3") (latencies (self demo_world)))
               (self demo_world);
     random_state := random_state demo_world |}.

(** [demo_world] with the latency of the link between [R1] and [R2]
    overwritten by zero, in both directions. *)
Definition frozen_world : World :=
  {| self := set_latencies (<[("R2", "R1") := 0%float]>
                              (<[("R1", "R2") := 0%float]> (latencies (self demo_world))))
               (self demo_world);
     random_state := random_state demo_world |}.

(** What Dijkstra's loop keeps true of its tentative paths: each ends in its
    node, visits no node twice, and goes through closed nodes only. *)
Definition simple_paths (todo : list string) (seen : gmap string (Z * list string)) : Prop :=
  ∀ v d p, seen !! v = Some (d, p) ->
    NoDup p ∧ last p = Some v ∧ ∀ x, x ∈ p -> x ≠ v -> x ∉ todo.

(** Under [drift_runtime] every draw is 0.99: every connection starts at the
    same latency and every edge update multiplies by the same factor. *)
Definition drift_start : float := (10 + (50 - 10) * 0.99)%float.

Definition drift_factor : float := (0.9 + (1.1 - 0.9) * 0.99)%float.

(** The latency of every edge after [n] passes under [drift_runtime]. *)
Definition drift_latency (n : nat) : float :=
  Nat.iter n (λ l, (l * drift_factor)%float) drift_start.

(** The cost expression can be evaluated on each of the next [n] latencies
    of a link that is at [l] now and is multiplied by [drift_factor] in
    every pass. *)
Fixpoint drift_costs_ok (n : nat) (l : float) : bool :=
  match n with
  | O => true
  | S n' =>
      let l' := (l * drift_factor)%float in
      match ospf_cost l' with
      | Ok _ => drift_costs_ok n' l'
      | Raise _ => false
      end
  end.

(** * Verification *)

(** ** Loops of the monad *)

Lemma for__inv {A : Type} (P : World -> Prop) (l : list A) (body : A -> M unit) :
  (∀ x w r w', x ∈ l -> P w -> body x w = (r, w') -> P w') ->
  ∀ w r w', P w -> for_ l body w = (r, w') -> P w'.
Proof.
  induction l as [|x l IH]; intros Hstep w r w' Hw Hrun; simpl in Hrun.
  - unfold ret in Hrun. by simplify_eq.
  - unfold bind in Hrun. destruct (body x w) as [[[]|e] w1] eqn:Hx.
    + eapply IH; [|eapply (Hstep x); [left|done..]|done].
      intros y ????; apply Hstep. by right.
    + simplify_eq. eapply (Hstep x); [left|done..].
Qed.

Lemma for__ok_inv {A : Type} (I : list A -> World -> Prop) (body : A -> M unit) :
  (∀ done x w w', I done w -> body x w = (Ok tt, w') -> I (done ++ [x]) w') ->
  ∀ l done w w', I done w -> for_ l body w = (Ok tt, w') -> I (done ++ l) w'.
Proof.
  intros Hstep. induction l as [|x l IH]; intros done w w' Hw Hrun; simpl in Hrun.
  - unfold ret in Hrun. simplify_eq. by rewrite app_nil_r.
  - unfold bind in Hrun. destruct (body x w) as [[[]|e] w1] eqn:Hx; [|done].
    replace (done ++ x :: l) with ((done ++ [x]) ++ l) by (by rewrite <- app_assoc).
    eapply IH; [|done]. by eapply Hstep.
Qed.

Lemma for_acc_inv {A B : Type} (P : World -> Prop) (l : list A) (body : B -> A -> M B) :
  (∀ acc x w r w', P w -> body acc x w = (r, w') -> P w') ->
  ∀ acc w r w', P w -> for_acc l acc body w = (r, w') -> P w'.
Proof.
  intros Hstep. induction l as [|x l IH]; intros acc w r w' Hw Hrun; simpl in Hrun.
  - unfold ret in Hrun. by simplify_eq.
  - unfold bind in Hrun. destruct (body acc x w) as [[acc'|e] w1] eqn:Hx.
    + eapply IH; [|done]. by eapply Hstep.
    + simplify_eq. by eapply Hstep.
Qed.

(** ** Mirrored dictionaries *)

Lemma mirrored_empty {V : Type} : mirrored (∅ : gmap (string * string) V).
Proof. intros u v. by rewrite !lookup_empty. Qed.

Lemma mirrored_insert {V : Type} (m : gmap (string * string) V) (a b : string) (x : V) :
  mirrored m -> mirrored (<[(b, a) := x]> (<[(a, b) := x]> m)).
Proof.
  intros Hm u v. rewrite !lookup_insert. specialize (Hm u v).
  repeat case_decide; simplify_eq; done.
Qed.

Lemma lookup_insert_is_Some' {V : Type} (m : gmap (string * string) V) k k' (x : V) :
  is_Some (m !! k) -> is_Some (<[k' := x]> m !! k).
Proof. intros. rewrite lookup_insert_is_Some. destruct (decide (k' = k)); auto. Qed.

Section Metric.
Context `{Runtime}.

(** *** What one edge update and one connection do to the world *)

Lemma perturb_unfold (edge : string * string) (w : World) :
  match latencies (self w) !! edge with
  | None => perturb edge w = (Raise KeyError, w)
  | Some current =>
      let new := (current * (0.9 + (1.1 - 0.9) * random_stream (random_state w)))%float in
      let s1 := set_latencies (<[(edge.2, edge.1) := new]>
                                 (<[edge := new]> (latencies (self w)))) (self w) in
      match ospf_cost new with
      | Raise e =>
          perturb edge w = (Raise e, {| self := s1; random_state := S (random_state w) |})
      | Ok c =>
          perturb edge w =
            (Ok tt, {| self := set_ospf_costs (<[(edge.2, edge.1) := c]>
                                                 (<[edge := c]> (ospf_costs (self w)))) s1;
                       random_state := S (random_state w) |})
      end
  end.
Proof.
  unfold perturb, bind, read, getitem, random_uniform, random_random, bind, ret,
    raise, write, lift.
  destruct (latencies (self w) !! edge) as [current|] eqn:Hl; simpl; [|done].
  destruct (ospf_cost _) as [c|e]; reflexivity.
Qed.

Lemma create_connection_unfold (u v : string) (w : World) :
  let latency := (10 + (50 - 10) * random_stream (random_state w))%float in
  let s1 := set_latencies (<[(v, u) := latency]> (<[(u, v) := latency]> (latencies (self w))))
              (set_graph (nx.add_edge (graph (self w)) u v tt) (self w)) in
  match ospf_cost latency with
  | Raise e =>
      create_connection (u, v) w
      = (Raise e, {| self := s1; random_state := S (random_state w) |})
  | Ok c =>
      create_connection (u, v) w =
        (Ok tt, {| self := set_ospf_costs (<[(v, u) := c]> (<[(u, v) := c]> (ospf_costs (self w)))) s1;
                   random_state := S (random_state w) |})
  end.
Proof.
  unfold create_connection, bind, read, getitem, random_uniform, random_random, bind,
    ret, raise, write, lift; simpl.
  destruct (ospf_cost _) as [c|e]; reflexivity.
Qed.

End Metric.

Section Invariants.
Context `{Runtime}.

(** *** One edge update *)

Lemma perturb_well_formed edge w r w' :
  well_formed w -> perturb edge w = (r, w') -> well_formed w'.
Proof.
  intros (Hg & Hn & Hl & Hc & Hcov) Hrun.
  pose proof (perturb_unfold edge w) as Hu.
  destruct (latencies (self w) !! edge) as [current|].
  - cbv zeta in Hu. destruct edge as [a b].
    destruct (ospf_cost _) as [c|e]; rewrite Hu in Hrun; clear Hu;
      injection Hrun as <- <-; (split_and!; simpl; [done|done|by apply mirrored_insert|..]).
    + by apply mirrored_insert.
    + intros e' He'. destruct (Hcov e' He'). split; by do 2 apply lookup_insert_is_Some'.
    + done.
    + intros e' He'. destruct (Hcov e' He'). split; [by do 2 apply lookup_insert_is_Some'|done].
  - rewrite Hu in Hrun. injection Hrun as <- <-. by split_and!.
Qed.

Lemma perturb_in_sync edge w w' :
  in_sync w -> perturb edge w = (Ok tt, w') -> in_sync w'.
Proof.
  intros Hs Hrun. pose proof (perturb_unfold edge w) as Hu.
  destruct (latencies (self w) !! edge) as [current|]; [|by rewrite Hu in Hrun].
  cbv zeta in Hu. destruct (ospf_cost _) as [c|e] eqn:Hcost; rewrite Hu in Hrun; [|done].
  clear Hu. injection Hrun as <-. intros k l. simpl. rewrite !lookup_insert.
  repeat case_decide; intros Hk; [injection Hk as <-; eauto..|by apply Hs].
Qed.

(** *** One perturbation pass *)

Lemma perturbation_pass_unfold w :
  perturbation_pass w = for_ (nx.edges (graph (self w))) perturb w.
Proof. reflexivity. Qed.

Lemma perturbation_pass_well_formed w r w' :
  well_formed w -> perturbation_pass w = (r, w') -> well_formed w'.
Proof.
  rewrite perturbation_pass_unfold. intros Hw Hrun.
  eapply (for__inv well_formed); [|exact Hw|exact Hrun].
  intros x w1 r1 w2 _. apply perturb_well_formed.
Qed.

Lemma perturbation_pass_in_sync w w' :
  in_sync w -> perturbation_pass w = (Ok tt, w') -> in_sync w'.
Proof.
  rewrite perturbation_pass_unfold. intros Hw Hrun.
  eapply (for__ok_inv (λ _, in_sync) perturb) with (done := []); [|exact Hw|exact Hrun].
  intros _ x w1 w2. apply perturb_in_sync.
Qed.

(** *** Construction *)

Lemma create_nodes_unfold seed :
  for_ node_positions create_node
    {| self := {| graph := nx.empty; node_pos := ∅; nodes := ∅;
                  latencies := ∅; ospf_costs := ∅; _running := false |};
       random_state := seed |}
  = (Ok tt,
     {| self := {| graph := foldl nx.add_node nx.empty
                              ["R1"; "R2"; "R3"; "R4"; "N1"; "N2"; "N3"];
                   node_pos := list_to_map node_positions;
                   nodes := reference_nodes;
                   latencies := ∅; ospf_costs := ∅; _running := false |};
        random_state := seed |}).
Proof. vm_compute. reflexivity. Qed.

Lemma edges_reference_graph e :
  e ∈ nx.edges reference_graph -> e ∈ connections ∨ (e.2, e.1) ∈ connections.
Proof.
  intros He. vm_compute in He. unfold connections.
  repeat (apply elem_of_cons in He as [->|He];
          [simpl; rewrite !elem_of_cons; tauto|]).
  by apply elem_of_nil in He.
Qed.

(** What holds once all connections have been created. *)
Lemma create_connections_inv w0 w' :
  graph (self w0) = foldl nx.add_node nx.empty
                      ["R1"; "R2"; "R3"; "R4"; "N1"; "N2"; "N3"] ->
  nodes (self w0) = reference_nodes ->
  latencies (self w0) = ∅ -> ospf_costs (self w0) = ∅ ->
  for_ connections create_connection w0 = (Ok tt, w') ->
  well_formed w' ∧ in_sync w' ∧ _running (self w') = _running (self w0).
Proof.
  intros Hg Hn Hl Hc Hrun.
  pose (I := λ (done : list (string * string)) (w : World),
    graph (self w) = foldl (λ g c, nx.add_edge g c.1 c.2 tt) (graph (self w0)) done
    ∧ nodes (self w) = reference_nodes
    ∧ mirrored (latencies (self w)) ∧ mirrored (ospf_costs (self w))
    ∧ (∀ e, e ∈ done -> is_Some (latencies (self w) !! e)
                         ∧ is_Some (ospf_costs (self w) !! e))
    ∧ in_sync w ∧ _running (self w) = _running (self w0)).
  assert (I connections w') as (Hg' & Hn' & Hl' & Hc' & Hcov & Hs & Hr).
  { eapply (for__ok_inv I create_connection) with (done := []) (l := connections);
      [| |exact Hrun].
    - clear. intros done [u v] w w' (Hg & Hn & Hl & Hc & Hcov & Hs & Hr) Hrun.
      pose proof (create_connection_unfold u v w) as Hu. cbv zeta in Hu.
      destruct (ospf_cost _) as [c|e] eqn:Hcost; rewrite Hu in Hrun; [|done].
      clear Hu. injection Hrun as <-. unfold I; simpl. split_and!.
      + by rewrite foldl_app, Hg.
      + done.
      + by apply mirrored_insert.
      + by apply mirrored_insert.
      + intros e [He| ->%list_elem_of_singleton]%elem_of_app.
        * destruct (Hcov e He). split; by do 2 apply lookup_insert_is_Some'.
        * split; apply lookup_insert_is_Some'; rewrite lookup_insert_eq; eauto.
      + intros k l. simpl. rewrite !lookup_insert.
        repeat case_decide; intros Hk; [injection Hk as <-; eauto..|by apply Hs].
      + done.
    - unfold I. rewrite Hl, Hc. split_and!; try done; try apply mirrored_empty.
      + intros e He. by apply elem_of_nil in He.
      + intros k l. by rewrite Hl, lookup_empty. }
  split; [|by split]. split_and!; try done.
  - rewrite Hg', Hg. vm_compute. reflexivity.
  - intros e He. destruct (edges_reference_graph e He) as [Hin|Hin].
    + by apply Hcov.
    + destruct e as [a b]. rewrite (Hl' a b), (Hc' a b). by apply Hcov.
Qed.

Lemma NetworkSimulator_new_unfold seed :
  NetworkSimulator_new seed =
    match for_ connections create_connection
            {| self := {| graph := foldl nx.add_node nx.empty
                                     ["R1"; "R2"; "R3"; "R4"; "N1"; "N2"; "N3"];
                          node_pos := list_to_map node_positions;
                          nodes := reference_nodes;
                          latencies := ∅; ospf_costs := ∅; _running := false |};
               random_state := seed |} with
    | (Ok _, w) => (Ok tt, {| self := set_running true (self w);
                              random_state := random_state w |})
    | (Raise e, w) => (Raise e, w)
    end.
Proof.
  unfold NetworkSimulator_new, __init__, _initialize_network.
  unfold bind at 1. unfold write at 1. cbn [self random_state].
  unfold bind at 1. unfold bind at 1.
  rewrite create_nodes_unfold.
  destruct (for_ connections create_connection _) as [[[]|e] w]; reflexivity.
Qed.

Lemma NetworkSimulator_new_spec seed w :
  NetworkSimulator_new seed = (Ok tt, w) ->
  well_formed w ∧ in_sync w ∧ _running (self w) = true.
Proof.
  rewrite NetworkSimulator_new_unfold.
  destruct (for_ connections create_connection _) as [[[]|e] w3] eqn:Hconn;
    [|discriminate].
  intros [= <-].
  apply create_connections_inv in Hconn as (Hwf & Hs & Hr); [|reflexivity..].
  destruct Hwf as (Hg & Hn & Hl & Hc & Hcov).
  split; [|split]; [|exact Hs|reflexivity].
  split_and!; assumption.
Qed.

End Invariants.

Section Reachable.
Context `{Runtime}.

Lemma reachable_well_formed w : reachable w -> well_formed w.
Proof.
  induction 1 as [seed w Hnew|w r w' _ IH Hpass|w edge r w' _ IH Hp|w _ IH|w n _ IH].
  - by apply NetworkSimulator_new_spec in Hnew as (? & _).
  - by eapply perturbation_pass_well_formed.
  - by eapply perturb_well_formed.
  - exact IH.
  - exact IH.
Qed.

Lemma settled_reachable w : settled w -> reachable w.
Proof.
  induction 1; [by eapply reachable_new|by eapply reachable_pass
               |by apply reachable_stop|by apply reachable_draw].
Qed.

Lemma settled_in_sync w : settled w -> in_sync w.
Proof.
  induction 1 as [seed w Hnew|w w' _ IH Hpass|w _ IH|w n _ IH].
  - by apply NetworkSimulator_new_spec in Hnew as (_ & ? & _).
  - by eapply perturbation_pass_in_sync.
  - exact IH.
  - exact IH.
Qed.

Lemma well_formed_edge w u v :
  well_formed w -> (u, v) ∈ nx.edges (graph (self w)) ->
  ∃ l c, latencies (self w) !! (u, v) = Some l
         ∧ latencies (self w) !! (v, u) = Some l
         ∧ ospf_costs (self w) !! (u, v) = Some c
         ∧ ospf_costs (self w) !! (v, u) = Some c.
Proof.
  intros (Hg & _ & Hl & Hc & Hcov) He. rewrite Hg in He.
  destruct (Hcov _ He) as [[l Hlat] [c Hcost]].
  exists l, c. by rewrite <- (Hl u v), <- (Hc u v).
Qed.

(** C3.  In every world reachable by construction and any number of
    perturbation passes, both directions of every edge of the topology
    carry the same stored latency and the same stored cost. *)
Theorem latency_and_cost_symmetric w u v :
  reachable w ->
  (u, v) ∈ nx.edges (graph (self w)) ->
  ∃ l c, latencies (self w) !! (u, v) = Some l
         ∧ latencies (self w) !! (v, u) = Some l
         ∧ ospf_costs (self w) !! (u, v) = Some c
         ∧ ospf_costs (self w) !! (v, u) = Some c.
Proof.
  intros Hr. apply well_formed_edge. by apply reachable_well_formed.
Qed.

(** C1, as amended.  Right after the construction and right after every
    perturbation pass that ran to its end, the stored cost of every edge
    is [int(100 / (latency / 10))], evaluated in binary64 arithmetic on the
    stored latency of that edge, in both directions. *)
Theorem cost_tracks_latency w u v :
  settled w ->
  (u, v) ∈ nx.edges (graph (self w)) ->
  ∃ l c, latencies (self w) !! (u, v) = Some l
         ∧ latencies (self w) !! (v, u) = Some l
         ∧ ospf_cost l = Ok c
         ∧ ospf_costs (self w) !! (u, v) = Some c
         ∧ ospf_costs (self w) !! (v, u) = Some c.
Proof.
  intros Hs He.
  destruct (well_formed_edge w u v) as (l & c & Hl & Hl' & Hc & Hc');
    [by apply reachable_well_formed, settled_reachable|done|].
  destruct (settled_in_sync w Hs _ _ Hl) as (c' & Hcost & Hc'').
  exists l, c. split_and!; try done. congruence.
Qed.

End Reachable.

Lemma demo_world_new : @NetworkSimulator_new demo_runtime 0 = (Ok tt, demo_world).
Proof. vm_compute. reflexivity. Qed.

Lemma latency_and_cost_symmetric_witness :
  ∃ l c, latencies (self demo_world) !! ("R1", "R4") = Some l
         ∧ latencies (self demo_world) !! ("R4", "R1") = Some l
         ∧ ospf_costs (self demo_world) !! ("R1", "R4") = Some c
         ∧ ospf_costs (self demo_world) !! ("R4", "R1") = Some c.
Proof.
  apply (@latency_and_cost_symmetric demo_runtime demo_world "R1" "R4").
  - apply (@reachable_new demo_runtime 0). vm_compute. reflexivity.
  - vm_compute. do 1 right. left.
Defined.

(** C1, as stated, fails: a latency the constructor can draw whose stored
    cost is 30 although [floor(1000 / latency)] is 29, in exact arithmetic
    and in a single binary64 division alike. *)
Lemma cost_is_not_floor_1000_over_latency :
  @settled demo_runtime demo_world
  ∧ ("R3", "R4") ∈ nx.edges (graph (self demo_world))
  ∧ latencies (self demo_world) !! ("R3", "R4") = Some 33.333333333333336%float
  ∧ ospf_costs (self demo_world) !! ("R3", "R4") = Some 30
  ∧ floor_1000_over 33.333333333333336 = Some 29
  ∧ int_of_float (1000 / 33.333333333333336) = Ok 29.
Proof.
  split_and!.
  - apply (@settled_new demo_runtime 0). vm_compute. reflexivity.
  - vm_compute. do 5 right. left.
  - vm_compute. reflexivity.
  - vm_compute. reflexivity.
  - vm_compute. reflexivity.
  - vm_compute. reflexivity.
Qed.

Lemma cost_tracks_latency_witness :
  ∃ l c, latencies (self demo_world) !! ("R3", "R4") = Some l
         ∧ latencies (self demo_world) !! ("R4", "R3") = Some l
         ∧ ospf_cost l = Ok c
         ∧ ospf_costs (self demo_world) !! ("R3", "R4") = Some c
         ∧ ospf_costs (self demo_world) !! ("R4", "R3") = Some c.
Proof.
  apply (@cost_tracks_latency demo_runtime demo_world "R3" "R4").
  - apply (@settled_new demo_runtime 0). vm_compute. reflexivity.
  - vm_compute. do 5 right. left.
Defined.

(** ** Dijkstra's algorithm *)

Section Dijkstra.
Implicit Types (G : nx.Graph Z) (todo : list string)
  (seen : gmap string (Z * list string)).

Lemma walk_node G s p t d : walk G s p t d -> t ∈ nx.nodes G.
Proof. by destruct 1. Qed.

(** *** Choosing the closest open node *)

Lemma closest_None todo seen u :
  nx.closest todo seen = None -> u ∈ todo -> seen !! u = None.
Proof.
  induction todo as [|y todo IH]; intros Hrest Hu; [by apply elem_of_nil in Hu|].
  simpl in Hrest. destruct (seen !! y) as [[dy py]|] eqn:Hy.
  - destruct (nx.closest todo seen) as [[v' [d' p']]|]; [|done].
    by destruct (dy <=? d').
  - apply elem_of_cons in Hu as [->|Hu]; [done|by apply IH].
Qed.

Lemma closest_Some todo seen v d p :
  nx.closest todo seen = Some (v, (d, p)) ->
  v ∈ todo ∧ seen !! v = Some (d, p)
  ∧ ∀ u du pu, u ∈ todo -> seen !! u = Some (du, pu) -> d <= du.
Proof.
  revert v d p. induction todo as [|x todo IH]; intros v d p Hc; simpl in Hc; [done|].
  destruct (seen !! x) as [[dx px]|] eqn:Hx.
  - destruct (nx.closest todo seen) as [[v' [d' p']]|] eqn:Hrest.
    + destruct (IH _ _ _ eq_refl) as (Hin & Hv' & Hmin).
      destruct (Z.leb_spec dx d') as [Hle|Hlt]; injection Hc as <- <- <-.
      * split_and!; [left|done|]. intros u du pu [->|Hu]%elem_of_cons Hsu.
        -- rewrite Hx in Hsu. injection Hsu as <- <-. lia.
        -- specialize (Hmin _ _ _ Hu Hsu). lia.
      * split_and!; [by right|done|]. intros u du pu [->|Hu]%elem_of_cons Hsu.
        -- rewrite Hx in Hsu. injection Hsu as <- <-. lia.
        -- by eapply Hmin.
    + injection Hc as <- <- <-. split_and!; [left|done|].
      intros u du pu [->|Hu]%elem_of_cons Hsu.
      * rewrite Hx in Hsu. injection Hsu as <- <-. lia.
      * rewrite (closest_None _ _ _ Hrest Hu) in Hsu. done.
  - destruct (IH _ _ _ Hc) as (Hin & Hv' & Hmin). split_and!; [by right|done|].
    intros u du pu [->|Hu]%elem_of_cons Hsu; [congruence|by eapply Hmin].
Qed.

Lemma closest_singleton todo (s : string) dp :
  s ∈ todo -> nx.closest todo {[ s := dp ]} = Some (s, dp).
Proof.
  induction todo as [|y todo IH]; intros Hs; [by apply elem_of_nil in Hs|].
  simpl. destruct (decide (y = s)) as [->|Hne].
  - rewrite lookup_singleton_eq. destruct dp as [d p].
    destruct (decide (s ∈ todo)) as [Hin|Hnin].
    + rewrite (IH Hin). by rewrite Z.leb_refl.
    + assert (nx.closest todo {[ s := (d, p) ]} = None) as ->; [|done].
      clear IH Hs. induction todo as [|z todo IH]; [done|]. simpl.
      rewrite lookup_singleton_ne; [|intros ->; apply Hnin; left].
      apply IH. intros ?; apply Hnin. by right.
  - rewrite lookup_singleton_ne by done. apply IH.
    apply elem_of_cons in Hs as [->|]; done.
Qed.

(** *** Relaxing the edges of the closed node *)

Section Relax.
Variables (d : Z) (p : list string) (todo : list string).

Lemma relax_other seen e u :
  u ∉ todo -> nx.relax d p todo seen e !! u = seen !! u.
Proof.
  intros Hu. destruct e as [x c]. unfold nx.relax.
  case_bool_decide as Hx; [|done].
  assert (x ≠ u) by congruence.
  destruct (seen !! x) as [[dx px]|]; [destruct (d + c <? dx)|];
    by rewrite ?lookup_insert_ne.
Qed.

Lemma relax_keeps seen e u du pu :
  seen !! u = Some (du, pu) ->
  ∃ du' pu', nx.relax d p todo seen e !! u = Some (du', pu') ∧ du' <= du.
Proof.
  intros Hu. destruct e as [x c]. unfold nx.relax.
  case_bool_decide as Hx; [|exists du, pu; split; [done|lia]].
  destruct (decide (x = u)) as [->|Hne].
  - rewrite Hu. destruct (Z.ltb_spec (d + c) du).
    + rewrite lookup_insert_eq. eexists _, _. split; [done|lia].
    + exists du, pu. split; [done|lia].
  - destruct (seen !! x) as [[dx px]|]; [destruct (d + c <? dx)|];
      rewrite ?lookup_insert_ne by done; exists du, pu; (split; [done|lia]).
Qed.

Lemma relax_origin seen e u du pu :
  nx.relax d p todo seen e !! u = Some (du, pu) ->
  seen !! u = Some (du, pu)
  ∨ (u ∈ todo ∧ u = e.1 ∧ du = d + e.2 ∧ pu = p ++ [u]).
Proof.
  destruct e as [x c]. unfold nx.relax. simpl.
  case_bool_decide as Hx; [|by left].
  destruct (decide (x = u)) as [->|Hne].
  - destruct (seen !! u) as [[dx px]|] eqn:Hsu; [destruct (d + c <? dx)|];
      rewrite ?lookup_insert_eq; intros Hu;
      [injection Hu as <- <-; by right
      |left; congruence
      |injection Hu as <- <-; by right].
  - destruct (seen !! x) as [[dx px]|]; [destruct (d + c <? dx)|];
      rewrite ?lookup_insert_ne by done; by left.
Qed.

Lemma relax_edge seen x c :
  x ∈ todo ->
  ∃ du pu, nx.relax d p todo seen (x, c) !! x = Some (du, pu) ∧ du <= d + c.
Proof.
  intros Hx. unfold nx.relax. rewrite bool_decide_eq_true_2 by done.
  destruct (seen !! x) as [[dx px]|] eqn:Hsx.
  - destruct (Z.ltb_spec (d + c) dx).
    + rewrite lookup_insert_eq. eexists _, _. split; [done|lia].
    + exists dx, px. split; [done|lia].
  - rewrite lookup_insert_eq. eexists _, _. split; [done|lia].
Qed.

Lemma relax_all_other nbrs seen u :
  u ∉ todo -> foldl (nx.relax d p todo) seen nbrs !! u = seen !! u.
Proof.
  intros Hu. revert seen. induction nbrs as [|e nbrs IH]; intros seen; simpl; [done|].
  by rewrite IH, relax_other.
Qed.

Lemma relax_all_keeps nbrs seen u du pu :
  seen !! u = Some (du, pu) ->
  ∃ du' pu', foldl (nx.relax d p todo) seen nbrs !! u = Some (du', pu') ∧ du' <= du.
Proof.
  revert seen du pu. induction nbrs as [|e nbrs IH]; intros seen du pu Hu; simpl.
  - exists du, pu. split; [done|lia].
  - destruct (relax_keeps seen e u du pu Hu) as (d1 & p1 & H1 & Hle1).
    destruct (IH _ _ _ H1) as (d2 & p2 & H2 & Hle2).
    exists d2, p2. split; [done|lia].
Qed.

Lemma relax_all_origin nbrs seen u du pu :
  foldl (nx.relax d p todo) seen nbrs !! u = Some (du, pu) ->
  seen !! u = Some (du, pu)
  ∨ (u ∈ todo ∧ ∃ c, (u, c) ∈ nbrs ∧ du = d + c ∧ pu = p ++ [u]).
Proof.
  revert seen. induction nbrs as [|e nbrs IH]; intros seen Hu; simpl in Hu; [by left|].
  destruct (IH _ Hu) as [H1|(Hin & c & Hc & Hd & Hp)].
  - destruct (relax_origin _ _ _ _ _ H1) as [?|(Hin & He & Hd & Hp)]; [by left|].
    right. split; [done|]. exists e.2. split_and!; [|done..].
    destruct e as [x c]; simpl in *. subst x. left.
  - right. split; [done|]. exists c. split_and!; [by right|done..].
Qed.

Lemma relax_all_edge nbrs seen x c :
  (x, c) ∈ nbrs -> x ∈ todo ->
  ∃ du pu, foldl (nx.relax d p todo) seen nbrs !! x = Some (du, pu) ∧ du <= d + c.
Proof.
  revert seen. induction nbrs as [|e nbrs IH]; intros seen Hin Hx; simpl;
    [by apply elem_of_nil in Hin|].
  apply elem_of_cons in Hin as [<-|Hin]; [|by apply IH].
  destruct (relax_edge seen x c Hx) as (d1 & p1 & H1 & Hle1).
  destruct (relax_all_keeps nbrs _ _ _ _ H1) as (d2 & p2 & H2 & Hle2).
  exists d2, p2. split; [done|lia].
Qed.

End Relax.

End Dijkstra.

Lemma has_node_elem {A : Type} (G : nx.Graph A) (n : string) :
  nx.has_node G n = true ↔ n ∈ nx.nodes G.
Proof.
  unfold nx.has_node, nx.nodes. rewrite bool_decide_eq_true.
  induction G as [|[k b] G' IH]; simpl.
  - split; [intros [? ?]; done|intros ?%elem_of_nil; done].
  - rewrite elem_of_cons. destruct (decide (n = k)) as [->|Hne].
    + split; [by left|by eexists].
    + rewrite IH. split; [by right|intros [?|?]; done].
Qed.

Section DijkstraCorrect.
Variables (G : nx.Graph Z) (s t : string).
Hypothesis nonneg : nonneg_weights G.

(** Every walk from the source is at least as long as the final distance
    of its end point, when that is closed, and otherwise as the tentative
    distance of some open node. *)
Lemma lower_bound todo seen q y c :
  dijkstra_inv G s t todo seen ->
  walk G s q y c ->
  (y ∉ todo -> ∃ dy py, seen !! y = Some (dy, py) ∧ dy <= c)
  ∧ (y ∈ todo -> ∃ z dz pz, z ∈ todo ∧ seen !! z = Some (dz, pz) ∧ dz <= c).
Proof.
  intros Hinv. induction 1 as [Hs|q u v c0 c Hw [IHclosed IHopen] Hedge Hv].
  - destruct (inv_source _ _ _ _ _ Hinv) as (d & p & Hsrc & Hd). split; intros Hin.
    + by exists d, p.
    + by exists s, d, p.
  - pose proof (nonneg _ _ _ Hedge) as Hc0.
    destruct (decide (u ∈ todo)) as [Hu|Hu].
    + destruct (IHopen Hu) as (z & dz & pz & Hz & Hsz & Hle). split; intros Hin.
      * destruct (inv_closed _ _ _ _ _ Hinv v Hv Hin) as [[dv pv] Hsv].
        exists dv, pv. split; [done|].
        pose proof (inv_mono _ _ _ _ _ Hinv _ _ _ _ _ _ Hsv Hin Hsz Hz). lia.
      * exists z, dz, pz. split_and!; [done..|lia].
    + destruct (IHclosed Hu) as (du & pu & Hsu & Hle).
      destruct (inv_relaxed _ _ _ _ _ Hinv _ _ _ _ _ Hsu Hu Hedge Hv)
        as (dv & pv & Hsv & Hle').
      split; intros Hin.
      * exists dv, pv. split; [done|lia].
      * exists v, dv, pv. split_and!; [done..|lia].
Qed.

(** Closing the closest open node and relaxing its edges keeps the
    invariant. *)
Lemma dijkstra_inv_step todo seen v d p :
  dijkstra_inv G s t todo seen ->
  nx.closest todo seen = Some (v, (d, p)) ->
  v ≠ t ->
  dijkstra_inv G s t (filter (λ n, n ≠ v) todo)
    (foldl (nx.relax d p (filter (λ n, n ≠ v) todo)) seen (nx.neighbors G v)).
Proof.
  intros Hinv Hclosest Hvt.
  destruct (closest_Some _ _ _ _ _ Hclosest) as (Hv & Hsv & Hmin).
  set (todo' := filter (λ n, n ≠ v) todo).
  assert (Hopen : ∀ u, u ∈ todo' ↔ u ∈ todo ∧ u ≠ v).
  { intros u. unfold todo'. rewrite list_elem_of_filter. tauto. }
  assert (Hnot : ∀ u, u ∉ todo' -> u ∉ todo ∨ u = v).
  { intros u Hu. destruct (decide (u = v)); [by right|left].
    intros Hin. apply Hu, Hopen. done. }
  pose proof (walk_node _ _ _ _ _ (inv_sound _ _ _ _ _ Hinv _ _ _ Hsv)) as Hvnode.
  split.
  - intros u [Hu _]%Hopen. by eapply inv_todo.
  - intros u Hu Hnin. rewrite relax_all_other by done.
    destruct (Hnot u Hnin) as [?| ->]; [by eapply inv_closed|by eexists].
  - apply Hopen. split; [by eapply inv_target|done].
  - intros u du pu Hu.
    destruct (relax_all_origin _ _ _ _ _ _ _ _ Hu) as [Hold|(Hin & c & Hc & -> & ->)].
    + by eapply inv_sound.
    + eapply walk_step; [by eapply inv_sound|done|].
      apply Hopen in Hin as [Hin _]. by eapply inv_todo.
  - destruct (inv_source _ _ _ _ _ Hinv) as (d0 & p0 & Hsrc & Hd0).
    destruct (relax_all_keeps d p todo' (nx.neighbors G v) _ _ _ _ Hsrc)
      as (d1 & p1 & H1 & Hle).
    exists d1, p1. split; [done|lia].
  - intros x dx px u c Hx Hxclosed Hedge Hu.
    rewrite relax_all_other in Hx by done.
    pose proof (nonneg _ _ _ Hedge) as Hc.
    destruct (Hnot x Hxclosed) as [Hxold| ->].
    + destruct (inv_relaxed _ _ _ _ _ Hinv _ _ _ _ _ Hx Hxold Hedge Hu)
        as (du & pu & Hsu & Hle).
      destruct (relax_all_keeps d p todo' (nx.neighbors G v) _ _ _ _ Hsu)
        as (d1 & p1 & H1 & Hle1).
      exists d1, p1. split; [done|lia].
    + rewrite Hsv in Hx. injection Hx as <- <-.
      destruct (decide (u ∈ todo')) as [Hopenu|Hclosedu].
      * by apply relax_all_edge.
      * rewrite relax_all_other by done.
        destruct (Hnot u Hclosedu) as [Huold| ->].
        -- destruct (inv_closed _ _ _ _ _ Hinv u Hu Huold) as [[du pu] Hsu].
           exists du, pu. split; [done|].
           pose proof (inv_mono _ _ _ _ _ Hinv _ _ _ _ _ _ Hsu Huold Hsv Hv). lia.
        -- exists d, p. split; [done|lia].
  - intros x dx px y dy py Hx Hxclosed Hy Hyopen.
    rewrite relax_all_other in Hx by done.
    apply Hopen in Hyopen as [Hyopen Hyv].
    assert (dx <= d) as Hdx.
    { destruct (Hnot x Hxclosed) as [Hxold| ->].
      - by eapply (inv_mono _ _ _ _ _ Hinv x dx px v d p).
      - rewrite Hsv in Hx. injection Hx as <- <-. lia. }
    destruct (relax_all_origin _ _ _ _ _ _ _ _ Hy) as [Hold|(_ & c & Hc & -> & _)].
    + destruct (Hnot x Hxclosed) as [Hxold| ->].
      * by eapply (inv_mono _ _ _ _ _ Hinv x dx px y dy py).
      * rewrite Hsv in Hx. injection Hx as <- <-. by eapply Hmin.
    + pose proof (nonneg _ _ _ Hc). lia.
Qed.

Lemma dijkstra_correct fuel todo seen :
  dijkstra_inv G s t todo seen ->
  (length todo <= fuel)%nat ->
  match nx.dijkstra fuel G t todo seen with
  | Ok p => ∃ d, walk G s p t d ∧ ∀ q c, walk G s q t c -> d <= c
  | Raise e => e = NetworkXNoPath ∧ ∀ q c, ¬ walk G s q t c
  end.
Proof.
  revert todo seen. induction fuel as [|fuel IH]; intros todo seen Hinv Hlen.
  - pose proof (inv_target _ _ _ _ _ Hinv) as Ht.
    destruct todo; [by apply elem_of_nil in Ht|simpl in Hlen; lia].
  - simpl. destruct (nx.closest todo seen) as [[v [d p]]|] eqn:Hclosest.
    + destruct (closest_Some _ _ _ _ _ Hclosest) as (Hv & Hsv & Hmin).
      destruct (decide (v = t)) as [->|Hvt].
      * exists d. split; [by eapply inv_sound|].
        intros q c Hq.
        destruct (lower_bound _ _ _ _ _ Hinv Hq) as [_ Hopen].
        destruct (Hopen Hv) as (z & dz & pz & Hz & Hsz & Hle).
        specialize (Hmin _ _ _ Hz Hsz). lia.
      * apply IH; [by apply dijkstra_inv_step|].
        pose proof (length_filter_lt (λ n, n ≠ v) todo v Hv) as Hlt.
        assert (¬ v ≠ v) as Hvv by (intros ?; done).
        specialize (Hlt Hvv). lia.
    + split; [done|]. intros q c Hq.
      destruct (lower_bound _ _ _ _ _ Hinv Hq) as [_ Hopen].
      destruct (Hopen (inv_target _ _ _ _ _ Hinv)) as (z & dz & pz & Hz & Hsz & _).
      by rewrite (closest_None _ _ _ Hclosest Hz) in Hsz.
Qed.

Lemma dijkstra_inv_init :
  s ∈ nx.nodes G -> t ∈ nx.nodes G ->
  dijkstra_inv G s t (nx.nodes G) {[ s := (0, [s]) ]}.
Proof.
  intros Hs Ht. split.
  - done.
  - intros v Hv Hnv. by destruct Hnv.
  - done.
  - intros v d p [-> [= <- <-]]%lookup_singleton_Some. by apply walk_start.
  - exists 0, [s]. by rewrite lookup_singleton_eq.
  - intros v dv pv u c [-> _]%lookup_singleton_Some Hnv. by destruct Hnv.
  - intros v dv pv u du pu [-> _]%lookup_singleton_Some Hnv. by destruct Hnv.
Qed.

(** What [shortest_path] returns on a graph without negative weights. *)
Lemma shortest_path_spec :
  match nx.shortest_path G s t with
  | Ok p => ∃ d, walk G s p t d ∧ ∀ q c, walk G s q t c -> d <= c
  | Raise e =>
      (e = NodeNotFound ∧ ¬ (s ∈ nx.nodes G ∧ t ∈ nx.nodes G))
      ∨ (e = NetworkXNoPath ∧ s ∈ nx.nodes G ∧ t ∈ nx.nodes G
         ∧ ∀ q c, ¬ walk G s q t c)
  end.
Proof.
  unfold nx.shortest_path.
  destruct (nx.has_node G s) eqn:Hs; [destruct (nx.has_node G t) eqn:Ht|]; simpl.
  - apply has_node_elem in Hs. apply has_node_elem in Ht.
    pose proof (dijkstra_correct (length (nx.nodes G)) _ _
                  (dijkstra_inv_init Hs Ht) (le_n _)) as Hd.
    destruct (nx.dijkstra _ _ _ _ _) as [p|e]; [done|].
    right. by destruct Hd as [-> ?].
  - left. split; [done|]. intros [_ Hin%has_node_elem]. congruence.
  - left. split; [done|]. intros [Hin%has_node_elem _]. congruence.
Qed.

End DijkstraCorrect.

(** Whatever the weights, a returned path is a walk of the graph, and the
    only errors are the two of the specification. *)
Lemma dijkstra_sound (G : nx.Graph Z) (s t : string) fuel todo seen p :
  (∀ v, v ∈ todo -> v ∈ nx.nodes G) ->
  (∀ v d q, seen !! v = Some (d, q) -> walk G s q v d) ->
  nx.dijkstra fuel G t todo seen = Ok p ->
  ∃ d, walk G s p t d.
Proof.
  revert todo seen. induction fuel as [|fuel IH]; intros todo seen Htodo Hseen; simpl; [done|].
  destruct (nx.closest todo seen) as [[v [d q]]|] eqn:Hclosest; [|done].
  destruct (closest_Some _ _ _ _ _ Hclosest) as (Hv & Hsv & _).
  destruct (decide (v = t)) as [->|Hvt].
  - intros [= ->]. exists d. by apply Hseen.
  - apply IH.
    + intros u [_ Hu]%list_elem_of_filter. by apply Htodo.
    + intros u du pu Hu.
      destruct (relax_all_origin _ _ _ _ _ _ _ _ Hu) as [Hold|(Hin & c & Hc & -> & ->)].
      * by apply Hseen.
      * eapply walk_step; [by apply Hseen|done|].
        apply list_elem_of_filter in Hin as [_ Hin]. by apply Htodo.
Qed.

Lemma dijkstra_raises (G : nx.Graph Z) (t : string) fuel todo seen e :
  nx.dijkstra fuel G t todo seen = Raise e -> e = NetworkXNoPath.
Proof.
  revert todo seen. induction fuel as [|fuel IH]; intros todo seen; simpl; [congruence|].
  destruct (nx.closest todo seen) as [[v [d q]]|]; [|congruence].
  destruct (decide (v = t)); [done|apply IH].
Qed.

Lemma shortest_path_sound (G : nx.Graph Z) (s t : string) :
  match nx.shortest_path G s t with
  | Ok p => ∃ d, walk G s p t d
  | Raise e =>
      (e = NodeNotFound ∧ ¬ (s ∈ nx.nodes G ∧ t ∈ nx.nodes G))
      ∨ (e = NetworkXNoPath ∧ s ∈ nx.nodes G ∧ t ∈ nx.nodes G)
  end.
Proof.
  unfold nx.shortest_path.
  destruct (nx.has_node G s) eqn:Hs; [destruct (nx.has_node G t) eqn:Ht|]; simpl.
  - apply has_node_elem in Hs. apply has_node_elem in Ht.
    destruct (nx.dijkstra _ _ _ _ _) as [p|e] eqn:Hd.
    + eapply dijkstra_sound; [| |exact Hd]; [done|].
      intros v d q [-> [= <- <-]]%lookup_singleton_Some. by apply walk_start.
    + right. by rewrite (dijkstra_raises _ _ _ _ _ _ Hd).
  - left. split; [done|]. intros [_ Hin%has_node_elem]. congruence.
  - left. split; [done|]. intros [Hin%has_node_elem _]. congruence.
Qed.

(** The path from a node to itself is that node alone. *)
Lemma shortest_path_self (G : nx.Graph Z) (s : string) :
  s ∈ nx.nodes G -> nx.shortest_path G s s = Ok [s].
Proof.
  intros Hs. unfold nx.shortest_path.
  rewrite (proj2 (has_node_elem G s) Hs). simpl.
  destruct (nx.nodes G) as [|n ns] eqn:Hn; [by apply elem_of_nil in Hs|].
  cbn [length nx.dijkstra]. rewrite closest_singleton by done.
  by rewrite decide_True.
Qed.

(** ** networkx graphs: dictionaries, nodes and adjacency *)

Section Assoc.
Context {B : Type}.
Implicit Types (l : list (string * B)).

Lemma assoc_Some_elem k l b : nx.assoc k l = Some b -> (k, b) ∈ l.
Proof.
  induction l as [|[k' b'] l IH]; simpl; [done|].
  destruct (decide (k = k')) as [->|Hne].
  - intros [= ->]. left.
  - intros Hk. right. by apply IH.
Qed.

Lemma assoc_is_Some k l : is_Some (nx.assoc k l) ↔ k ∈ l.*1.
Proof.
  induction l as [|[k' b'] l IH]; simpl.
  - split; [intros [? ?]; done|intros ?%elem_of_nil; done].
  - rewrite elem_of_cons. destruct (decide (k = k')) as [->|Hne].
    + split; [by left|by eexists].
    + rewrite IH. split; [by right|intros [?|?]; done].
Qed.

Lemma assoc_app_singleton k l n b :
  nx.assoc k (l ++ [(n, b)]) =
    match nx.assoc k l with
    | Some x => Some x
    | None => if decide (k = n) then Some b else None
    end.
Proof.
  induction l as [|[k' b'] l IH]; simpl; [done|].
  by destruct (decide (k = k')).
Qed.

Lemma assoc_alter_lookup (f : B -> B) k k' l :
  nx.assoc k' (nx.assoc_alter f k l) =
    if decide (k' = k) then f <$> nx.assoc k' l else nx.assoc k' l.
Proof.
  induction l as [|[k0 b0] l IH]; simpl; [by destruct (decide (k' = k))|].
  destruct (decide (k = k0)) as [->|Hne]; simpl;
    destruct (decide (k' = k0)) as [->|Hne']; simpl; rewrite ?IH;
    repeat case_decide; try done; congruence.
Qed.

Lemma assoc_alter_fst (f : B -> B) k l : (nx.assoc_alter f k l).*1 = l.*1.
Proof.
  induction l as [|[k0 b0] l IH]; csimpl; [done|].
  destruct (decide (k = k0)); csimpl; by rewrite ?IH.
Qed.

Lemma assoc_set_elem k b l x c :
  (x, c) ∈ nx.assoc_set k b l -> (x, c) ∈ l ∨ (x = k ∧ c = b).
Proof.
  induction l as [|[k0 b0] l IH]; simpl.
  - intros [= -> ->]%list_elem_of_singleton. by right.
  - destruct (decide (k = k0)) as [->|Hne]; intros [Heq|Hin]%elem_of_cons.
    + injection Heq as -> ->. by right.
    + left. by right.
    + left. rewrite Heq. left.
    + destruct (IH Hin) as [?|?]; [left; by right|by right].
Qed.

Lemma assoc_set_new k b l : (k, b) ∈ nx.assoc_set k b l.
Proof.
  induction l as [|[k0 b0] l IH]; simpl; [left|].
  destruct (decide (k = k0)); [left|by right].
Qed.

Lemma assoc_set_keeps k b l x c :
  (x, c) ∈ l -> ∃ c', (x, c') ∈ nx.assoc_set k b l.
Proof.
  induction l as [|[k0 b0] l IH]; simpl; [by intros ?%elem_of_nil|].
  intros [[= -> ->]|Hin]%elem_of_cons; destruct (decide (k = k0)) as [->|Hne].
  - eexists. left.
  - eexists. left.
  - exists c. by right.
  - destruct (IH Hin) as [c' ?]. exists c'. by right.
Qed.

End Assoc.

Section Adjacency.
Context {A : Type}.
Implicit Types (G : nx.Graph A).

Lemma nodes_add_node G n x :
  x ∈ nx.nodes (nx.add_node G n) ↔ x ∈ nx.nodes G ∨ x = n.
Proof.
  unfold nx.add_node. destruct (nx.has_node G n) eqn:Hn.
  - apply has_node_elem in Hn. split; [by left|by intros [?| ->]].
  - unfold nx.nodes. rewrite fmap_app, elem_of_app. simpl.
    by rewrite list_elem_of_singleton.
Qed.

Lemma neighbors_add_node G n y :
  nx.neighbors (nx.add_node G n) y = nx.neighbors G y.
Proof.
  unfold nx.add_node, nx.neighbors. destruct (nx.has_node G n); [done|].
  rewrite assoc_app_singleton. destruct (nx.assoc y G); [done|].
  by destruct (decide (y = n)).
Qed.

Lemma neighbors_alter_set G k v a y :
  nx.neighbors (nx.assoc_alter (nx.assoc_set v a) k G) y =
    if decide (y = k) then
      match nx.assoc y G with
      | Some nbrs => nx.assoc_set v a nbrs
      | None => []
      end
    else nx.neighbors G y.
Proof.
  unfold nx.neighbors. rewrite assoc_alter_lookup.
  destruct (decide (y = k)); [|done]. by destruct (nx.assoc y G).
Qed.

Lemma neighbors_alter_set_elem G k v a y x c :
  (x, c) ∈ nx.neighbors (nx.assoc_alter (nx.assoc_set v a) k G) y ->
  (x, c) ∈ nx.neighbors G y ∨ (y = k ∧ x = v ∧ c = a).
Proof.
  rewrite neighbors_alter_set. destruct (decide (y = k)) as [->|Hne]; [|by left].
  unfold nx.neighbors. destruct (nx.assoc k G) as [nbrs|]; simpl.
  - intros [?|[-> ->]]%assoc_set_elem; [by left|by right].
  - by intros ?%elem_of_nil.
Qed.

Lemma neighbors_alter_set_new G k v a :
  k ∈ nx.nodes G ->
  (v, a) ∈ nx.neighbors (nx.assoc_alter (nx.assoc_set v a) k G) k.
Proof.
  intros [nbrs Hk]%assoc_is_Some. rewrite neighbors_alter_set, decide_True by done.
  rewrite Hk. apply assoc_set_new.
Qed.

Lemma neighbors_alter_set_keeps G k v a y x c :
  (x, c) ∈ nx.neighbors G y ->
  ∃ c', (x, c') ∈ nx.neighbors (nx.assoc_alter (nx.assoc_set v a) k G) y.
Proof.
  rewrite neighbors_alter_set. destruct (decide (y = k)) as [->|Hne]; [|by eexists].
  unfold nx.neighbors. destruct (nx.assoc k G) as [nbrs|]; simpl.
  - apply assoc_set_keeps.
  - by intros ?%elem_of_nil.
Qed.

(** *** [add_edge] *)

Lemma nodes_add_edge G u v a x :
  x ∈ nx.nodes (nx.add_edge G u v a) ↔ x ∈ nx.nodes G ∨ x = u ∨ x = v.
Proof.
  unfold nx.add_edge, nx.nodes. rewrite !assoc_alter_fst.
  fold (nx.nodes (nx.add_node (nx.add_node G u) v)).
  rewrite !nodes_add_node. tauto.
Qed.

Lemma neighbors_add_edge_elem G u v a y x c :
  (x, c) ∈ nx.neighbors (nx.add_edge G u v a) y ->
  (x, c) ∈ nx.neighbors G y ∨ (y = u ∧ x = v ∧ c = a) ∨ (y = v ∧ x = u ∧ c = a).
Proof.
  unfold nx.add_edge.
  intros [[Hin|?]%neighbors_alter_set_elem|?]%neighbors_alter_set_elem; [|tauto..].
  rewrite !neighbors_add_node in Hin. by left.
Qed.

Lemma neighbors_add_edge_new G u v a :
  (∃ c, (v, c) ∈ nx.neighbors (nx.add_edge G u v a) u)
  ∧ (u, a) ∈ nx.neighbors (nx.add_edge G u v a) v.
Proof.
  unfold nx.add_edge. split.
  - eapply neighbors_alter_set_keeps, neighbors_alter_set_new.
    apply nodes_add_node. left. apply nodes_add_node. by right.
  - apply neighbors_alter_set_new. unfold nx.nodes. rewrite assoc_alter_fst.
    apply nodes_add_node. by right.
Qed.

Lemma neighbors_add_edge_keeps G u v a y x c :
  (x, c) ∈ nx.neighbors G y ->
  ∃ c', (x, c') ∈ nx.neighbors (nx.add_edge G u v a) y.
Proof.
  intros Hin. unfold nx.add_edge.
  rewrite <- (neighbors_add_node G u), <- (neighbors_add_node _ v) in Hin.
  destruct (neighbors_alter_set_keeps _ u v a _ _ _ Hin) as [c1 H1].
  by eapply neighbors_alter_set_keeps.
Qed.

End Adjacency.

(** ** The weighted view of the topology *)

Section WeightedView.
Variable costs : gmap (string * string) Z.

Lemma weighted_view_snoc E e :
  weighted_view costs (E ++ [e]) =
    nx.add_edge (weighted_view costs E) e.1 e.2 (default 0 (costs !! e)).
Proof. unfold weighted_view. by rewrite foldl_app. Qed.

Lemma weighted_view_nodes E x :
  x ∈ nx.nodes (weighted_view costs E) ↔ ∃ e, e ∈ E ∧ (x = e.1 ∨ x = e.2).
Proof.
  induction E as [|e E IH] using rev_ind.
  - split; [by intros ?%elem_of_nil|by intros (? & ?%elem_of_nil & _)].
  - rewrite weighted_view_snoc, nodes_add_edge, IH. split.
    + intros [(e' & He' & Hx)|Hx].
      * exists e'. split; [apply elem_of_app; by left|done].
      * exists e. split; [apply elem_of_app; right; left|done].
    + intros (e' & [He'| ->%list_elem_of_singleton]%elem_of_app & Hx).
      * left. by exists e'.
      * by right.
Qed.

Lemma weighted_view_neighbors E y x c :
  (x, c) ∈ nx.neighbors (weighted_view costs E) y ->
  ∃ e, e ∈ E ∧ (e = (y, x) ∨ e = (x, y)) ∧ c = default 0 (costs !! e).
Proof.
  induction E as [|e E IH] using rev_ind.
  - by intros ?%elem_of_nil.
  - rewrite weighted_view_snoc.
    intros [Hin|[(-> & -> & ->)|(-> & -> & ->)]]%neighbors_add_edge_elem.
    + destruct (IH Hin) as (e' & He' & Hor & Hc).
      exists e'. split; [apply elem_of_app; by left|done].
    + exists e. split; [apply elem_of_app; right; left|].
      split; [left; by destruct e|done].
    + exists e. split; [apply elem_of_app; right; left|].
      split; [right; by destruct e|done].
Qed.

Lemma weighted_view_edge E e :
  e ∈ E ->
  (∃ c, (e.2, c) ∈ nx.neighbors (weighted_view costs E) e.1)
  ∧ (∃ c, (e.1, c) ∈ nx.neighbors (weighted_view costs E) e.2).
Proof.
  induction E as [|e' E IH] using rev_ind; [by intros ?%elem_of_nil|].
  rewrite weighted_view_snoc.
  intros [He| ->%list_elem_of_singleton]%elem_of_app.
  - destruct (IH He) as [[c1 H1] [c2 H2]].
    split; by eapply neighbors_add_edge_keeps.
  - destruct (neighbors_add_edge_new (weighted_view costs E) e'.1 e'.2
                (default 0 (costs !! e'))) as [? ?].
    split; [done|by eexists].
Qed.

End WeightedView.

(** ** Paths of the topology and walks of the weighted view *)

Lemma hops_of_snoc (p : list string) (u v : string) :
  last p = Some u -> hops_of (p ++ [v]) = hops_of p ++ [(u, v)].
Proof.
  induction p as [|x [|y p] IH]; [done| |].
  - intros [= ->]. done.
  - intros Hlast. simpl in *. f_equal. by apply IH.
Qed.

Lemma head_snoc (p : list string) (u v : string) :
  last p = Some u -> head (p ++ [v]) = head p.
Proof. by destruct p. Qed.

Lemma walk_ends (G : nx.Graph Z) s p t d :
  walk G s p t d -> head p = Some s ∧ last p = Some t.
Proof.
  induction 1 as [|p u v c d Hw [Hh Hl] _ _]; [done|].
  split; [by rewrite (head_snoc _ u)|apply last_snoc].
Qed.

Lemma path_cost_snoc (w : World) (p : list string) (u v : string) :
  last p = Some u ->
  path_cost w (p ++ [v]) = path_cost w p + default 0 (ospf_costs (self w) !! (u, v)).
Proof.
  intros Hl. unfold path_cost. rewrite (hops_of_snoc _ u) by done.
  rewrite foldr_app. simpl. generalize (hops_of p). intros hs.
  induction hs as [|h hs IH]; simpl; [lia|]. rewrite IH. lia.
Qed.

Section Bridge.
Variable w : World.

Lemma node_linked (x : string) :
  x ∈ nx.nodes (ospf_graph_of w) ↔ linked w x.
Proof.
  unfold ospf_graph_of, linked, topology_edge. rewrite weighted_view_nodes. split.
  - intros ([a b] & He & [->| ->]); simpl; [exists b; by left|exists a; by right].
  - intros (v & [He|He]); eexists; (split; [exact He|]); simpl; auto.
Qed.

Lemma neighbor_topology_edge (u v : string) (c : Z) :
  (v, c) ∈ nx.neighbors (ospf_graph_of w) u -> topology_edge w u v.
Proof.
  intros (e & He & [->| ->] & _)%weighted_view_neighbors; [by left|by right].
Qed.

Lemma topology_edge_neighbor (u v : string) :
  topology_edge w u v -> ∃ c, (v, c) ∈ nx.neighbors (ospf_graph_of w) u.
Proof.
  intros [He|He]; apply (weighted_view_edge (ospf_costs (self w))) in He as [H1 H2]; done.
Qed.

Lemma topology_edge_linked (u v : string) :
  topology_edge w u v -> linked w u ∧ linked w v.
Proof.
  intros He. split; [by exists v|exists u]. destruct He; [by right|by left].
Qed.

(** A walk of the weighted view is a path of the topology. *)
Lemma walk_is_path s p t d :
  walk (ospf_graph_of w) s p t d -> is_path w s t p.
Proof.
  intros Hw. pose proof (walk_ends _ _ _ _ _ Hw) as [Hh Hl].
  split_and!; [done|done| |].
  - induction Hw as [Hs|p u v c d Hw IH Hedge Hv]; [by apply node_linked|].
    apply IH; by apply (walk_ends _ _ _ _ _ Hw).
  - clear Hh Hl. induction Hw as [Hs|p u v c d Hw IH Hedge Hv]; [by constructor|].
    rewrite (hops_of_snoc _ u) by apply (walk_ends _ _ _ _ _ Hw).
    apply Forall_app. split; [done|]. constructor; [|by constructor].
    by eapply neighbor_topology_edge.
Qed.

(** A path of the topology is a walk of the weighted view. *)
Lemma path_is_walk s t p :
  is_path w s t p -> ∃ d, walk (ospf_graph_of w) s p t d.
Proof.
  revert t. induction p as [|v p IH] using rev_ind; intros t (Hh & Hl & Hs & Hhops);
    [done|].
  rewrite last_snoc in Hl. injection Hl as ->.
  destruct (last p) as [u|] eqn:Hlast.
  - rewrite (hops_of_snoc _ u) in Hhops by done.
    apply Forall_app in Hhops as [Hhops Hlast_hop].
    rewrite Forall_singleton in Hlast_hop. simpl in Hlast_hop.
    rewrite (head_snoc _ u) in Hh by done.
    destruct (IH u) as [d Hw]; [by split_and!|].
    destruct (topology_edge_neighbor _ _ Hlast_hop) as [c Hc].
    exists (d + c). eapply walk_step; [done..|].
    apply node_linked. by apply (topology_edge_linked u t).
  - apply last_None in Hlast as ->. simpl in Hh. injection Hh as ->.
    exists 0. apply walk_start. by apply node_linked.
Qed.

Hypothesis Hcosts : costs_ok w.

Lemma costs_ok_edge e :
  e ∈ nx.edges (graph (self w)) ->
  ∃ c, ospf_costs (self w) !! e = Some c
       ∧ ospf_costs (self w) !! (e.2, e.1) = Some c ∧ 0 <= c.
Proof. intros He. unfold costs_ok in Hcosts. rewrite Forall_forall in Hcosts. auto. Qed.

Lemma costs_ok_present : costs_present w.
Proof.
  apply Forall_forall. intros e He.
  destruct (costs_ok_edge e He) as (c & -> & _). by eexists.
Qed.

Lemma neighbor_cost (u v : string) (c : Z) :
  (v, c) ∈ nx.neighbors (ospf_graph_of w) u ->
  c = default 0 (ospf_costs (self w) !! (u, v)) ∧ 0 <= c.
Proof.
  intros (e & He & Hor & ->)%weighted_view_neighbors.
  destruct (costs_ok_edge e He) as (c & Hc & Hc' & Hnn).
  destruct Hor as [->| ->]; simpl in *; rewrite ?Hc, ?Hc'; simpl; (split; [done|lia]).
Qed.

Lemma ospf_graph_nonneg : nonneg_weights (ospf_graph_of w).
Proof. intros u v c Hin. by apply neighbor_cost in Hin as [_ ?]. Qed.

(** The weight of a walk is the cost of the path in the snapshot. *)
Lemma walk_path_cost s p t d :
  walk (ospf_graph_of w) s p t d -> path_cost w p = d.
Proof.
  induction 1 as [Hs|p u v c d Hw IH Hedge Hv]; [done|].
  rewrite (path_cost_snoc _ _ u) by apply (walk_ends _ _ _ _ _ Hw).
  apply neighbor_cost in Hedge as [<- _]. by rewrite IH.
Qed.

End Bridge.

(** ** [get_ospf_path] *)

Lemma build_ospf_graph_world (w : World) : (build_ospf_graph w).2 = w.
Proof.
  unfold build_ospf_graph, bind, read; simpl.
  destruct (for_acc _ _ _ w) as [r w'] eqn:Hrun. simpl.
  eapply (for_acc_inv (λ w', w' = w)); [|reflexivity|exact Hrun].
  clear. intros acc e w1 r w2 -> Hbody.
  unfold bind, read, getitem, ret, raise in Hbody. simpl in Hbody.
  destruct (ospf_costs (self w) !! e); by injection Hbody as _ <-.
Qed.

Lemma build_ospf_graph_ok (w : World) :
  costs_present w -> build_ospf_graph w = (Ok (ospf_graph_of w), w).
Proof.
  unfold build_ospf_graph, ospf_graph_of, weighted_view, costs_present.
  unfold bind at 1. unfold read at 1. cbn beta iota.
  generalize (nx.edges (graph (self w))) (@nx.empty Z). intros E.
  induction E as [|e E IH]; intros acc HE; [done|].
  apply Forall_cons in HE as [[c Hc] HE].
  cbn [for_acc foldl]. unfold bind, read, getitem, ret. cbn beta iota.
  rewrite Hc. cbn beta iota. rewrite <- (IH _ HE). reflexivity.
Qed.

Lemma get_ospf_path_world (source destination : string) (w : World) :
  (get_ospf_path source destination w).2 = w.
Proof.
  unfold get_ospf_path, try_except, bind, lift, raise.
  pose proof (build_ospf_graph_world w) as Hb.
  destruct (build_ospf_graph w) as [[G|e] w']; simpl in Hb; subst w'.
  - destruct (nx.shortest_path G source destination) as [p|[]]; done.
  - by destruct e.
Qed.

Lemma get_ospf_path_unfold (source destination : string) (w : World) :
  costs_present w ->
  get_ospf_path source destination w =
    (match nx.shortest_path (ospf_graph_of w) source destination with
     | Ok p => Ok p
     | Raise NetworkXNoPath =>
         Raise (ValueError ("No OSPF path found between " +:+ source
                              +:+ " and " +:+ destination))
     | Raise e => Raise e
     end, w).
Proof.
  intros Hc. unfold get_ospf_path, try_except, bind, lift, raise.
  rewrite (build_ospf_graph_ok w Hc).
  by destruct (nx.shortest_path _ source destination) as [p|[]].
Qed.

(** Connected nodes resolve, to a path of the topology. *)
Lemma get_ospf_path_resolves (w : World) (source destination : string) (q0 : list string) :
  costs_ok w ->
  is_path w source destination q0 ->
  ∃ p, get_ospf_path source destination w = (Ok p, w)
       ∧ is_path w source destination p.
Proof.
  intros Hc Hq0.
  rewrite get_ospf_path_unfold by by apply costs_ok_present.
  pose proof (shortest_path_spec (ospf_graph_of w) source destination
                (ospf_graph_nonneg w Hc)) as Hsp.
  destruct (path_is_walk w _ _ _ Hq0) as [d0 Hw0].
  destruct (nx.shortest_path _ source destination) as [p|e].
  - destruct Hsp as (d & Hw & _). exists p. split; [done|by eapply walk_is_path].
  - exfalso. destruct Hsp as [[_ Hnot]|(_ & _ & _ & Hno)].
    + apply Hnot. split; [|by eapply walk_node].
      apply node_linked. by destruct Hq0 as (_ & _ & ? & _).
    + by eapply Hno.
Qed.

(** C2.  Whenever every edge has a non-negative cost, equal in both
    directions, and [source] and [destination] are connected,
    [get_ospf_path] returns a path along edges of the topology whose total
    cost in the snapshot is at most that of every path between them. *)
Theorem resolve_minimal (w : World) (source destination : string) (q0 : list string) :
  costs_ok w ->
  is_path w source destination q0 ->
  ∃ p, get_ospf_path source destination w = (Ok p, w)
       ∧ is_path w source destination p
       ∧ ∀ q, is_path w source destination q -> path_cost w p <= path_cost w q.
Proof.
  intros Hc Hq0.
  destruct (get_ospf_path_resolves w _ _ _ Hc Hq0) as (p & Hp & Hpath).
  exists p. split_and!; [done..|].
  rewrite get_ospf_path_unfold in Hp by by apply costs_ok_present.
  pose proof (shortest_path_spec (ospf_graph_of w) source destination
                (ospf_graph_nonneg w Hc)) as Hsp.
  destruct (nx.shortest_path _ source destination) as [p'|e]; [|by destruct e].
  injection Hp as ->. destruct Hsp as (d & Hw & Hmin).
  intros q Hq. destruct (path_is_walk w _ _ _ Hq) as [c Hwq].
  rewrite (walk_path_cost w Hc _ _ _ _ Hw), (walk_path_cost w Hc _ _ _ _ Hwq).
  by eapply Hmin.
Qed.

Lemma demo_world_costs_ok : costs_ok demo_world.
Proof.
  apply Forall_forall. intros e He. vm_compute in He.
  repeat (apply elem_of_cons in He as [->|He];
          [eexists; split_and!; [vm_compute; reflexivity..|lia]|]).
  by apply elem_of_nil in He.
Defined.

Lemma demo_path_R1_N3 : is_path demo_world "R1" "N3" ["R1"; "R2"; "R3"; "N3"].
Proof.
  split_and!; [reflexivity|reflexivity| |].
  - exists "R2". left. vm_compute. left.
  - repeat constructor; simpl; left; vm_compute; repeat constructor.
Defined.

Lemma resolve_minimal_witness :
  ∃ p, get_ospf_path "R1" "N3" demo_world = (Ok p, demo_world)
       ∧ is_path demo_world "R1" "N3" p
       ∧ ∀ q, is_path demo_world "R1" "N3" q ->
              path_cost demo_world p <= path_cost demo_world q.
Proof.
  exact (resolve_minimal demo_world "R1" "N3" ["R1"; "R2"; "R3"; "N3"]
           demo_world_costs_ok demo_path_R1_N3).
Defined.

(** The path returned for [R1] to [N3] in the demonstration snapshot, and its
    cost next to the cost of the other simple path. *)
Example resolve_R1_N3 :
  get_ospf_path "R1" "N3" demo_world = (Ok ["R1"; "R4"; "R3"; "N3"], demo_world)
  ∧ path_cost demo_world ["R1"; "R4"; "R3"; "N3"] = 77
  ∧ path_cost demo_world ["R1"; "R2"; "R3"; "N3"] = 105.
Proof. split_and!; vm_compute; reflexivity. Qed.

(** ** The probes *)

Lemma float_ltb_leb (x y : float) : (x <? y)%float = true -> (x <=? y)%float = true.
Proof.
  rewrite FloatAxioms.ltb_spec, FloatAxioms.leb_spec. unfold SFltb, SFleb.
  by destruct (SFcompare _ _) as [[]|].
Qed.

Lemma max0_ok (rtt : float) : sample_ok (Some (max0 rtt)).
Proof.
  unfold max0. destruct (0 <? rtt)%float eqn:Hpos; simpl; [|lia].
  by apply float_ltb_leb.
Qed.

Lemma length_hops_of (p : list string) : S (length (hops_of p)) = length p ∨ p = [].
Proof.
  induction p as [|u [|v p] IH]; [by right|by left|left].
  destruct IH as [IH|?]; [|done]. simpl in *. by rewrite IH.
Qed.

Section Probes.
Context `{Runtime}.

(** *** Unknown nodes *)

Lemma ping_unknown source destination count w :
  nodes (self w) !! source = None ∨ nodes (self w) !! destination = None ->
  ping source destination count w
  = (Raise (ValueError "Source or destination node not found"), w).
Proof.
  intros Hn. unfold ping, bind, read. cbn beta iota zeta.
  destruct Hn as [-> | ->]; [done|].
  rewrite andb_comm. done.
Qed.

Lemma traceroute_unknown source destination w :
  nodes (self w) !! source = None ∨ nodes (self w) !! destination = None ->
  traceroute source destination w
  = (Raise (ValueError "Source or destination node not found"), w).
Proof.
  intros Hn. unfold traceroute, bind, read. cbn beta iota zeta.
  destruct Hn as [-> | ->]; [done|].
  rewrite andb_comm. done.
Qed.

(** *** [ping] *)

(** An echo always appends exactly one sample, a timeout or a measure that
    is not negative. *)
Lemma echo_appends path rtts w :
  ∃ sample w', echo path rtts w = (Ok (rtts ++ [sample]), w') ∧ sample_ok sample.
Proof.
  unfold echo, try_except.
  destruct (bind random_random _ w) as [[r|e] w1] eqn:Hrun.
  - unfold bind at 1, random_random at 1 in Hrun. cbn beta iota in Hrun.
    unfold bind at 1 in Hrun.
    destruct (_ <? 0.01)%float; [discriminate Hrun|].
    unfold ret at 1 in Hrun. cbn beta iota in Hrun.
    unfold bind at 1 in Hrun.
    destruct (total_latency_of path _) as [[total|e] w2]; [|discriminate Hrun].
    unfold bind, random_uniform, random_random, asyncio_sleep, ret in Hrun.
    cbn beta iota in Hrun. injection Hrun as <- <-.
    eexists _, _. split; [reflexivity|apply max0_ok].
  - exists None. exists w1. split; [|done]. by destruct e.
Qed.

Lemma ping_loop path n rtts w :
  ∃ more w',
    for_acc (replicate n tt) rtts (λ rtts _, echo path rtts) w = (Ok (rtts ++ more), w')
    ∧ length more = n ∧ Forall sample_ok more.
Proof.
  revert rtts w. induction n as [|n IH]; intros rtts w; simpl.
  - exists [], w. by rewrite app_nil_r.
  - unfold bind. destruct (echo_appends path rtts w) as (sample & w1 & -> & Hok).
    destruct (IH (rtts ++ [sample]) w1) as (more & w' & -> & Hlen & Hall).
    exists (sample :: more), w'. rewrite <- app_assoc. simpl.
    split_and!; [done|by rewrite Hlen|by constructor].
Qed.

Lemma ping_resolved source destination count path w :
  is_Some (nodes (self w) !! source) ->
  is_Some (nodes (self w) !! destination) ->
  get_ospf_path source destination w = (Ok path, w) ->
  ∃ rtts w',
    ping source destination count w = (Ok (rtts, path), w')
    ∧ length rtts = Z.to_nat (default 4 count)
    ∧ Forall sample_ok rtts.
Proof.
  intros Hs Hd Hpath. unfold ping, bind, read. cbn beta iota zeta.
  rewrite !bool_decide_eq_true_2 by done. cbn [andb].
  rewrite Hpath.
  destruct (ping_loop path (Z.to_nat (default 4 count)) [] w)
    as (rtts & w' & -> & Hlen & Hall).
  by exists rtts, w'.
Qed.

Lemma ping_unresolved source destination count e w :
  is_Some (nodes (self w) !! source) ->
  is_Some (nodes (self w) !! destination) ->
  get_ospf_path source destination w = (Raise e, w) ->
  ping source destination count w = (Raise e, w).
Proof.
  intros Hs Hd Hpath. unfold ping, bind, read. cbn beta iota zeta.
  rewrite !bool_decide_eq_true_2 by done. cbn [andb].
  by rewrite Hpath.
Qed.

(** *** [traceroute] *)

Lemma traceroute_loop hs acc w :
  keeps_latencies ->
  Forall (λ h, is_Some (latencies (self w) !! h)) hs ->
  ∃ recs,
    for_acc hs acc (λ hops hop,
      let* table := read latencies in
      let* latency := getitem table hop in
      asyncio_sleep 0.1 ;;
      ret (hops ++ [(hop.1, Float latency)])) w
    = (Ok (acc ++ recs), Nat.iter (length hs) other_tasks w)
    ∧ length recs = length hs
    ∧ ∀ i u v, hs !! i = Some (u, v) ->
        ∃ l, latencies (self (Nat.iter i other_tasks w)) !! (u, v) = Some l
             ∧ recs !! i = Some (u, Float l).
Proof.
  intros Hkeep. revert acc w. induction hs as [|h hs IH]; intros acc w Hcov.
  - exists []. simpl. rewrite app_nil_r. split_and!; [done..|]. by intros [|i].
  - apply Forall_cons in Hcov as [[l Hl] Hcov].
    destruct (IH (acc ++ [(h.1, Float l)]) (other_tasks w)) as (recs & Hrun & Hlen & Hrecs).
    { eapply Forall_impl; [exact Hcov|]. intros k. apply Hkeep. }
    exists ((h.1, Float l) :: recs). split_and!.
    + cbn [for_acc]. unfold bind at 1. unfold bind at 1, read at 1. cbn beta iota.
      unfold bind at 1, getitem at 1. rewrite Hl. unfold ret at 1. cbn beta iota.
      unfold bind at 1, asyncio_sleep at 1, ret at 1. cbn beta iota.
      rewrite Hrun. rewrite <- app_assoc. cbn [length]. by rewrite Nat.iter_succ_r.
    + simpl. by rewrite Hlen.
    + intros [|i] u v Hi; simpl in Hi.
      * injection Hi as ->. exists l. by split.
      * destruct (Hrecs i u v Hi) as (l' & Hl' & Hr').
        exists l'. rewrite Nat.iter_succ_r. by split.
Qed.

Lemma traceroute_resolved source destination path w :
  keeps_latencies ->
  is_Some (nodes (self w) !! source) ->
  is_Some (nodes (self w) !! destination) ->
  get_ospf_path source destination w = (Ok path, w) ->
  Forall (λ h, is_Some (latencies (self w) !! h)) (hops_of path) ->
  ∃ recs,
    traceroute source destination w
    = (Ok (recs ++ [(destination, Int 0)], path),
       Nat.iter (length (hops_of path)) other_tasks w)
    ∧ length recs = length (hops_of path)
    ∧ ∀ i u v, hops_of path !! i = Some (u, v) ->
        ∃ l, latencies (self (Nat.iter i other_tasks w)) !! (u, v) = Some l
             ∧ recs !! i = Some (u, Float l).
Proof.
  intros Hkeep Hs Hd Hpath Hcov.
  destruct (traceroute_loop (hops_of path) [] w Hkeep Hcov) as (recs & Hrun & Hlen & Hrecs).
  exists recs. split_and!; [|done..].
  unfold traceroute. unfold bind at 1, read at 1. cbn beta iota.
  rewrite !bool_decide_eq_true_2 by done. cbn [andb].
  unfold try_except. unfold bind at 1. rewrite Hpath.
  unfold bind at 1. rewrite Hrun. reflexivity.
Qed.

Lemma traceroute_unresolved source destination e w :
  is_Some (nodes (self w) !! source) ->
  is_Some (nodes (self w) !! destination) ->
  get_ospf_path source destination w = (Raise e, w) ->
  traceroute source destination w = (Ok ([], []), w).
Proof.
  intros Hs Hd Hpath.
  unfold traceroute. unfold bind at 1, read at 1. cbn beta iota.
  rewrite !bool_decide_eq_true_2 by done. cbn [andb].
  unfold try_except. unfold bind at 1. by rewrite Hpath.
Qed.

End Probes.

(** ** The reference topology *)

Lemma reference_edges :
  nx.edges reference_graph =
    [("R1", "R2"); ("R1", "R4"); ("R1", "N1"); ("R2", "R3"); ("R2", "N2");
     ("R3", "R4"); ("R3", "N3")].
Proof. vm_compute. reflexivity. Qed.

Lemma reference_nodes_known (X : string) :
  is_Some (reference_nodes !! X) ↔ X ∈ ["R1"; "R2"; "R3"; "R4"; "N1"; "N2"; "N3"].
Proof.
  split.
  - intros HX. destruct (decide (X ∈ ["R1"; "R2"; "R3"; "R4"; "N1"; "N2"; "N3"]))
      as [|Hnot]; [done|exfalso].
    unfold reference_nodes in HX.
    rewrite (proj1 (not_elem_of_list_to_map _ X)) in HX; [by destruct HX|].
    exact Hnot.
  - intros HX.
    repeat (apply elem_of_cons in HX as [->|HX]; [vm_compute; by eexists|]).
    by apply elem_of_nil in HX.
Qed.

Section Reference.
Variable w : World.
Hypothesis Hwf : well_formed w.

Lemma well_formed_costs_present : costs_present w.
Proof.
  destruct Hwf as (Hg & _ & _ & _ & Hcov).
  unfold costs_present. rewrite Hg. apply Forall_forall. intros e He.
  by destruct (Hcov e He).
Qed.

Lemma well_formed_latencies_present : latencies_present w.
Proof.
  destruct Hwf as (Hg & _ & Hl & _ & Hcov).
  intros u v [He|He]; rewrite Hg in He.
  - by destruct (Hcov _ He).
  - rewrite (Hl u v). by destruct (Hcov _ He).
Qed.

Lemma well_formed_linked (X : string) :
  linked w X ↔ is_Some (nodes (self w) !! X).
Proof.
  destruct Hwf as (Hg & Hn & _).
  unfold linked, topology_edge. rewrite Hg, Hn, reference_edges, reference_nodes_known.
  split.
  - intros (v & [He|He]);
      repeat (apply elem_of_cons in He as [[= -> ->]|He];
              [rewrite !elem_of_cons; tauto|]);
      by apply elem_of_nil in He.
  - intros HX.
    repeat (apply elem_of_cons in HX as [->|HX];
            [first [exists "R1"; rewrite !elem_of_cons; tauto
                   |exists "R2"; rewrite !elem_of_cons; tauto
                   |exists "R3"; rewrite !elem_of_cons; tauto]|]).
    by apply elem_of_nil in HX.
Qed.

End Reference.

Section ProbeTheorems.
Context `{Runtime}.

(** C9.  For every node [X] of the simulator, in every reachable world,
    [get_ospf_path X X] returns the single-element path [[X]]. *)
Theorem resolve_self (w : World) (X : string) :
  reachable w ->
  is_Some (nodes (self w) !! X) ->
  get_ospf_path X X w = (Ok [X], w).
Proof.
  intros Hw%reachable_well_formed HX.
  rewrite get_ospf_path_unfold by by apply well_formed_costs_present.
  rewrite shortest_path_self; [done|].
  apply node_linked. by apply well_formed_linked.
Qed.

(** C5.  In every reachable world, a source or destination that is not a
    node makes [get_ospf_path] fail with networkx's node-not-found error
    and [ping] and [traceroute] fail with the "node not found" ValueError;
    the world (both tables and the random generator) is unchanged. *)
Theorem unknown_node_rejected (w : World) (source destination : string)
    (count : option Z) :
  reachable w ->
  nodes (self w) !! source = None ∨ nodes (self w) !! destination = None ->
  get_ospf_path source destination w = (Raise NodeNotFound, w)
  ∧ ping source destination count w
    = (Raise (ValueError "Source or destination node not found"), w)
  ∧ traceroute source destination w
    = (Raise (ValueError "Source or destination node not found"), w).
Proof.
  intros Hw%reachable_well_formed Hn.
  split; [|split; [by apply ping_unknown|by apply traceroute_unknown]].
  rewrite get_ospf_path_unfold by by apply well_formed_costs_present.
  assert (nx.has_node (ospf_graph_of w) source
          && nx.has_node (ospf_graph_of w) destination = false) as Hnodes.
  { apply andb_false_iff.
    destruct Hn as [Hn|Hn]; [left|right]; apply not_true_is_false;
      intros Hin%has_node_elem%node_linked%(well_formed_linked w Hw);
      rewrite Hn in Hin; by destruct Hin. }
  unfold nx.shortest_path. by rewrite Hnodes.
Qed.

(** C6.  For valid, connected nodes and a count [N >= 0], [ping] returns
    exactly [N] samples, each a timeout or a number that is not negative,
    together with the path [get_ospf_path] resolves; without a count it
    behaves as with the count 4. *)
Theorem ping_samples (w : World) (source destination : string)
    (q0 : list string) (N : Z) :
  is_Some (nodes (self w) !! source) ->
  is_Some (nodes (self w) !! destination) ->
  costs_ok w ->
  is_path w source destination q0 ->
  0 <= N ->
  ∃ rtts path w',
    ping source destination (Some N) w = (Ok (rtts, path), w')
    ∧ get_ospf_path source destination w = (Ok path, w)
    ∧ Z.of_nat (length rtts) = N
    ∧ Forall sample_ok rtts
    ∧ ping source destination None w = ping source destination (Some 4) w.
Proof.
  intros Hs Hd Hc Hq0 HN.
  destruct (get_ospf_path_resolves w _ _ _ Hc Hq0) as (path & Hpath & _).
  destruct (ping_resolved source destination (Some N) path w Hs Hd Hpath)
    as (rtts & w' & Hping & Hlen & Hall).
  exists rtts, path, w'. split_and!; [done..| |done|reflexivity].
  rewrite Hlen. simpl. lia.
Qed.

(** C7.  For valid, connected nodes, when no other task removes latency
    entries, [traceroute] returns as many hops as the path has nodes; the
    last hop is the destination with the int 0, and hop [i] carries the
    node [path[i]] and the latency of the edge to [path[i+1]] as stored
    when that hop is recorded, after [i] suspensions. *)
Theorem traceroute_hops (w : World) (source destination : string)
    (q0 : list string) :
  keeps_latencies ->
  is_Some (nodes (self w) !! source) ->
  is_Some (nodes (self w) !! destination) ->
  costs_ok w ->
  latencies_present w ->
  is_path w source destination q0 ->
  ∃ hops path w',
    traceroute source destination w = (Ok (hops, path), w')
    ∧ get_ospf_path source destination w = (Ok path, w)
    ∧ length hops = length path
    ∧ last hops = Some (destination, Int 0)
    ∧ ∀ i u v, hops_of path !! i = Some (u, v) ->
        ∃ l, latencies (self (Nat.iter i other_tasks w)) !! (u, v) = Some l
             ∧ hops !! i = Some (u, Float l).
Proof.
  intros Hkeep Hs Hd Hc Hl Hq0.
  destruct (get_ospf_path_resolves w _ _ _ Hc Hq0) as (path & Hpath & Hispath).
  destruct (traceroute_resolved source destination path w Hkeep Hs Hd Hpath)
    as (recs & Htr & Hlen & Hrecs).
  { destruct Hispath as (_ & _ & _ & Hhops).
    eapply Forall_impl; [exact Hhops|]. intros [u v]. apply Hl. }
  eexists _, path, _. split_and!; [exact Htr|done| |apply last_snoc|].
  - rewrite length_app, Hlen. simpl.
    destruct (length_hops_of path) as [<-| ->]; [lia|].
    by destruct Hispath as (? & _).
  - intros i u v Hi. destruct (Hrecs i u v Hi) as (l & Hli & Hri).
    exists l. split; [done|]. by apply lookup_app_l_Some.
Qed.

(** C8, as amended.  For valid nodes, every failure of the path resolution
    makes [traceroute] return no hop and no path; and when every edge has
    a cost and both nodes lie on some edge without being connected,
    [get_ospf_path] and [ping] fail with the no-path ValueError. *)
Theorem no_path_handling (w : World) (source destination : string)
    (count : option Z) :
  is_Some (nodes (self w) !! source) ->
  is_Some (nodes (self w) !! destination) ->
  (∀ e, (get_ospf_path source destination w).1 = Raise e ->
        traceroute source destination w = (Ok ([], []), w))
  ∧ (costs_present w -> linked w source -> linked w destination ->
     (∀ p, ¬ is_path w source destination p) ->
     let no_path := ValueError ("No OSPF path found between " +:+ source
                                  +:+ " and " +:+ destination) in
     get_ospf_path source destination w = (Raise no_path, w)
     ∧ ping source destination count w = (Raise no_path, w)
     ∧ traceroute source destination w = (Ok ([], []), w)).
Proof.
  intros Hs Hd.
  assert (Hfail : ∀ e, (get_ospf_path source destination w).1 = Raise e ->
                       get_ospf_path source destination w = (Raise e, w)).
  { intros e He. pose proof (get_ospf_path_world source destination w) as Hw.
    destruct (get_ospf_path source destination w). simpl in *. congruence. }
  split.
  - intros e He. by eapply traceroute_unresolved, Hfail.
  - intros Hc Hls Hld Hno no_path.
    assert (get_ospf_path source destination w = (Raise no_path, w)) as Hpath.
    { rewrite get_ospf_path_unfold by done.
      pose proof (shortest_path_sound (ospf_graph_of w) source destination) as Hsp.
      destruct (nx.shortest_path _ source destination) as [p|e].
      - destruct Hsp as [d Hw]. exfalso. by eapply Hno, walk_is_path.
      - destruct Hsp as [[_ Hnot]|[-> _]]; [|done].
        exfalso. apply Hnot. split; by apply node_linked. }
    split_and!; [done|by apply ping_unresolved|by eapply traceroute_unresolved].
Qed.

(** X2.  Path resolution never writes: whatever it returns or raises, the
    simulator, both tables and the random generator are as before. *)
Theorem resolve_is_read_only (w : World) (source destination : string) :
  (get_ospf_path source destination w).2 = w.
Proof. apply get_ospf_path_world. Qed.

End ProbeTheorems.

(** ** The theorems on concrete worlds *)

Lemma demo_world_reachable : @reachable demo_runtime demo_world.
Proof. apply (@reachable_new demo_runtime 0). vm_compute. reflexivity. Defined.

Lemma demo_path_N1_N2 : is_path demo_world "N1" "N2" ["N1"; "R1"; "R2"; "N2"].
Proof.
  split_and!; [reflexivity|reflexivity| |].
  - exists "R1". right. vm_compute. do 2 right. left.
  - cbn [hops_of]. apply Forall_cons. split; [right; vm_compute; repeat constructor|].
    apply Forall_cons. split; [left; vm_compute; repeat constructor|].
    apply Forall_cons. split; [left; vm_compute; repeat constructor|].
    apply Forall_nil_2.
Defined.

Lemma resolve_self_witness :
  get_ospf_path "R1" "R1" demo_world = (Ok ["R1"], demo_world).
Proof.
  apply (@resolve_self demo_runtime demo_world "R1").
  - exact demo_world_reachable.
  - vm_compute. eexists. reflexivity.
Defined.

Lemma unknown_node_rejected_witness :
  get_ospf_path "R1" "X9" demo_world = (Raise NodeNotFound, demo_world)
  ∧ @ping demo_runtime "R1" "X9" None demo_world
    = (Raise (ValueError "Source or destination node not found"), demo_world)
  ∧ @traceroute demo_runtime "R1" "X9" demo_world
    = (Raise (ValueError "Source or destination node not found"), demo_world).
Proof.
  apply (@unknown_node_rejected demo_runtime demo_world "R1" "X9" None).
  - exact demo_world_reachable.
  - right. vm_compute. reflexivity.
Defined.

Lemma ping_samples_witness :
  ∃ rtts path w',
    @ping demo_runtime "N1" "N2" (Some 9) demo_world = (Ok (rtts, path), w')
    ∧ get_ospf_path "N1" "N2" demo_world = (Ok path, demo_world)
    ∧ Z.of_nat (length rtts) = 9
    ∧ Forall sample_ok rtts
    ∧ @ping demo_runtime "N1" "N2" None demo_world
      = @ping demo_runtime "N1" "N2" (Some 4) demo_world.
Proof.
  apply (@ping_samples demo_runtime demo_world "N1" "N2" ["N1"; "R1"; "R2"; "N2"] 9).
  - vm_compute. eexists. reflexivity.
  - vm_compute. eexists. reflexivity.
  - exact demo_world_costs_ok.
  - exact demo_path_N1_N2.
  - lia.
Defined.

(** The samples of that run: the sixth echo is lost. *)
Example ping_N1_N2 :
  (@ping demo_runtime "N1" "N2" (Some 9) demo_world).1
  = Ok ([Some (Float 55.503999999999998); Some (Float 56.5); Some (Float 58.5);
         Some (Float 55.75); Some (Float 57); None; Some (Float 56.5);
         Some (Float 58.5); Some (Float 55.75)],
        ["N1"; "R1"; "R2"; "N2"]).
Proof. vm_compute. reflexivity. Qed.

(** A perturbation pass never removes a latency entry. *)
Lemma perturbation_pass_keeps_latencies `{Runtime} (w : World) (k : string * string) :
  is_Some (latencies (self w) !! k) ->
  is_Some (latencies (self (perturbation_pass w).2) !! k).
Proof.
  intros Hk. rewrite perturbation_pass_unfold.
  destruct (for_ _ perturb w) as [r w'] eqn:Hrun. simpl.
  eapply (for__inv (λ w, is_Some (latencies (self w) !! k))); [|exact Hk|exact Hrun].
  clear Hk Hrun. intros edge w1 r1 w2 _ Hk Hrun.
  pose proof (perturb_unfold edge w1) as Hu.
  destruct (latencies (self w1) !! edge) as [current|].
  - cbv zeta in Hu.
    destruct (ospf_cost _) as [c|e]; rewrite Hu in Hrun; clear Hu;
      injection Hrun as <- <-; simpl; by do 2 apply lookup_insert_is_Some'.
  - rewrite Hu in Hrun. by injection Hrun as <- <-.
Qed.

Lemma busy_runtime_keeps_latencies : @keeps_latencies busy_runtime.
Proof. intros w k. apply (@perturbation_pass_keeps_latencies demo_runtime). Defined.

Lemma traceroute_hops_witness :
  ∃ hops path w',
    @traceroute busy_runtime "R1" "N3" demo_world = (Ok (hops, path), w')
    ∧ get_ospf_path "R1" "N3" demo_world = (Ok path, demo_world)
    ∧ length hops = length path
    ∧ last hops = Some ("N3", Int 0)
    ∧ ∀ i u v, hops_of path !! i = Some (u, v) ->
        ∃ l, latencies (self (Nat.iter i (@other_tasks busy_runtime) demo_world)) !! (u, v)
             = Some l
             ∧ hops !! i = Some (u, Float l).
Proof.
  apply (@traceroute_hops busy_runtime demo_world "R1" "N3" ["R1"; "R2"; "R3"; "N3"]).
  - exact busy_runtime_keeps_latencies.
  - vm_compute. eexists. reflexivity.
  - vm_compute. eexists. reflexivity.
  - exact demo_world_costs_ok.
  - apply well_formed_latencies_present.
    exact (@reachable_well_formed demo_runtime _ demo_world_reachable).
  - exact demo_path_R1_N3.
Defined.

(** The hops of that run: the updater perturbs the table between two hops,
    so each hop reports the latency current at its own moment. *)
Example traceroute_R1_N3 :
  (@traceroute busy_runtime "R1" "N3" demo_world).1
  = Ok ([("R1", Float 40); ("R4", Float 35.000000000000007);
         ("R3", Float 42.318750000000009); ("N3", Int 0)],
        ["R1"; "R4"; "R3"; "N3"]).
Proof. vm_compute. reflexivity. Qed.

(** *** Disconnected nodes *)

Lemma split_world_component p t d :
  walk (ospf_graph_of split_world) "N1" p t d -> t ∈ ["N1"; "R1"; "R4"].
Proof.
  induction 1 as [|p u v c d Hw IH Hedge Hv]; [left|].
  repeat (apply elem_of_cons in IH as [->|IH];
          [vm_compute in Hedge;
           repeat (apply elem_of_cons in Hedge as [[= -> ->]|Hedge];
                   [rewrite !elem_of_cons; tauto|]);
           by apply elem_of_nil in Hedge|]).
  by apply elem_of_nil in IH.
Qed.

Lemma split_world_no_path p : ¬ is_path split_world "N1" "N3" p.
Proof.
  intros [d Hw]%path_is_walk. apply split_world_component in Hw.
  repeat (apply elem_of_cons in Hw as [Hw|Hw]; [discriminate Hw|]).
  by apply elem_of_nil in Hw.
Qed.

Lemma no_path_handling_witness :
  get_ospf_path "N1" "N3" split_world
  = (Raise (ValueError "No OSPF path found between N1 and N3"), split_world)
  ∧ @ping demo_runtime "N1" "N3" None split_world
    = (Raise (ValueError "No OSPF path found between N1 and N3"), split_world)
  ∧ @traceroute demo_runtime "N1" "N3" split_world = (Ok ([], []), split_world).
Proof.
  refine (proj2 (@no_path_handling demo_runtime split_world "N1" "N3" None _ _) _ _ _ _).
  - vm_compute. eexists. reflexivity.
  - vm_compute. eexists. reflexivity.
  - apply Forall_forall. intros e He. vm_compute in He.
    repeat (apply elem_of_cons in He as [->|He]; [vm_compute; eexists; reflexivity|]).
    by apply elem_of_nil in He.
  - exists "R1". right. vm_compute. do 1 right. left.
  - exists "R3". right. vm_compute. do 4 right. left.
  - exact split_world_no_path.
Defined.

(** C8, as stated, fails: with the link to [N3] taken out, [N3] is a valid
    node connected to nothing, and [get_ospf_path] and [ping] surface
    networkx's node-not-found error instead of the no-path error. *)
Lemma isolated_node_is_not_found :
  is_Some (nodes (self cut_world) !! "R1")
  ∧ is_Some (nodes (self cut_world) !! "N3")
  ∧ (∀ p, ¬ is_path cut_world "R1" "N3" p)
  ∧ get_ospf_path "R1" "N3" cut_world = (Raise NodeNotFound, cut_world)
  ∧ @ping demo_runtime "R1" "N3" None cut_world = (Raise NodeNotFound, cut_world)
  ∧ @traceroute demo_runtime "R1" "N3" cut_world = (Ok ([], []), cut_world).
Proof.
  split_and!; try (vm_compute; first [reflexivity|eexists; reflexivity]).
  intros p [d Hw%walk_node]%path_is_walk. vm_compute in Hw.
  repeat (apply elem_of_cons in Hw as [Hw|Hw]; [discriminate Hw|]).
  by apply elem_of_nil in Hw.
Qed.

(** ** The updater and the stop signal *)

Section Updater.
Context `{Runtime}.

Lemma perturb_running edge w :
  _running (self (perturb edge w).2) = _running (self w).
Proof.
  pose proof (perturb_unfold edge w) as Hu.
  destruct (latencies (self w) !! edge) as [current|]; [|by rewrite Hu].
  cbv zeta in Hu. destruct (ospf_cost _) as [c|e]; by rewrite Hu.
Qed.

Lemma updater_step_running c :
  _running (self (updater_step c).2) = _running (self c.2).
Proof.
  destruct c as [[|[|edge rest]| | |e] w]; simpl; try done.
  - destruct (_running (self w)) eqn:Hr; simpl; by rewrite Hr.
  - pose proof (perturb_running edge w) as Hp.
    by destruct (perturb edge w) as [[[]|e] w'].
Qed.

Lemma handle_stopped c ev c' :
  _running (self c.2) = false -> handle c ev = Some c' ->
  _running (self c'.2) = false.
Proof.
  intros Hc. destruct ev.
  - intros [= <-]. by rewrite updater_step_running.
  - destruct c as [[] w]; intros [= <-]; done.
Qed.

Lemma handle_outside_pass c ev c' :
  _running (self c.2) = false -> outside_pass c.1 -> handle c ev = Some c' ->
  outside_pass c'.1.
Proof.
  intros Hc Hout. destruct ev.
  - intros [= <-]. destruct c as [[|rest| | |e] w]; simpl in *; try done.
    by rewrite Hc.
  - destruct c as [[] w]; intros [= <-]; done.
Qed.

(** Once the flag is down, no pass starts any more. *)
Lemma stopped_no_pass evs c :
  _running (self c.2) = false -> passes_started evs c = 0%nat.
Proof.
  revert c. induction evs as [|ev evs IH]; intros c Hc; [done|].
  cbn [passes_started]. destruct (handle c ev) as [c'|] eqn:Hev; [|done].
  rewrite (IH _ (handle_stopped c ev c' Hc Hev)).
  destruct ev; [|done]. destruct c as [[] w]; simpl in *; try done. by rewrite Hc.
Qed.

(** Once the flag is down, no sleep starts from outside the [for] loop. *)
Lemma stopped_no_sleep evs c :
  _running (self c.2) = false -> outside_pass c.1 -> sleeps_started evs c = 0%nat.
Proof.
  revert c. induction evs as [|ev evs IH]; intros c Hc Hout; [done|].
  cbn [sleeps_started]. destruct (handle c ev) as [c'|] eqn:Hev; [|done].
  rewrite (IH _ (handle_stopped c ev c' Hc Hev) (handle_outside_pass c ev c' Hc Hout Hev)).
  destruct ev; [|done]. by destruct c as [[|[]| | |] w].
Qed.

(** The event loop can always let the updater advance. *)
Lemma run_advance n c :
  run (replicate n Advance) c = Some (Nat.iter n updater_step c).
Proof.
  revert c. induction n as [|n IH]; intros c; [done|].
  cbn [replicate run handle]. by rewrite IH, Nat.iter_succ_r.
Qed.

(** The [for] loop goes through all the edges it has left: no [stop()]
    can come in between, and the loop does not look at the flag. *)
Lemma pass_completes rest w :
  run (replicate (length rest) Advance) (InFor rest, w) =
    Some match for_ rest perturb w with
         | (Ok _, w') => (InFor [], w')
         | (Raise e, w') => (Crashed e, w')
         end.
Proof.
  revert w. induction rest as [|edge rest IH]; intros w; [done|].
  cbn [length replicate run handle updater_step for_]. unfold bind.
  destruct (perturb edge w) as [[[]|e] w'].
  - apply IH.
  - rewrite run_advance. f_equal. clear.
    induction (length rest) as [|n IHn]; [done|]. by rewrite Nat.iter_succ, IHn.
Qed.

(** One turn of the [while] loop, statement by statement and as the
    coroutine [update_latencies] runs it. *)
Lemma updater_iteration w :
  _running (self w) = true ->
  run (replicate (S (length (nx.edges (graph (self w))))) Advance) (AtWhile, w) =
    Some match perturbation_pass w with
         | (Ok _, w') => (InFor [], w')
         | (Raise e, w') => (Crashed e, w')
         end.
Proof.
  intros Hw. cbn [replicate run handle updater_step]. rewrite Hw.
  apply pass_completes.
Qed.

Lemma update_latencies_running fuel w :
  _running (self w) = true ->
  update_latencies (S fuel) w =
    match perturbation_pass w with
    | (Ok _, w') => update_latencies fuel (other_tasks w')
    | (Raise e, w') => (Raise e, w')
    end.
Proof.
  intros Hw. cbn [update_latencies]. unfold bind at 1, read at 1. cbn beta iota.
  rewrite Hw. unfold bind at 1.
  by destruct (perturbation_pass w) as [[[]|e] w'].
Qed.

Lemma update_latencies_stopped fuel w :
  _running (self w) = false ->
  update_latencies (S fuel) w = (Ok (Some tt), w).
Proof.
  intros Hw. cbn [update_latencies]. unfold bind at 1, read at 1. cbn beta iota.
  by rewrite Hw.
Qed.

Lemma terminated_stays n c :
  terminated c.1 -> terminated (Nat.iter n updater_step c).1.
Proof.
  induction n as [|n IH]; intros Hc; [done|].
  rewrite Nat.iter_succ. specialize (IH Hc).
  by destruct (Nat.iter n updater_step c) as [[] w].
Qed.

(** Once the flag is down and the updater is outside its [for] loop, it
    leaves its [while] loop within two statements: waking up and testing
    the flag. *)
Lemma stopped_terminates c n :
  _running (self c.2) = false -> outside_pass c.1 -> (2 <= n)%nat ->
  ∃ final, run (replicate n Advance) c = Some final ∧ terminated final.1.
Proof.
  intros Hc Hout Hn. eexists. split; [apply run_advance|].
  replace n with ((n - 2) + 2)%nat by lia. rewrite Nat.iter_add.
  apply terminated_stays.
  destruct c as [[|rest| | |e] w]; simpl in *; try done; by rewrite Hc.
Qed.

(** C10.  [stop()] is run by another task, so it can only be called while
    the updater is outside its [for] loop: a pass in flight cannot be
    interrupted, it goes through all its remaining edges first.  Once
    [stop()] has been called, whatever is scheduled next: a second
    [stop()] changes nothing; no perturbation pass is started; no sleep is
    started; and the updater terminates, within the two statements that
    wake it up and test the flag. *)
Theorem updater_stops (c stopped : updater_pc * World) (evs : list event) :
  handle c Stop = Some stopped ->
  handle stopped Stop = Some stopped
  ∧ passes_started evs stopped = 0%nat
  ∧ sleeps_started evs stopped = 0%nat
  ∧ (∀ n, (2 <= n)%nat ->
       ∃ final, run (replicate n Advance) stopped = Some final ∧ terminated final.1)
  ∧ (∀ rest w,
       handle (InFor rest, w) Stop = None
       ∧ run (replicate (length rest) Advance) (InFor rest, w) =
           Some match for_ rest perturb w with
                | (Ok _, w') => (InFor [], w')
                | (Raise e, w') => (Crashed e, w')
                end).
Proof.
  intros Hstop.
  assert (_running (self stopped.2) = false ∧ outside_pass stopped.1) as [Hflag Hout].
  { destruct c as [[] w]; cbn [handle fst] in Hstop; try discriminate Hstop;
      injection Hstop as <-; done. }
  split_and!.
  - clear Hstop. destruct stopped as [pc [[g np ns ls cs r] rs]]. simpl in Hflag, Hout. subst r.
    by destruct pc.
  - by apply stopped_no_pass.
  - by apply stopped_no_sleep.
  - intros n Hn. by apply stopped_terminates.
  - intros rest w. split; [done|apply pass_completes].
Qed.

End Updater.

Lemma updater_stops_witness :
  let stopped := (InSleep, (stop demo_world).2) in
  @handle demo_runtime stopped Stop = Some stopped
  ∧ @passes_started demo_runtime [Advance; Advance; Stop; Advance] stopped = 0%nat
  ∧ @sleeps_started demo_runtime [Advance; Advance; Stop; Advance] stopped = 0%nat
  ∧ (∀ n, (2 <= n)%nat ->
       ∃ final, @run demo_runtime (replicate n Advance) stopped = Some final
                ∧ terminated final.1)
  ∧ (∀ rest w,
       @handle demo_runtime (InFor rest, w) Stop = None
       ∧ @run demo_runtime (replicate (length rest) Advance) (InFor rest, w) =
           Some match for_ rest (@perturb demo_runtime) w with
                | (Ok _, w') => (InFor [], w')
                | (Raise e, w') => (Crashed e, w')
                end).
Proof.
  apply (@updater_stops demo_runtime (InSleep, demo_world)).
  reflexivity.
Defined.

(** The updater is stopped while it is suspended after its first pass: it
    wakes up, tests the flag and returns.  Inside the pass the signal
    cannot be delivered. *)
Example stop_during_sleep :
  let c := Nat.iter 9 (@updater_step demo_runtime) (AtWhile, demo_world) in
  c.1 = InSleep
  ∧ @visited demo_runtime [Stop; Advance; Advance; Advance] c
    = [InSleep; AtWhile; Returned; Returned]
  ∧ @sleeps_started demo_runtime [Stop; Advance; Advance; Advance] c = 0%nat
  ∧ @run demo_runtime (replicate 7 Advance ++ [Stop]) (AtWhile, demo_world) = None.
Proof. cbv zeta. split_and!; vm_compute; reflexivity. Qed.

(** ** Signs of the floating-point results *)

Section Signs.
Variables prec emax : Z.

Lemma binary_round_aux_sign m e l :
  sf_not_negative (binary_round_aux prec emax false m e l).
Proof.
  unfold binary_round_aux.
  destruct (shr_fexp prec emax m e l) as [mrs' e'].
  destruct (shr_fexp prec emax _ e' loc_Exact) as [mrs'' e''].
  destruct (shr_m mrs''); [done| |done].
  by destruct (e'' <=? emax - prec).
Qed.

Lemma SFmul_sign x y :
  sf_not_negative x -> sf_not_negative y -> sf_not_negative (SFmul prec emax x y).
Proof.
  destruct x as [sx|sx| |sx mx ex], y as [sy|sy| |sy my ey]; simpl;
    intros Hx Hy; subst; try done.
  apply binary_round_aux_sign.
Qed.

Lemma SFdiv_sign x y :
  sf_not_negative x -> sf_not_negative y ->
  (∀ s, y ≠ S754_zero s) ->
  sf_not_negative (SFdiv prec emax x y).
Proof.
  destruct x as [sx|sx| |sx mx ex], y as [sy|sy| |sy my ey]; simpl;
    intros Hx Hy Hz; subst; try done; try (by destruct (Hz sy)).
  destruct (SFdiv_core_binary _ _ _ _ _ _) as [[mz ez] lz].
  apply binary_round_aux_sign.
Qed.

Lemma binary_normalize_sign m e :
  0 <= m -> sf_not_negative (binary_normalize prec emax m e false).
Proof.
  intros Hm. destruct m as [|p|p]; [done| |lia].
  unfold binary_normalize, binary_round.
  destruct (shl_align p e _) as [mz ez]. apply binary_round_aux_sign.
Qed.

Lemma SFadd_sign x y :
  sf_not_negative x -> sf_not_negative y -> sf_not_negative (SFadd prec emax x y).
Proof.
  destruct x as [sx|sx| |sx mx ex], y as [sy|sy| |sy my ey]; simpl;
    intros Hx Hy; subst; try done.
  - by destruct sx, sy.
  - apply binary_normalize_sign. simpl. lia.
Qed.

End Signs.

Lemma not_negative_mul (x y : float) :
  not_negative x -> not_negative y -> not_negative (x * y).
Proof. unfold not_negative. rewrite FloatAxioms.mul_spec. apply SFmul_sign. Qed.

Lemma not_negative_add (x y : float) :
  not_negative x -> not_negative y -> not_negative (x + y).
Proof. unfold not_negative. rewrite FloatAxioms.add_spec. apply SFadd_sign. Qed.

Lemma not_negative_div (x y : float) :
  not_negative x -> not_negative y -> (y =? 0)%float = false ->
  not_negative (x / y).
Proof.
  unfold not_negative. intros Hx Hy Hz. rewrite FloatAxioms.div_spec.
  apply SFdiv_sign; [done..|]. intros s Hs.
  rewrite FloatAxioms.eqb_spec, Hs in Hz. by destruct s.
Qed.

Lemma not_negative_unit (u : unit_float) : not_negative u.
Proof.
  destruct u as [u Hu]. simpl. apply andb_prop in Hu as [Hu _].
  rewrite FloatAxioms.leb_spec in Hu. unfold not_negative.
  change (Prim2SF 0) with (S754_zero false) in Hu.
  by destruct (Prim2SF u) as [s|[]| |[] m e].
Qed.

Lemma not_negative_ltb (x : float) : not_negative x -> (x <? 0)%float = false.
Proof.
  unfold not_negative. rewrite FloatAxioms.ltb_spec.
  change (Prim2SF 0) with (S754_zero false).
  destruct (Prim2SF x) as [s|s| |s m e]; simpl; intros Hs; subst; done.
Qed.

Lemma int_of_float_nonneg (q : float) (c : Z) :
  not_negative q -> int_of_float q = Ok c -> 0 <= c.
Proof.
  unfold not_negative, int_of_float.
  destruct (Prim2SF q) as [s|s| |s m e]; simpl; intros Hs Hc; subst; try done.
  - injection Hc as <-. lia.
  - injection Hc as <-. apply Z.shiftl_nonneg. lia.
Qed.

Lemma ospf_cost_nonneg (latency : float) (c : Z) :
  not_negative latency -> ospf_cost latency = Ok c -> 0 <= c.
Proof.
  intros Hl. unfold ospf_cost, float_truediv.
  change (10 =? 0)%float with false. cbn beta iota.
  destruct (latency / 10 =? 0)%float eqn:Hz; [done|]. cbn beta iota.
  apply int_of_float_nonneg.
  apply not_negative_div; [done| |done].
  by apply not_negative_div.
Qed.

Lemma uniform_not_negative (a k : float) (u : unit_float) :
  not_negative a -> not_negative k -> not_negative (a + k * u).
Proof.
  intros Ha Hk. apply not_negative_add; [done|].
  apply not_negative_mul; [done|apply not_negative_unit].
Qed.

(** A latency on which the cost expression can be evaluated is neither a
    zero nor a NaN: when its sign is not negative it is strictly positive
    (possibly infinite). *)
Lemma ospf_cost_ok_positive (latency : float) (c : Z) :
  not_negative latency -> ospf_cost latency = Ok c -> (0 <? latency)%float = true.
Proof.
  unfold not_negative, ospf_cost, float_truediv. intros Hl.
  change (10 =? 0)%float with false. cbn beta iota.
  destruct (latency / 10 =? 0)%float eqn:Hz; [done|]. cbn beta iota.
  unfold int_of_float. intros Hint.
  rewrite FloatAxioms.eqb_spec, FloatAxioms.div_spec in Hz.
  rewrite !FloatAxioms.div_spec in Hint.
  rewrite FloatAxioms.ltb_spec. change (Prim2SF 0) with (S754_zero false).
  destruct (Prim2SF latency) as [s|s| |s m e]; simpl in Hl; subst.
  - vm_compute in Hz. discriminate Hz.
  - reflexivity.
  - vm_compute in Hint. discriminate Hint.
  - reflexivity.
Qed.

Section NonNegative.
Context `{Runtime}.

Lemma perturb_nonneg edge w r w' :
  nonneg_tables w -> perturb edge w = (r, w') -> nonneg_tables w'.
Proof.
  intros [Hl Hc] Hrun. pose proof (perturb_unfold edge w) as Hu.
  destruct (latencies (self w) !! edge) as [current|] eqn:Hcur.
  - cbv zeta in Hu.
    assert (not_negative
              (current * (0.9 + (1.1 - 0.9) * random_stream (random_state w)))) as Hnew.
    { apply not_negative_mul; [by eapply Hl|]. by apply uniform_not_negative. }
    destruct (ospf_cost _) as [c|e] eqn:Hcost; rewrite Hu in Hrun; clear Hu;
      injection Hrun as <- <-; split; simpl.
    + intros k l. rewrite !lookup_insert.
      repeat case_decide; intros Hk; [injection Hk as <-; done..|by eapply Hl].
    + intros k c'. rewrite !lookup_insert.
      repeat case_decide; intros Hk;
        [injection Hk as <-; by eapply ospf_cost_nonneg..|by eapply Hc].
    + intros k l. rewrite !lookup_insert.
      repeat case_decide; intros Hk; [injection Hk as <-; done..|by eapply Hl].
    + done.
  - rewrite Hu in Hrun. by injection Hrun as <- <-.
Qed.

Lemma create_connection_nonneg c w r w' :
  nonneg_tables w -> create_connection c w = (r, w') -> nonneg_tables w'.
Proof.
  intros [Hl Hc] Hrun. destruct c as [u v].
  pose proof (create_connection_unfold u v w) as Hu. cbv zeta in Hu.
  assert (not_negative (10 + (50 - 10) * random_stream (random_state w))) as Hnew.
  { by apply uniform_not_negative. }
  destruct (ospf_cost _) as [c|e] eqn:Hcost; rewrite Hu in Hrun; clear Hu;
    injection Hrun as <- <-; split; simpl.
  - intros k l. rewrite !lookup_insert.
    repeat case_decide; intros Hk; [injection Hk as <-; done..|by eapply Hl].
  - intros k c'. rewrite !lookup_insert.
    repeat case_decide; intros Hk;
      [injection Hk as <-; by eapply ospf_cost_nonneg..|by eapply Hc].
  - intros k l. rewrite !lookup_insert.
    repeat case_decide; intros Hk; [injection Hk as <-; done..|by eapply Hl].
  - done.
Qed.

Lemma NetworkSimulator_new_nonneg seed r w :
  NetworkSimulator_new seed = (r, w) -> nonneg_tables w.
Proof.
  rewrite NetworkSimulator_new_unfold.
  destruct (for_ connections create_connection _) as [r' w'] eqn:Hrun.
  assert (nonneg_tables w') as Hw'.
  { eapply (for__inv nonneg_tables); [| |exact Hrun].
    - intros c w1 r1 w2 _. apply create_connection_nonneg.
    - split; intros k x; simpl; by rewrite lookup_empty. }
  destruct r' as [[]|e]; intros [= _ <-]; done.
Qed.

Lemma reachable_nonneg w : reachable w -> nonneg_tables w.
Proof.
  induction 1 as [seed w Hnew|w r w' _ IH Hpass|w edge r w' _ IH Hp|w _ IH|w n _ IH].
  - by eapply NetworkSimulator_new_nonneg.
  - rewrite perturbation_pass_unfold in Hpass.
    eapply (for__inv nonneg_tables); [|exact IH|exact Hpass].
    intros x w1 r1 w2 _. apply perturb_nonneg.
  - by eapply perturb_nonneg.
  - exact IH.
  - exact IH.
Qed.

(** X1.  In every reachable world every edge of the topology has a cost,
    the same in both directions and not negative: the path resolver always
    runs on a table it can minimise over. *)
Theorem reachable_costs_ok w : reachable w -> costs_ok w.
Proof.
  intros Hr. pose proof (reachable_well_formed w Hr) as Hwf.
  destruct (reachable_nonneg w Hr) as [_ Hc].
  apply Forall_forall. intros [u v] He.
  destruct (well_formed_edge w u v Hwf He) as (l & c & _ & _ & Hc1 & Hc2).
  exists c. split_and!; [done..|]. by eapply Hc.
Qed.

(** C4, as amended.  Right after the construction and right after every
    perturbation pass that ran to its end, every stored latency is
    strictly positive (it can be plus infinity, never zero or NaN); in
    every reachable world, also between two edge updates and after a pass
    that died, no stored latency is negative; and every stored cost is an
    integer that is not negative. *)
Theorem latency_positive_cost_not_negative w :
  reachable w ->
  (∀ k l, latencies (self w) !! k = Some l -> (l <? 0)%float = false)
  ∧ (∀ k c, ospf_costs (self w) !! k = Some c -> 0 <= c)
  ∧ (settled w ->
     ∀ k l, latencies (self w) !! k = Some l -> (0 <? l)%float = true).
Proof.
  intros [Hl Hc]%reachable_nonneg. split_and!; [|done|].
  - intros k l Hk. apply not_negative_ltb. by eapply Hl.
  - intros Hs k l Hk.
    destruct (settled_in_sync w Hs k l Hk) as (c & Hcost & _).
    eapply ospf_cost_ok_positive; [by eapply Hl|exact Hcost].
Qed.

End NonNegative.

Lemma drift_world_reachable (n : nat) : @reachable drift_runtime (drift_world n).
Proof.
  induction n as [|n IH].
  - apply (@reachable_new drift_runtime 0). vm_compute. reflexivity.
  - unfold drift_world. rewrite Nat.iter_succ. fold (drift_world n).
    destruct (@perturbation_pass drift_runtime (drift_world n)) as [r w'] eqn:Hpass.
    by eapply (@reachable_pass drift_runtime).
Defined.

Lemma reachable_costs_ok_witness : costs_ok (drift_world 33).
Proof.
  apply (@reachable_costs_ok drift_runtime (drift_world 33)).
  exact (drift_world_reachable 33).
Defined.

Lemma latency_positive_cost_not_negative_witness :
  (∀ k l, latencies (self demo_world) !! k = Some l -> (l <? 0)%float = false)
  ∧ (∀ k c, ospf_costs (self demo_world) !! k = Some c -> 0 <= c)
  ∧ ∀ k l, latencies (self demo_world) !! k = Some l -> (0 <? l)%float = true.
Proof.
  destruct (@latency_positive_cost_not_negative demo_runtime demo_world)
    as (Hl & Hc & Hpos).
  - exact demo_world_reachable.
  - split_and!; [exact Hl|exact Hc|].
    apply Hpos. apply (@settled_new demo_runtime 0). exact demo_world_new.
Defined.

(** ** What construction and a pass write, entry by entry *)

Lemma separate_cons (e : string * string) (es : list (string * string)) :
  separate (e :: es) ->
  separate es ∧ (e ∉ es) ∧ ((e.2, e.1) ∉ es) ∧ e ≠ (e.2, e.1).
Proof.
  unfold separate. rewrite fmap_cons. cbn [app].
  intros [Hnot Hnd]%NoDup_cons.
  apply NoDup_app in Hnd as (Hes & Hdisj & Hsw).
  apply NoDup_cons in Hsw as [Hsw1 Hsw2].
  rewrite elem_of_app, elem_of_cons in Hnot.
  split_and!.
  - apply NoDup_app. split_and!; [done| |done].
    intros x Hx Hx'. apply (Hdisj x Hx). by right.
  - tauto.
  - intros Hin. apply Hnot. right. right.
    apply list_elem_of_fmap. exists (e.2, e.1). by destruct e.
  - intros Heq. apply Hnot. right. by left.
Qed.

Lemma separate_lookup (es : list (string * string)) (i : nat) (e k : string * string) :
  separate es -> es !! i = Some e -> k = e ∨ k = (e.2, e.1) ->
  ∀ j e', es !! j = Some e' -> k = e' ∨ k = (e'.2, e'.1) -> j = i.
Proof.
  revert i. induction es as [|x es IH]; intros i Hsep Hi Hk j e' Hj Hk'; [done|].
  apply separate_cons in Hsep as (Hsep & Hx & Hx' & Hne).
  assert (∀ n y, es !! n = Some y -> ¬ (x = y ∨ x = (y.2, y.1)
                                         ∨ (x.2, x.1) = y ∨ (x.2, x.1) = (y.2, y.1)))
    as Hfresh.
  { intros n y Hy%list_elem_of_lookup_2 [->|[->|[<-|Heq]]]; [done| |done|].
    - by destruct y.
    - apply Hx. destruct x, y. simpl in Heq. by injection Heq as -> ->. }
  destruct i as [|i], j as [|j]; simpl in Hi, Hj.
  - done.
  - injection Hi as ->. exfalso. apply (Hfresh j e' Hj).
    destruct Hk as [->| ->], Hk' as [Hk'|Hk']; auto.
  - injection Hj as ->. exfalso. apply (Hfresh i e Hi).
    destruct Hk as [Hk|Hk], Hk' as [->| ->]; auto.
  - f_equal. by eapply IH.
Qed.

Lemma separate_connections : separate connections.
Proof. apply (bool_decide_unpack _). vm_compute. reflexivity. Qed.

Lemma separate_reference_edges : separate (nx.edges reference_graph).
Proof. apply (bool_decide_unpack _). vm_compute. reflexivity. Qed.

Section Effects.
Context `{Runtime}.

(** The pass, edge by edge, over any list of distinct links. *)
Lemma for_perturb_effect (es : list (string * string)) :
  separate es ->
  ∀ w w', for_ es perturb w = (Ok tt, w') ->
    random_state w' = (random_state w + length es)%nat
    ∧ graph (self w') = graph (self w)
    ∧ node_pos (self w') = node_pos (self w)
    ∧ nodes (self w') = nodes (self w)
    ∧ _running (self w') = _running (self w)
    ∧ (∀ k, k ∉ es -> (k.2, k.1) ∉ es ->
         latencies (self w') !! k = latencies (self w) !! k
         ∧ ospf_costs (self w') !! k = ospf_costs (self w) !! k)
    ∧ (∀ i u v, es !! i = Some (u, v) ->
         ∃ l c,
           latencies (self w) !! (u, v) = Some l
           ∧ let l' := (l * (0.9 + (1.1 - 0.9) * random_stream (random_state w + i)))%float in
             ospf_cost l' = Ok c
             ∧ latencies (self w') !! (u, v) = Some l'
             ∧ latencies (self w') !! (v, u) = Some l'
             ∧ ospf_costs (self w') !! (u, v) = Some c
             ∧ ospf_costs (self w') !! (v, u) = Some c).
Proof.
  induction es as [|e es IH]; intros Hsep w w' Hrun.
  - simpl in Hrun. unfold ret in Hrun. injection Hrun as <-.
    split_and!; try done; by rewrite Nat.add_0_r.
  - apply separate_cons in Hsep as (Hsep & He & He' & Hne).
    cbn [for_] in Hrun. unfold bind at 1 in Hrun.
    pose proof (perturb_unfold e w) as Hu.
    destruct (latencies (self w) !! e) as [current|] eqn:Hcur;
      [|rewrite Hu in Hrun; discriminate Hrun].
    cbv zeta in Hu.
    destruct (ospf_cost _) as [c|err] eqn:Hcost;
      rewrite Hu in Hrun; [|discriminate Hrun]. clear Hu.
    destruct (IH Hsep _ _ Hrun) as (Hrs & Hg & Hp & Hn & Hr & Hkeep & Hnew).
    clear IH Hrun. cbn [self random_state graph node_pos nodes _running
      set_ospf_costs set_latencies latencies ospf_costs] in *.
    split_and!; [cbn [length]; lia|done..| |].
    + intros k Hk Hk'. rewrite not_elem_of_cons in Hk, Hk'.
      destruct Hk as [Hk1 Hk2], Hk' as [Hk1' Hk2'].
      destruct (Hkeep k Hk2 Hk2') as [-> ->].
      assert (k ≠ (e.2, e.1)) by (intros ->; by destruct e).
      by rewrite !lookup_insert_ne.
    + intros [|i] u v Hi; simpl in Hi.
      * injection Hi as ->. exists current, c. rewrite Nat.add_0_r.
        split; [done|]. cbv zeta. split; [done|].
        destruct (Hkeep (u, v) He He') as [-> ->].
        destruct (Hkeep (v, u) He' He) as [-> ->]. simpl.
        rewrite !lookup_insert_eq.
        split_and!; try done; rewrite lookup_insert_ne by done;
          by rewrite lookup_insert_eq.
      * destruct (Hnew i u v Hi) as (l & c' & Hl & Hrest).
        exists l, c'. rewrite Nat.add_succ_r. split; [|exact Hrest].
        rewrite <- Hl. symmetry.
        apply list_elem_of_lookup_2 in Hi.
        assert ((u, v) ≠ e) by (by intros <-).
        assert ((u, v) ≠ (e.2, e.1)).
        { intros Heq. apply He'. by rewrite <- Heq. }
        by rewrite !lookup_insert_ne.
Qed.

(** The creation of the links, over any list of distinct links. *)
Lemma for_create_connection_effect (es : list (string * string)) :
  separate es ->
  ∀ w w', for_ es create_connection w = (Ok tt, w') ->
    random_state w' = (random_state w + length es)%nat
    ∧ node_pos (self w') = node_pos (self w)
    ∧ nodes (self w') = nodes (self w)
    ∧ _running (self w') = _running (self w)
    ∧ (∀ k, k ∉ es -> (k.2, k.1) ∉ es ->
         latencies (self w') !! k = latencies (self w) !! k
         ∧ ospf_costs (self w') !! k = ospf_costs (self w) !! k)
    ∧ (∀ i u v, es !! i = Some (u, v) ->
         let l := (10 + (50 - 10) * random_stream (random_state w + i))%float in
         ∃ c, ospf_cost l = Ok c
              ∧ latencies (self w') !! (u, v) = Some l
              ∧ latencies (self w') !! (v, u) = Some l
              ∧ ospf_costs (self w') !! (u, v) = Some c
              ∧ ospf_costs (self w') !! (v, u) = Some c).
Proof.
  induction es as [|e es IH]; intros Hsep w w' Hrun.
  - simpl in Hrun. unfold ret in Hrun. injection Hrun as <-.
    split_and!; try done; by rewrite Nat.add_0_r.
  - apply separate_cons in Hsep as (Hsep & He & He' & Hne).
    cbn [for_] in Hrun. unfold bind at 1 in Hrun. destruct e as [a b].
    pose proof (create_connection_unfold a b w) as Hu. cbv zeta in Hu.
    destruct (ospf_cost _) as [c|err] eqn:Hcost;
      rewrite Hu in Hrun; [|discriminate Hrun]. clear Hu.
    destruct (IH Hsep _ _ Hrun) as (Hrs & Hp & Hn & Hr & Hkeep & Hnew).
    clear IH Hrun. cbn [self random_state graph node_pos nodes _running
      set_ospf_costs set_latencies set_graph latencies ospf_costs fst snd] in *.
    split_and!; [cbn [length]; lia|done..| |].
    + intros k Hk Hk'. rewrite not_elem_of_cons in Hk, Hk'.
      destruct Hk as [Hk1 Hk2], Hk' as [Hk1' Hk2'].
      destruct (Hkeep k Hk2 Hk2') as [-> ->].
      assert (k ≠ (b, a)) by (intros ->; done).
      by rewrite !lookup_insert_ne.
    + intros [|i] u v Hi; simpl in Hi.
      * injection Hi as -> ->. exists c. rewrite Nat.add_0_r.
        split; [done|].
        destruct (Hkeep (u, v) He He') as [-> ->].
        destruct (Hkeep (v, u) He' He) as [-> ->].
        rewrite !lookup_insert_eq.
        split_and!; try done; rewrite lookup_insert_ne by done;
          by rewrite lookup_insert_eq.
      * rewrite Nat.add_succ_r. apply (Hnew i u v Hi).
Qed.

End Effects.

(** ** What stays fixed, and which keys the tables hold *)

Lemma connections_reference_edges (c : string * string) :
  c ∈ connections ->
  c ∈ nx.edges reference_graph ∨ (c.2, c.1) ∈ nx.edges reference_graph.
Proof.
  intros Hc. rewrite reference_edges. unfold connections in Hc.
  repeat (apply elem_of_cons in Hc as [->|Hc];
          [simpl; rewrite !elem_of_cons; tauto|]).
  by apply elem_of_nil in Hc.
Qed.

Section Shape.
Context `{Runtime}.

Lemma perturb_topology_fixed edge w r w' :
  topology_fixed w -> perturb edge w = (r, w') -> topology_fixed w'.
Proof.
  intros (Hg & Hp & Hn) Hrun. pose proof (perturb_unfold edge w) as Hu.
  destruct (latencies (self w) !! edge) as [current|].
  - cbv zeta in Hu.
    destruct (ospf_cost _) as [c|e]; rewrite Hu in Hrun; clear Hu;
      injection Hrun as <- <-; by split_and!.
  - rewrite Hu in Hrun. injection Hrun as <- <-. by split_and!.
Qed.

Lemma perturb_keys_on_links edge w r w' :
  keys_on_links w -> perturb edge w = (r, w') -> keys_on_links w'.
Proof.
  intros Hk Hrun. pose proof (perturb_unfold edge w) as Hu.
  destruct (latencies (self w) !! edge) as [current|] eqn:Hcur.
  - assert (edge ∈ connections ∨ (edge.2, edge.1) ∈ connections) as Hedge.
    { apply Hk. left. by rewrite Hcur. }
    assert (∀ k, k = edge ∨ k = (edge.2, edge.1) ->
                 k ∈ connections ∨ (k.2, k.1) ∈ connections) as Hnew.
    { intros k [->| ->]; [done|]. destruct edge; simpl in *. tauto. }
    cbv zeta in Hu.
    destruct (ospf_cost _) as [c|e]; rewrite Hu in Hrun; clear Hu;
      injection Hrun as <- <-; intros k; simpl;
      (destruct (decide (k = edge)) as [->|Hne]; [intros _; apply Hnew; by left|]);
      (destruct (decide (k = (edge.2, edge.1))) as [->|Hne'];
       [intros _; apply Hnew; by right|]);
      rewrite ?lookup_insert_ne by congruence; apply Hk.
  - rewrite Hu in Hrun. by injection Hrun as <- <-.
Qed.

Lemma NetworkSimulator_new_shape seed w :
  NetworkSimulator_new seed = (Ok tt, w) ->
  topology_fixed w ∧ keys_on_links w.
Proof.
  intros Hnew. pose proof (NetworkSimulator_new_spec seed w Hnew) as ((Hg & Hn & _) & _).
  rewrite NetworkSimulator_new_unfold in Hnew.
  destruct (for_ connections create_connection _) as [[[]|e] w3] eqn:Hconn;
    [|discriminate].
  injection Hnew as <-.
  apply for_create_connection_effect in Hconn as (_ & Hp & _ & _ & Hkeep & _);
    [|exact separate_connections].
  split; [by split_and!|].
  intros k Hsome. cbn [self latencies ospf_costs set_running] in Hsome.
  destruct (decide (k ∈ connections)) as [|Hk]; [by left|].
  destruct (decide ((k.2, k.1) ∈ connections)) as [|Hk']; [by right|].
  destruct (Hkeep k Hk Hk') as [Hl Hc]. rewrite Hl, Hc in Hsome.
  cbn [self latencies ospf_costs] in Hsome. rewrite !lookup_empty in Hsome.
  destruct Hsome as [[? [=]]|[? [=]]].
Qed.

Lemma reachable_topology_fixed w : reachable w -> topology_fixed w.
Proof.
  induction 1 as [seed w Hnew|w r w' _ IH Hpass|w edge r w' _ IH Hp|w _ IH|w n _ IH].
  - by apply NetworkSimulator_new_shape in Hnew as [? _].
  - rewrite perturbation_pass_unfold in Hpass.
    eapply (for__inv topology_fixed); [|exact IH|exact Hpass].
    intros x w1 r1 w2 _. apply perturb_topology_fixed.
  - by eapply perturb_topology_fixed.
  - exact IH.
  - exact IH.
Qed.

Lemma reachable_keys_on_links w : reachable w -> keys_on_links w.
Proof.
  induction 1 as [seed w Hnew|w r w' _ IH Hpass|w edge r w' _ IH Hp|w _ IH|w n _ IH].
  - by apply NetworkSimulator_new_shape in Hnew as [_ ?].
  - rewrite perturbation_pass_unfold in Hpass.
    eapply (for__inv keys_on_links); [|exact IH|exact Hpass].
    intros x w1 r1 w2 _. apply perturb_keys_on_links.
  - by eapply perturb_keys_on_links.
  - exact IH.
  - exact IH.
Qed.

(** X3.  Nothing the program does after the construction changes the
    topology: in every reachable world the graph is the ring of four
    routers with its three leaves, the node positions are those of
    [_initialize_network], and the node table holds the seven nodes with
    the addresses, router flags and areas given at construction. *)
Theorem topology_never_changes w :
  reachable w ->
  graph (self w) = reference_graph
  ∧ node_pos (self w) = list_to_map node_positions
  ∧ nodes (self w) = reference_nodes.
Proof. apply reachable_topology_fixed. Qed.

(** X4.  In every reachable world the latency table and the cost table
    hold an entry under a directed pair exactly when the pair is a link of
    the topology, in one direction or the other: no link lacks an entry
    and no entry is left over for a pair that is not a link. *)
Theorem tables_hold_exactly_the_links w u v :
  reachable w ->
  (is_Some (latencies (self w) !! (u, v)) ↔ topology_edge w u v)
  ∧ (is_Some (ospf_costs (self w) !! (u, v)) ↔ topology_edge w u v).
Proof.
  intros Hr. pose proof (reachable_well_formed w Hr) as Hwf.
  pose proof (reachable_keys_on_links w Hr) as Hk.
  assert (∀ a b, (a, b) ∈ connections ∨ (b, a) ∈ connections -> topology_edge w a b)
    as Hlink.
  { intros a b Hab. unfold topology_edge. destruct Hwf as (-> & _).
    destruct Hab as [Hab|Hab]; apply connections_reference_edges in Hab; simpl in Hab; tauto. }
  split; split.
  - intros Hsome. apply Hlink, (Hk (u, v)). by left.
  - by apply well_formed_latencies_present.
  - intros Hsome. apply Hlink, (Hk (u, v)). by right.
  - destruct Hwf as (Hg & _ & _ & Hc & Hcov). unfold topology_edge. rewrite Hg.
    intros [He|He].
    + by destruct (Hcov _ He).
    + rewrite (Hc u v). by destruct (Hcov _ He).
Qed.

(** X5.  A perturbation pass that runs to its end in a reachable world
    consumes one draw per edge, in the order of [edges()], and rewrites
    the four entries of every edge: the latency of the [i]-th edge becomes
    its former latency times [0.9 + (1.1 - 0.9) * u], [u] the [i]-th draw
    of the pass, in both directions, and the cost becomes the cost
    expression evaluated on that new latency, in both directions.  The
    running flag is left as it was. *)
Theorem pass_rescales_every_link w w' :
  reachable w ->
  perturbation_pass w = (Ok tt, w') ->
  random_state w' = (random_state w + 7)%nat
  ∧ _running (self w') = _running (self w)
  ∧ ∀ i u v, nx.edges (graph (self w)) !! i = Some (u, v) ->
      ∃ l c,
        latencies (self w) !! (u, v) = Some l
        ∧ let l' := (l * (0.9 + (1.1 - 0.9) * random_stream (random_state w + i)))%float in
          ospf_cost l' = Ok c
          ∧ latencies (self w') !! (u, v) = Some l'
          ∧ latencies (self w') !! (v, u) = Some l'
          ∧ ospf_costs (self w') !! (u, v) = Some c
          ∧ ospf_costs (self w') !! (v, u) = Some c.
Proof.
  intros Hr Hpass. rewrite perturbation_pass_unfold in Hpass.
  destruct (reachable_topology_fixed w Hr) as (Hg & _).
  apply for_perturb_effect in Hpass as (Hrs & _ & _ & _ & Hrun & _ & Hnew).
  - rewrite Hrs, Hg. split_and!; [by rewrite reference_edges|done|].
    rewrite <- Hg. exact Hnew.
  - rewrite Hg. exact separate_reference_edges.
Qed.

(** X6.  A construction that succeeds consumes one draw per connection, in
    the order of the [connections] list: the [i]-th connection gets the
    latency [10 + (50 - 10) * u], [u] the [i]-th draw from the position
    the generator was at, and the cost expression evaluated on it, both
    in both directions; the running flag is set. *)
Theorem construction_draws_every_link seed w :
  NetworkSimulator_new seed = (Ok tt, w) ->
  random_state w = (seed + 7)%nat
  ∧ _running (self w) = true
  ∧ ∀ i u v, connections !! i = Some (u, v) ->
      let l := (10 + (50 - 10) * random_stream (seed + i))%float in
      ∃ c, ospf_cost l = Ok c
           ∧ latencies (self w) !! (u, v) = Some l
           ∧ latencies (self w) !! (v, u) = Some l
           ∧ ospf_costs (self w) !! (u, v) = Some c
           ∧ ospf_costs (self w) !! (v, u) = Some c.
Proof.
  intros Hnew. rewrite NetworkSimulator_new_unfold in Hnew.
  destruct (for_ connections create_connection _) as [[[]|e] w3] eqn:Hconn;
    [|discriminate].
  injection Hnew as <-.
  apply for_create_connection_effect in Hconn as (Hrs & _ & _ & _ & _ & Hnew);
    [|exact separate_connections].
  cbn [self random_state latencies ospf_costs set_running _running] in *.
  split_and!; [exact Hrs|done|exact Hnew].
Qed.

End Shape.

Lemma topology_never_changes_witness :
  graph (self (drift_world 33)) = reference_graph
  ∧ node_pos (self (drift_world 33)) = list_to_map node_positions
  ∧ nodes (self (drift_world 33)) = reference_nodes.
Proof.
  apply (@topology_never_changes drift_runtime (drift_world 33)).
  apply drift_world_reachable.
Defined.

Lemma tables_hold_exactly_the_links_witness :
  (is_Some (latencies (self demo_world) !! ("N3", "R3")) ↔ topology_edge demo_world "N3" "R3")
  ∧ (is_Some (ospf_costs (self demo_world) !! ("N3", "R3"))
     ↔ topology_edge demo_world "N3" "R3").
Proof.
  apply (@tables_hold_exactly_the_links demo_runtime demo_world "N3" "R3").
  exact demo_world_reachable.
Defined.

Lemma pass_rescales_every_link_witness :
  let w' := (@perturbation_pass demo_runtime demo_world).2 in
  random_state w' = (random_state demo_world + 7)%nat
  ∧ _running (self w') = _running (self demo_world)
  ∧ ∀ i u v, nx.edges (graph (self demo_world)) !! i = Some (u, v) ->
      ∃ l c,
        latencies (self demo_world) !! (u, v) = Some l
        ∧ let l' := (l * (0.9 + (1.1 - 0.9)
                            * @random_stream demo_runtime (random_state demo_world + i)))%float in
          ospf_cost l' = Ok c
          ∧ latencies (self w') !! (u, v) = Some l'
          ∧ latencies (self w') !! (v, u) = Some l'
          ∧ ospf_costs (self w') !! (u, v) = Some c
          ∧ ospf_costs (self w') !! (v, u) = Some c.
Proof.
  apply (@pass_rescales_every_link demo_runtime demo_world).
  - exact demo_world_reachable.
  - vm_compute. reflexivity.
Defined.

Lemma construction_draws_every_link_witness :
  random_state demo_world = (0 + 7)%nat
  ∧ _running (self demo_world) = true
  ∧ ∀ i u v, connections !! i = Some (u, v) ->
      let l := (10 + (50 - 10) * @random_stream demo_runtime (0 + i))%float in
      ∃ c, ospf_cost l = Ok c
           ∧ latencies (self demo_world) !! (u, v) = Some l
           ∧ latencies (self demo_world) !! (v, u) = Some l
           ∧ ospf_costs (self demo_world) !! (u, v) = Some c
           ∧ ospf_costs (self demo_world) !! (v, u) = Some c.
Proof.
  apply (@construction_draws_every_link demo_runtime 0 demo_world).
  exact demo_world_new.
Defined.

(** ** The probes: what they leave alone, and missing entries *)

Lemma walk_nodes (G : nx.Graph Z) s p t d :
  walk G s p t d -> Forall (λ n, n ∈ nx.nodes G) p.
Proof.
  induction 1 as [Hs|p u v c d _ IH _ Hv].
  - by apply Forall_singleton.
  - apply Forall_app. split; [exact IH|by apply Forall_singleton].
Qed.

Lemma hops_of_names (p : list string) (t : string) :
  last p = Some t -> (hops_of p).*1 ++ [t] = p.
Proof.
  induction p as [|u [|v p] IH]; intros Hlast; [done|by injection Hlast as ->|].
  cbn [hops_of]. rewrite fmap_cons. cbn [app fst]. f_equal. by apply IH.
Qed.

Lemma build_ospf_graph_missing (w : World) (e : string * string) :
  e ∈ nx.edges (graph (self w)) ->
  ospf_costs (self w) !! e = None ->
  build_ospf_graph w = (Raise KeyError, w).
Proof.
  intros He Hnone. unfold build_ospf_graph. unfold bind at 1, read at 1.
  cbn beta iota. generalize (@nx.empty Z).
  induction (nx.edges (graph (self w))) as [|x es IH]; intros acc;
    [by apply elem_of_nil in He|].
  cbn [for_acc]. unfold bind at 1. unfold bind at 1, read at 1. cbn beta iota.
  unfold bind at 1, getitem at 1.
  destruct (ospf_costs (self w) !! x) as [c|] eqn:Hx.
  - unfold ret at 1. cbn beta iota. unfold ret at 1. cbn beta iota.
    apply IH. apply elem_of_cons in He as [->|He]; [congruence|done].
  - reflexivity.
Qed.

Lemma get_ospf_path_missing (w : World) (source destination : string)
    (e : string * string) :
  e ∈ nx.edges (graph (self w)) ->
  ospf_costs (self w) !! e = None ->
  get_ospf_path source destination w = (Raise KeyError, w).
Proof.
  intros He Hnone. unfold get_ospf_path, try_except. unfold bind at 1.
  by rewrite (build_ospf_graph_missing w e He Hnone).
Qed.

Lemma get_ospf_path_ends (w w' : World) (source destination : string)
    (p : list string) :
  get_ospf_path source destination w = (Ok p, w') ->
  head p = Some source ∧ last p = Some destination.
Proof.
  unfold get_ospf_path, try_except. unfold bind at 1.
  destruct (build_ospf_graph w) as [[G|e] w1]; [|by destruct e].
  unfold lift. pose proof (shortest_path_sound G source destination) as Hsp.
  destruct (nx.shortest_path G source destination) as [q|e]; [|by destruct e].
  intros [= <- _]. destruct Hsp as [d Hwalk]. by apply walk_ends in Hwalk.
Qed.

Section ProbeEffects.
Context `{Runtime}.

Lemma total_latency_of_world path w : (total_latency_of path w).2 = w.
Proof.
  unfold total_latency_of. generalize 0%float.
  induction (hops_of path) as [|h hs IH]; intros acc; [done|].
  cbn [for_acc]. unfold bind at 1. unfold bind at 1, read at 1. cbn beta iota.
  unfold bind at 1, getitem at 1.
  destruct (latencies (self w) !! h) as [l|]; [|done].
  unfold ret at 1. cbn beta iota. unfold ret at 1. cbn beta iota. apply IH.
Qed.

Lemma total_latency_of_missing path hop w :
  hop ∈ hops_of path ->
  latencies (self w) !! hop = None ->
  total_latency_of path w = (Raise KeyError, w).
Proof.
  intros Hhop Hnone. unfold total_latency_of. generalize 0%float.
  induction (hops_of path) as [|h hs IH]; intros acc;
    [by apply elem_of_nil in Hhop|].
  cbn [for_acc]. unfold bind at 1. unfold bind at 1, read at 1. cbn beta iota.
  unfold bind at 1, getitem at 1.
  destruct (latencies (self w) !! h) as [l|] eqn:Hh; [|done].
  unfold ret at 1. cbn beta iota. unfold ret at 1. cbn beta iota.
  apply IH. apply elem_of_cons in Hhop as [->|Hhop]; [congruence|done].
Qed.

(** One echo, by cases: the packet is lost, the sum over the path fails,
    or a sample is measured and the coroutine is suspended once. *)
Lemma echo_unfold path rtts w :
  echo path rtts w =
    let w1 := {| self := self w; random_state := S (random_state w) |} in
    if (random_stream (random_state w) <? 0.01)%float then (Ok (rtts ++ [None]), w1)
    else
      match (total_latency_of path w1).1 with
      | Ok total =>
          (Ok (rtts ++ [Some (max0 (total + (-2 + (2 - -2)
                                               * random_stream (S (random_state w)))))]),
           other_tasks {| self := self w; random_state := S (S (random_state w)) |})
      | Raise _ => (Ok (rtts ++ [None]), w1)
      end.
Proof.
  unfold echo, try_except. unfold bind at 1, random_random at 1. cbn beta iota zeta.
  unfold bind at 1.
  destruct (_ <? 0.01)%float; [reflexivity|].
  unfold ret at 1. cbn beta iota. unfold bind at 1.
  pose proof (total_latency_of_world path
                {| self := self w; random_state := S (random_state w) |}) as Hw.
  destruct (total_latency_of path _) as [[total|e] w2]; simpl in Hw; subst w2.
  - reflexivity.
  - by destruct e.
Qed.

Lemma echo_frame (P : NetworkSimulator -> Prop) path rtts w :
  (∀ w, P (self w) -> P (self (other_tasks w))) ->
  P (self w) -> P (self (echo path rtts w).2).
Proof.
  intros Hstable Hw. rewrite echo_unfold. cbv zeta.
  destruct (_ <? 0.01)%float; [exact Hw|].
  destruct (total_latency_of path _).1; [|exact Hw].
  apply Hstable. exact Hw.
Qed.

Lemma ping_frame (P : NetworkSimulator -> Prop) source destination count w :
  (∀ w, P (self w) -> P (self (other_tasks w))) ->
  P (self w) -> P (self (ping source destination count w).2).
Proof.
  intros Hstable Hw. unfold ping. unfold bind at 1, read at 1. cbn beta iota zeta.
  destruct (_ && _); [|exact Hw].
  unfold bind at 1. pose proof (get_ospf_path_world source destination w) as Hsame.
  destruct (get_ospf_path source destination w) as [[path|e] w1]; simpl in Hsame;
    subst w1; [|exact Hw].
  unfold bind at 1.
  destruct (for_acc _ _ _ w) as [[rtts|e] w2] eqn:Hloop.
  - unfold ret. cbn [snd].
    eapply (for_acc_inv (λ w, P (self w))); [|exact Hw|exact Hloop].
    intros acc x w3 r w4 Hw3 Hecho. cbn beta in Hecho.
    pose proof (echo_frame P path acc w3 Hstable Hw3) as Hf.
    by rewrite Hecho in Hf.
  - cbn [snd].
    eapply (for_acc_inv (λ w, P (self w))); [|exact Hw|exact Hloop].
    intros acc x w3 r w4 Hw3 Hecho. cbn beta in Hecho.
    pose proof (echo_frame P path acc w3 Hstable Hw3) as Hf.
    by rewrite Hecho in Hf.
Qed.

Lemma traceroute_frame (P : NetworkSimulator -> Prop) source destination w :
  (∀ w, P (self w) -> P (self (other_tasks w))) ->
  P (self w) -> P (self (traceroute source destination w).2).
Proof.
  intros Hstable Hw. unfold traceroute. unfold bind at 1, read at 1. cbn beta iota zeta.
  destruct (_ && _); [|exact Hw].
  unfold try_except. unfold bind at 1.
  pose proof (get_ospf_path_world source destination w) as Hsame.
  destruct (get_ospf_path source destination w) as [[path|e] w1]; simpl in Hsame;
    subst w1; [|exact Hw].
  unfold bind at 1.
  assert (∀ acc r w2,
    for_acc (hops_of path) acc (λ hops hop,
      let* table := read latencies in
      let* latency := getitem table hop in
      asyncio_sleep 0.1 ;;
      ret (hops ++ [(hop.1, Float latency)])) w = (r, w2) -> P (self w2)) as Hloop.
  { intros acc r w2. apply (for_acc_inv (λ w, P (self w))); [|exact Hw].
    clear -Hstable. intros acc hop w r w' Hw. unfold bind at 1, read at 1. cbn beta iota.
    unfold bind at 1, getitem at 1.
    destruct (latencies (self w) !! hop) as [l|]; [|by intros [= _ <-]].
    unfold ret at 1. cbn beta iota. unfold bind at 1, asyncio_sleep at 1.
    cbn beta iota. unfold ret. intros [= _ <-]. by apply Hstable. }
  destruct (for_acc _ _ _ w) as [[hops|e] w2] eqn:Hrun.
  - unfold ret. cbn [snd]. by eapply Hloop.
  - unfold ret. cbn [snd]. by eapply Hloop.
Qed.

(** Echoes over a path with a hop that has no latency entry. *)
Lemma ping_loop_unmeasured path hop n rtts w :
  hop ∈ hops_of path ->
  latencies (self w) !! hop = None ->
  for_acc (replicate n tt) rtts (λ rtts _, echo path rtts) w
  = (Ok (rtts ++ replicate n None),
     {| self := self w; random_state := (random_state w + n)%nat |}).
Proof.
  intros Hhop Hnone. revert rtts w Hnone.
  induction n as [|n IH]; intros rtts w Hnone.
  - simpl. unfold ret. rewrite app_nil_r, Nat.add_0_r. by destruct w.
  - cbn [replicate for_acc]. unfold bind at 1. rewrite echo_unfold. cbv zeta.
    rewrite (total_latency_of_missing path hop) by done. cbn [fst].
    assert (∀ (b : bool) (x : result (list (option num)) * World),
              (if b then x else x) = x) as Hif by (by intros []).
    rewrite Hif. rewrite IH by done. cbn [self random_state].
    rewrite <- app_assoc. cbn [app]. by rewrite Nat.add_succ_r.
Qed.

Lemma traceroute_loop_unmeasured hs hop acc w :
  adds_no_latency ->
  hop ∈ hs ->
  latencies (self w) !! hop = None ->
  ∃ w', for_acc hs acc (λ hops hop,
          let* table := read latencies in
          let* latency := getitem table hop in
          asyncio_sleep 0.1 ;;
          ret (hops ++ [(hop.1, Float latency)])) w
        = (Raise KeyError, w').
Proof.
  intros Hadds. revert acc w. induction hs as [|h hs IH]; intros acc w Hhop Hnone;
    [by apply elem_of_nil in Hhop|].
  cbn [for_acc]. unfold bind at 1. unfold bind at 1, read at 1. cbn beta iota.
  unfold bind at 1, getitem at 1.
  destruct (latencies (self w) !! h) as [l|] eqn:Hh; [|by eexists].
  unfold ret at 1. cbn beta iota. unfold bind at 1, asyncio_sleep at 1.
  cbn beta iota. unfold ret at 1. cbn beta iota.
  apply IH; [|by apply Hadds].
  apply elem_of_cons in Hhop as [->|Hhop]; [congruence|done].
Qed.

(** The names recorded by the loop of [traceroute] are the first nodes of
    the hops it went through. *)
Lemma traceroute_loop_names hs acc w out w' :
  for_acc hs acc (λ hops hop,
    let* table := read latencies in
    let* latency := getitem table hop in
    asyncio_sleep 0.1 ;;
    ret (hops ++ [(hop.1, Float latency)])) w = (Ok out, w') ->
  out.*1 = acc.*1 ++ hs.*1.
Proof.
  revert acc w. induction hs as [|h hs IH]; intros acc w.
  - simpl. unfold ret. intros [= <- _]. by rewrite app_nil_r.
  - cbn [for_acc]. unfold bind at 1. unfold bind at 1, read at 1. cbn beta iota.
    unfold bind at 1, getitem at 1.
    destruct (latencies (self w) !! h) as [l|]; [|done].
    unfold ret at 1. cbn beta iota. unfold bind at 1, asyncio_sleep at 1.
    cbn beta iota. unfold ret at 1. cbn beta iota.
    intros Hrun. rewrite (IH _ _ Hrun), fmap_app, fmap_cons, <- app_assoc. done.
Qed.

(** Every node of a path resolved in a reachable world is a key of the
    node table. *)
Lemma resolved_nodes_known (w w' : World) (source destination : string)
    (p : list string) :
  reachable w ->
  get_ospf_path source destination w = (Ok p, w') ->
  Forall (λ n, is_Some (nodes (self w) !! n)) p.
Proof.
  intros Hr Hpath. pose proof (reachable_well_formed w Hr) as Hwf.
  rewrite get_ospf_path_unfold in Hpath by (by apply well_formed_costs_present).
  pose proof (shortest_path_sound (ospf_graph_of w) source destination) as Hsp.
  destruct (nx.shortest_path _ _ _) as [q|e]; [|by destruct e].
  injection Hpath as -> _. destruct Hsp as [d Hwalk].
  apply walk_nodes in Hwalk. eapply Forall_impl; [exact Hwalk|].
  intros n Hn. cbn beta in Hn. apply node_linked in Hn.
  by apply well_formed_linked.
Qed.

(** X7.  The probes only read the simulator: every property of the
    simulator object that the other tasks preserve while a probe is
    suspended still holds when [ping] or [traceroute] is over, whatever
    the arguments and the outcome.  In particular, when no other task
    runs, the object is exactly as it was. *)
Theorem probes_only_read (P : NetworkSimulator -> Prop)
    (source destination : string) (count : option Z) (w : World) :
  (∀ w, P (self w) -> P (self (other_tasks w))) ->
  P (self w) ->
  P (self (ping source destination count w).2)
  ∧ P (self (traceroute source destination w).2).
Proof.
  intros Hstable Hw. split; [by apply ping_frame|by apply traceroute_frame].
Qed.

(** X8.  When one edge of the graph has no cost entry, no path at all can
    be resolved, whatever the endpoints: [get_ospf_path] lets the
    [KeyError] of the lookup escape, [ping] passes it on to its caller,
    and [traceroute] turns it into its empty result. *)
Theorem missing_cost_breaks_resolution (w : World) (source destination : string)
    (count : option Z) (e : string * string) :
  e ∈ nx.edges (graph (self w)) ->
  ospf_costs (self w) !! e = None ->
  get_ospf_path source destination w = (Raise KeyError, w)
  ∧ (is_Some (nodes (self w) !! source) ->
     is_Some (nodes (self w) !! destination) ->
     ping source destination count w = (Raise KeyError, w)
     ∧ traceroute source destination w = (Ok ([], []), w)).
Proof.
  intros He Hnone.
  pose proof (get_ospf_path_missing w source destination e He Hnone) as Hpath.
  split; [exact Hpath|]. intros Hs Hd.
  split; [by apply ping_unresolved|by eapply traceroute_unresolved].
Qed.

(** X9.  When a hop of the resolved path has no latency entry, [ping]
    still returns normally: every echo ends in the broad [except] branch
    (or in a simulated loss), so all the samples are [None]; each echo
    consumes one draw, none is followed by a suspension, and the path is
    returned as resolved. *)
Theorem ping_over_unmeasured_hop (w : World) (source destination : string)
    (path : list string) (hop : string * string) (N : Z) :
  is_Some (nodes (self w) !! source) ->
  is_Some (nodes (self w) !! destination) ->
  get_ospf_path source destination w = (Ok path, w) ->
  hop ∈ hops_of path ->
  latencies (self w) !! hop = None ->
  ping source destination (Some N) w
  = (Ok (replicate (Z.to_nat N) None, path),
     {| self := self w; random_state := (random_state w + Z.to_nat N)%nat |}).
Proof.
  intros Hs Hd Hpath Hhop Hnone. unfold ping, bind, read. cbn beta iota zeta.
  rewrite !bool_decide_eq_true_2 by done. cbn [andb].
  rewrite Hpath. cbn [default].
  by rewrite (ping_loop_unmeasured path hop) by done.
Qed.

(** X10.  When a hop of the resolved path has no latency entry, and no
    other task adds one meanwhile, [traceroute] gives up the hops it has
    already recorded and returns its empty result. *)
Theorem traceroute_over_unmeasured_hop (w : World) (source destination : string)
    (path : list string) (hop : string * string) :
  adds_no_latency ->
  is_Some (nodes (self w) !! source) ->
  is_Some (nodes (self w) !! destination) ->
  get_ospf_path source destination w = (Ok path, w) ->
  hop ∈ hops_of path ->
  latencies (self w) !! hop = None ->
  (traceroute source destination w).1 = Ok ([], []).
Proof.
  intros Hadds Hs Hd Hpath Hhop Hnone.
  unfold traceroute. unfold bind at 1, read at 1. cbn beta iota.
  rewrite !bool_decide_eq_true_2 by done. cbn [andb].
  unfold try_except. unfold bind at 1. rewrite Hpath.
  unfold bind at 1.
  destruct (traceroute_loop_unmeasured (hops_of path) hop [] w Hadds Hhop Hnone)
    as [w' ->].
  reflexivity.
Qed.

(** X11.  Whenever [traceroute] returns, the names of its hop records are
    exactly the nodes of the path it returns, in order (both are empty
    when it gave up); and in a reachable world every one of them is a key
    of the node table, so that the caller's lookup of a hop's node cannot
    fail. *)
Theorem traceroute_names_its_path (w w' : World) (source destination : string)
    (hops : list (string * num)) (path : list string) :
  traceroute source destination w = (Ok (hops, path), w') ->
  hops.*1 = path
  ∧ (reachable w -> Forall (λ n, is_Some (nodes (self w) !! n)) path).
Proof.
  unfold traceroute. unfold bind at 1, read at 1. cbn beta iota.
  destruct (_ && _); [|discriminate].
  unfold try_except. unfold bind at 1.
  pose proof (get_ospf_path_world source destination w) as Hsame.
  destruct (get_ospf_path source destination w) as [[p|e] w1] eqn:Hpath;
    simpl in Hsame; subst w1;
    [|unfold ret; intros [= <- <- _]; split; [done|intros _; apply Forall_nil_2]].
  unfold bind at 1.
  destruct (for_acc _ _ _ w) as [[recs|e] w2] eqn:Hloop;
    [|unfold ret; intros [= <- <- _]; split; [done|intros _; apply Forall_nil_2]].
  unfold ret. intros [= <- <- _].
  apply traceroute_loop_names in Hloop.
  pose proof (get_ospf_path_ends _ _ _ _ _ Hpath) as [_ Hlast].
  split.
  - rewrite fmap_app, Hloop. cbn [fmap list_fmap app fst].
    by apply hops_of_names.
  - intros Hr. by eapply resolved_nodes_known.
Qed.

End ProbeEffects.

Lemma probes_only_read_witness :
  self (@ping demo_runtime "N1" "N2" None demo_world).2 = self demo_world
  ∧ self (@traceroute demo_runtime "N1" "N2" demo_world).2 = self demo_world.
Proof.
  apply (@probes_only_read demo_runtime (λ s, s = self demo_world) "N1" "N2" None demo_world).
  - intros w Hw. exact Hw.
  - reflexivity.
Defined.

Lemma missing_cost_breaks_resolution_witness :
  get_ospf_path "R1" "R2" unpriced_world = (Raise KeyError, unpriced_world)
  ∧ @ping demo_runtime "R1" "R2" None unpriced_world = (Raise KeyError, unpriced_world)
  ∧ @traceroute demo_runtime "R1" "R2" unpriced_world = (Ok ([], []), unpriced_world).
Proof.
  destruct (@missing_cost_breaks_resolution demo_runtime unpriced_world "R1" "R2" None
              ("R3", "N3")) as [Hpath Hprobes].
  - vm_compute. repeat constructor.
  - vm_compute. reflexivity.
  - split; [exact Hpath|]. apply Hprobes; vm_compute; eexists; reflexivity.
Defined.

Lemma ping_over_unmeasured_hop_witness :
  @ping demo_runtime "R1" "N3" (Some 3) unmeasured_world
  = (Ok ([None; None; None], ["R1"; "R4"; "R3"; "N3"]),
     {| self := self unmeasured_world;
        random_state := (random_state unmeasured_world + Z.to_nat 3)%nat |}).
Proof.
  apply (@ping_over_unmeasured_hop demo_runtime unmeasured_world "R1" "N3"
           ["R1"; "R4"; "R3"; "N3"] ("R3", "N3") 3).
  - vm_compute. eexists. reflexivity.
  - vm_compute. eexists. reflexivity.
  - vm_compute. reflexivity.
  - vm_compute. repeat constructor.
  - vm_compute. reflexivity.
Defined.

Lemma traceroute_over_unmeasured_hop_witness :
  (@traceroute demo_runtime "R1" "N3" unmeasured_world).1 = Ok ([], []).
Proof.
  apply (@traceroute_over_unmeasured_hop demo_runtime unmeasured_world "R1" "N3"
           ["R1"; "R4"; "R3"; "N3"] ("R3", "N3")).
  - intros w k Hk. exact Hk.
  - vm_compute. eexists. reflexivity.
  - vm_compute. eexists. reflexivity.
  - vm_compute. reflexivity.
  - vm_compute. repeat constructor.
  - vm_compute. reflexivity.
Defined.

Lemma traceroute_names_its_path_witness :
  [("R1", Float 40); ("R4", Float 33.333333333333336); ("R3", Float 45);
   ("N3", Int 0)].*1 = ["R1"; "R4"; "R3"; "N3"]
  ∧ Forall (λ n, is_Some (nodes (self demo_world) !! n)) ["R1"; "R4"; "R3"; "N3"].
Proof.
  destruct (@traceroute_names_its_path demo_runtime demo_world
              (@traceroute demo_runtime "R1" "N3" demo_world).2 "R1" "N3"
              [("R1", Float 40); ("R4", Float 33.333333333333336); ("R3", Float 45);
               ("N3", Int 0)]
              ["R1"; "R4"; "R3"; "N3"]) as [Hnames Hknown].
  - vm_compute. reflexivity.
  - split; [exact Hnames|]. apply Hknown. exact demo_world_reachable.
Defined.

(** ** Resolved routes: no node twice, and the same cost both ways *)

Section SimplePaths.
Implicit Types (todo : list string) (seen : gmap string (Z * list string)).

Lemma relax_simple d p todo seen e :
  simple_paths todo seen ->
  NoDup p -> (∀ x, x ∈ p -> x ∉ todo) ->
  simple_paths todo (nx.relax d p todo seen e).
Proof.
  intros Hinv Hnd Hclosed. destruct e as [u c]. unfold nx.relax.
  case_bool_decide as Hu; [|done].
  assert (simple_paths todo (<[u := (d + c, p ++ [u])]> seen)) as Hnew.
  { intros v dv pv. rewrite lookup_insert. case_decide as Hv; [|apply Hinv].
    subst v. intros [= <- <-]. split_and!.
    - apply NoDup_app. split_and!; [done| |apply NoDup_singleton].
      intros x Hx ->%list_elem_of_singleton. by apply (Hclosed u).
    - by rewrite last_snoc.
    - intros x [Hx| ->%list_elem_of_singleton]%elem_of_app Hne; [by apply Hclosed|done]. }
  destruct (seen !! u) as [[du pu]|]; [|done].
  by destruct (d + c <? du).
Qed.

Lemma relax_all_simple d p todo seen es :
  simple_paths todo seen ->
  NoDup p -> (∀ x, x ∈ p -> x ∉ todo) ->
  simple_paths todo (foldl (nx.relax d p todo) seen es).
Proof.
  intros Hinv Hnd Hclosed. revert seen Hinv.
  induction es as [|e es IH]; intros seen Hinv; [done|].
  simpl. apply IH. by apply relax_simple.
Qed.

Lemma dijkstra_simple fuel G t todo seen p :
  simple_paths todo seen ->
  nx.dijkstra fuel G t todo seen = Ok p -> NoDup p.
Proof.
  revert todo seen. induction fuel as [|fuel IH]; intros todo seen Hinv; [done|].
  simpl. destruct (nx.closest todo seen) as [[v [d pv]]|] eqn:Hc; [|done].
  apply closest_Some in Hc as (Hv & Hseen & _).
  destruct (Hinv _ _ _ Hseen) as (Hnd & Hlast & Hclosed).
  destruct (decide (v = t)) as [->|Hne]; [by intros [= <-]|].
  apply IH. apply relax_all_simple; [|done|].
  - intros u du pu Hu. destruct (Hinv _ _ _ Hu) as (? & ? & Hcl).
    split; [done|split; [done|]].
    intros x Hx Hxu Hf. apply list_elem_of_filter in Hf as [_ Hin].
    by apply (Hcl x).
  - intros x Hx Hf. apply list_elem_of_filter in Hf as [Hxv Hin].
    by apply (Hclosed x).
Qed.

Lemma shortest_path_simple (G : nx.Graph Z) (s t : string) (p : list string) :
  nx.shortest_path G s t = Ok p -> NoDup p.
Proof.
  unfold nx.shortest_path. destruct (_ && _); [|done].
  apply dijkstra_simple. intros v d q [<- [= <- <-]]%lookup_singleton_Some.
  split_and!; [apply NoDup_singleton|done|].
  by intros x ->%list_elem_of_singleton.
Qed.

End SimplePaths.

Lemma get_ospf_path_simple (w w' : World) (source destination : string)
    (p : list string) :
  get_ospf_path source destination w = (Ok p, w') -> NoDup p.
Proof.
  unfold get_ospf_path, try_except. unfold bind at 1.
  destruct (build_ospf_graph w) as [[G|e] w1]; [|by destruct e].
  unfold lift. pose proof (shortest_path_simple G source destination) as Hsp.
  destruct (nx.shortest_path G source destination) as [q|e]; [|by destruct e].
  intros [= <- _]. by apply Hsp.
Qed.

(** *** Reversing a path *)

Lemma hops_of_cons (u v : string) (p : list string) :
  hops_of (u :: v :: p) = (u, v) :: hops_of (v :: p).
Proof. reflexivity. Qed.

Lemma hops_of_reverse (p : list string) :
  hops_of (reverse p) = reverse ((λ h, (h.2, h.1)) <$> hops_of p).
Proof.
  induction p as [|u [|v p] IH]; [done|done|].
  rewrite hops_of_cons, fmap_cons, !reverse_cons. cbn [fst snd].
  rewrite <- IH, <- reverse_cons.
  rewrite (hops_of_snoc (reverse (v :: p)) v u); [done|].
  by rewrite last_reverse.
Qed.

Lemma sum_costs_app (f : string * string -> Z) (l l' : list (string * string)) :
  foldr (λ hop acc, f hop + acc) 0 (l ++ l')
  = foldr (λ hop acc, f hop + acc) 0 l + foldr (λ hop acc, f hop + acc) 0 l'.
Proof. induction l as [|h l IH]; simpl; lia. Qed.

Lemma sum_costs_reverse (f : string * string -> Z) (l : list (string * string)) :
  foldr (λ hop acc, f hop + acc) 0 (reverse l) = foldr (λ hop acc, f hop + acc) 0 l.
Proof.
  induction l as [|h l IH]; [done|].
  rewrite reverse_cons, sum_costs_app, IH. simpl. lia.
Qed.

Section Reversal.
Variable w : World.
Hypothesis Hcosts : costs_ok w.

Lemma topology_edge_cost (u v : string) :
  topology_edge w u v ->
  ospf_costs (self w) !! (v, u) = ospf_costs (self w) !! (u, v).
Proof.
  intros [He|He]; destruct (costs_ok_edge w Hcosts _ He) as (c & H1 & H2 & _);
    simpl in *; congruence.
Qed.

Lemma reverse_is_path (s t : string) (p : list string) :
  is_path w s t p -> is_path w t s (reverse p).
Proof.
  intros Hp. destruct (path_is_walk w s t p Hp) as [d Hwalk].
  apply walk_node, node_linked in Hwalk.
  destruct Hp as (Hhead & Hlast & _ & Hhops).
  split_and!; [by rewrite head_reverse|by rewrite last_reverse|done|].
  rewrite hops_of_reverse. apply Forall_reverse, Forall_fmap.
  eapply Forall_impl; [exact Hhops|].
  intros [a b] [?|?]; [by right|by left].
Qed.

Lemma reverse_path_cost (s t : string) (p : list string) :
  is_path w s t p -> path_cost w (reverse p) = path_cost w p.
Proof.
  intros (_ & _ & _ & Hhops). unfold path_cost.
  rewrite hops_of_reverse, sum_costs_reverse.
  induction Hhops as [|[a b] l Hab _ IH]; [done|].
  rewrite fmap_cons. cbn [foldr fst snd]. rewrite IH.
  by rewrite (topology_edge_cost a b Hab).
Qed.

(** The path [get_ospf_path] returns is a cheapest one. *)
Lemma get_ospf_path_cheapest (s t : string) (p : list string) :
  get_ospf_path s t w = (Ok p, w) ->
  is_path w s t p ∧ ∀ q, is_path w s t q -> path_cost w p <= path_cost w q.
Proof.
  rewrite get_ospf_path_unfold by (by apply costs_ok_present).
  pose proof (shortest_path_spec (ospf_graph_of w) s t (ospf_graph_nonneg w Hcosts))
    as Hsp.
  destruct (nx.shortest_path _ _ _) as [p'|e]; [|by destruct e].
  intros [= ->]. destruct Hsp as (d & Hwalk & Hmin).
  split; [by eapply walk_is_path|].
  intros q Hq. destruct (path_is_walk w s t q Hq) as [c Hq'].
  rewrite (walk_path_cost w Hcosts _ _ _ _ Hwalk), (walk_path_cost w Hcosts _ _ _ _ Hq').
  by eapply Hmin.
Qed.

End Reversal.

(** X12.  Routes cost the same in both directions: when every edge has a
    cost, the same in both directions and not negative, and a path from
    [source] to [destination] is resolved, then the opposite request
    resolves too, and the total cost of the path it returns is the total
    cost of the first one.  (The two paths need not be each other's
    reverse.) *)
Theorem resolve_costs_the_same_both_ways (w : World) (source destination : string)
    (p : list string) :
  costs_ok w ->
  get_ospf_path source destination w = (Ok p, w) ->
  ∃ q, get_ospf_path destination source w = (Ok q, w)
       ∧ path_cost w q = path_cost w p.
Proof.
  intros Hc Hp. destruct (get_ospf_path_cheapest w Hc _ _ _ Hp) as [Hpath Hmin].
  pose proof (reverse_is_path w _ _ _ Hpath) as Hrev.
  destruct (get_ospf_path_resolves w destination source (reverse p) Hc Hrev)
    as (q & Hq & _).
  exists q. split; [exact Hq|].
  destruct (get_ospf_path_cheapest w Hc _ _ _ Hq) as [Hqpath Hqmin].
  specialize (Hqmin _ Hrev). rewrite (reverse_path_cost w Hc _ _ _ Hpath) in Hqmin.
  specialize (Hmin _ (reverse_is_path w _ _ _ Hqpath)).
  rewrite (reverse_path_cost w Hc _ _ _ Hqpath) in Hmin. lia.
Qed.

Lemma resolve_costs_the_same_both_ways_witness :
  ∃ q, get_ospf_path "N3" "R1" demo_world = (Ok q, demo_world)
       ∧ path_cost demo_world q = path_cost demo_world ["R1"; "R4"; "R3"; "N3"].
Proof.
  apply (resolve_costs_the_same_both_ways demo_world "R1" "N3" ["R1"; "R4"; "R3"; "N3"]).
  - exact demo_world_costs_ok.
  - vm_compute. reflexivity.
Defined.

(** X13.  A resolved path never visits a node twice (with
    [networkx.shortest_path] modelled as Dijkstra's algorithm); in a
    reachable world it therefore has at most seven nodes, and so have the
    paths and hop lists that [ping] and [traceroute] return. *)
Theorem resolved_path_is_simple `{Runtime} (w w' : World) (source destination : string)
    (p : list string) :
  get_ospf_path source destination w = (Ok p, w') ->
  NoDup p ∧ (reachable w -> (length p <= 7)%nat).
Proof.
  intros Hpath. pose proof (get_ospf_path_simple _ _ _ _ _ Hpath) as Hnd.
  split; [exact Hnd|]. intros Hr.
  pose proof (resolved_nodes_known _ _ _ _ _ Hr Hpath) as Hknown.
  destruct (reachable_well_formed w Hr) as (_ & Hn & _). rewrite Hn in Hknown.
  change 7%nat with (length ["R1"; "R2"; "R3"; "R4"; "N1"; "N2"; "N3"]).
  apply submseteq_length, NoDup_submseteq; [exact Hnd|].
  intros x Hx. apply reference_nodes_known.
  by apply (proj1 (Forall_forall _ _) Hknown).
Qed.

Lemma resolved_path_is_simple_witness :
  NoDup ["R1"; "R4"; "R3"; "N3"] ∧ (length ["R1"; "R4"; "R3"; "N3"] <= 7)%nat.
Proof.
  destruct (@resolved_path_is_simple demo_runtime demo_world demo_world "R1" "N3"
              ["R1"; "R4"; "R3"; "N3"]) as [Hnd Hlen].
  - vm_compute. reflexivity.
  - split; [exact Hnd|]. apply Hlen. exact demo_world_reachable.
Defined.

(** ** The updater: when it returns, and how it dies *)

Lemma for__raise {A : Type} (l : list A) (body : A -> M unit) (w w' : World) (e : exn) :
  for_ l body w = (Raise e, w') ->
  ∃ done x rest w1,
    l = done ++ x :: rest
    ∧ for_ done body w = (Ok tt, w1)
    ∧ body x w1 = (Raise e, w').
Proof.
  revert w. induction l as [|x l IH]; intros w Hrun; [done|].
  cbn [for_] in Hrun. unfold bind at 1 in Hrun.
  destruct (body x w) as [[[]|e1] w1] eqn:Hx.
  - destruct (IH _ Hrun) as (done & y & rest & w2 & -> & Hdone & Hy).
    exists (x :: done), y, rest, w2. split_and!; [done| |done].
    cbn [for_]. unfold bind at 1. by rewrite Hx.
  - injection Hrun as <- <-. by exists [], x, l, w.
Qed.

Lemma separate_app_l (l l' : list (string * string)) :
  separate (l ++ l') -> separate l.
Proof.
  unfold separate. rewrite fmap_app. intros Hnd.
  apply (sublist_NoDup _ _ Hnd).
  apply sublist_app; apply sublist_inserts_r; reflexivity.
Qed.

Lemma separate_middle (done rest : list (string * string)) (x : string * string) :
  separate (done ++ x :: rest) ->
  (x ∉ done) ∧ ((x.2, x.1) ∉ done) ∧ x ≠ (x.2, x.1).
Proof.
  intros Hsep.
  assert ((done ++ x :: rest) !! length done = Some x) as Hx.
  { by apply list_lookup_middle. }
  assert (∀ k, k = x ∨ k = (x.2, x.1) -> k ∉ done) as Hfresh.
  { intros k Hk [j Hj]%list_elem_of_lookup_1.
    pose proof (lookup_lt_Some _ _ _ Hj) as Hlt.
    assert (j = length done); [|lia].
    eapply (separate_lookup _ (length done) x k Hsep Hx Hk j k); [|by left].
    by rewrite lookup_app_l. }
  split_and!; [apply Hfresh; by left|apply Hfresh; by right|].
  intros Heq. unfold separate in Hsep.
  rewrite fmap_app, fmap_cons in Hsep.
  apply NoDup_app in Hsep as (_ & Hdisj & _).
  apply (Hdisj x).
  - apply elem_of_app. right. left.
  - apply elem_of_app. right. rewrite <- Heq. left.
Qed.

Lemma ospf_cost_errors (l : float) (e : exn) :
  ospf_cost l = Raise e ->
  e = ZeroDivisionError ∨ e = OverflowError
  ∨ e = ValueError "cannot convert float NaN to integer".
Proof.
  unfold ospf_cost, float_truediv, int_of_float.
  destruct (10 =? 0)%float; [intros [= <-]; by left|].
  destruct (_ =? 0)%float; [intros [= <-]; by left|].
  destruct (Prim2SF _); intros [= <-]; auto.
Qed.

Section UpdaterLife.
Context `{Runtime}.

Lemma perturbation_pass_running w :
  _running (self (perturbation_pass w).2) = _running (self w).
Proof.
  destruct (perturbation_pass w) as [r w'] eqn:Hpass.
  rewrite perturbation_pass_unfold in Hpass. cbn [snd].
  eapply (for__inv (λ w1, _running (self w1) = _running (self w)));
    [|reflexivity|exact Hpass].
  intros x w1 r1 w2 _ Hw1 Hx. pose proof (perturb_running x w1) as Hp.
  rewrite Hx in Hp. simpl in Hp. congruence.
Qed.

Lemma update_latencies_keeps_looping fuel w :
  keeps_flag -> _running (self w) = true ->
  (update_latencies fuel w).1 ≠ Ok (Some tt).
Proof.
  intros Hkeep. revert w. induction fuel as [|fuel IH]; intros w Hw; [done|].
  rewrite update_latencies_running by done.
  pose proof (perturbation_pass_running w) as Hp.
  destruct (perturbation_pass w) as [[[]|e] w']; [|done].
  apply IH. rewrite Hkeep. simpl in Hp. congruence.
Qed.

(** X14.  The updater returns only when it has been stopped, and then
    without having done anything: as long as no other task clears the
    running flag, a call of [update_latencies] that returns has found the
    flag cleared at its very first test, and has left the world as it
    was.  With the flag set it loops for ever or dies of an exception. *)
Theorem updater_returns_only_when_stopped (fuel : nat) (w : World) :
  keeps_flag ->
  (update_latencies fuel w).1 = Ok (Some tt) ->
  _running (self w) = false
  ∧ update_latencies fuel w = (Ok (Some tt), w).
Proof.
  intros Hkeep Hret. destruct (_running (self w)) eqn:Hw.
  - by apply (update_latencies_keeps_looping fuel w Hkeep) in Hw.
  - split; [done|]. destruct fuel as [|fuel]; [done|].
    by apply update_latencies_stopped.
Qed.

(** X15.  A perturbation pass over a graph whose edges all have a latency
    entry can only die of the cost expression, never of a missing key:
    the exception is a division by zero, an overflow or the conversion of
    a NaN, raised on the latency just written for some edge.  That
    latency stays in the table, in both directions, while the cost of the
    edge is still the one from before the pass. *)
Theorem pass_dies_of_the_cost_only (w w' : World) (e : exn) :
  separate (nx.edges (graph (self w))) ->
  Forall (λ edge, is_Some (latencies (self w) !! edge)) (nx.edges (graph (self w))) ->
  perturbation_pass w = (Raise e, w') ->
  (e = ZeroDivisionError ∨ e = OverflowError
   ∨ e = ValueError "cannot convert float NaN to integer")
  ∧ ∃ u v l,
      (u, v) ∈ nx.edges (graph (self w))
      ∧ latencies (self w') !! (u, v) = Some l
      ∧ latencies (self w') !! (v, u) = Some l
      ∧ ospf_cost l = Raise e
      ∧ ospf_costs (self w') !! (u, v) = ospf_costs (self w) !! (u, v)
      ∧ ospf_costs (self w') !! (v, u) = ospf_costs (self w) !! (v, u).
Proof.
  intros Hsep Hcov Hpass. rewrite perturbation_pass_unfold in Hpass.
  apply for__raise in Hpass as (done & x & rest & w1 & Hsplit & Hdone & Hx).
  rewrite Hsplit in Hsep, Hcov.
  destruct (separate_middle _ _ _ Hsep) as (Hfresh & Hfresh' & Hne).
  apply separate_app_l in Hsep.
  apply for_perturb_effect in Hdone as (_ & _ & _ & _ & _ & Hkeep & _); [|exact Hsep].
  destruct (Hkeep x Hfresh Hfresh') as [Hlx Hcx].
  destruct (Hkeep (x.2, x.1)) as [_ Hcx']; [done|by destruct x|].
  apply Forall_app in Hcov as [_ [[current Hcur] _]%Forall_cons].
  pose proof (perturb_unfold x w1) as Hu. rewrite Hlx, Hcur in Hu. cbv zeta in Hu.
  destruct (ospf_cost _) as [c|e'] eqn:Hcost; rewrite Hu in Hx; [discriminate Hx|].
  injection Hx as <- <-. split; [by eapply ospf_cost_errors|].
  destruct x as [u v]. cbn [fst snd] in *.
  eexists u, v, _. split_and!.
  - rewrite Hsplit. apply elem_of_app. right. left.
  - cbn [self latencies set_latencies].
    rewrite lookup_insert_ne by (intros Heq; by apply Hne).
    by rewrite lookup_insert_eq.
  - cbn [self latencies set_latencies]. by rewrite lookup_insert_eq.
  - exact Hcost.
  - exact Hcx.
  - exact Hcx'.
Qed.

End UpdaterLife.

Lemma updater_returns_only_when_stopped_witness :
  _running (self (stop demo_world).2) = false
  ∧ @update_latencies demo_runtime 3 (stop demo_world).2
    = (Ok (Some tt), (stop demo_world).2).
Proof.
  apply (@updater_returns_only_when_stopped demo_runtime 3 (stop demo_world).2).
  - intros w. reflexivity.
  - vm_compute. reflexivity.
Defined.

Lemma pass_dies_of_the_cost_only_witness :
  let w' := (@perturbation_pass demo_runtime frozen_world).2 in
  (ZeroDivisionError = ZeroDivisionError ∨ ZeroDivisionError = OverflowError
   ∨ ZeroDivisionError = ValueError "cannot convert float NaN to integer")
  ∧ ∃ u v l,
      (u, v) ∈ nx.edges (graph (self frozen_world))
      ∧ latencies (self w') !! (u, v) = Some l
      ∧ latencies (self w') !! (v, u) = Some l
      ∧ ospf_cost l = Raise ZeroDivisionError
      ∧ ospf_costs (self w') !! (u, v) = ospf_costs (self frozen_world) !! (u, v)
      ∧ ospf_costs (self w') !! (v, u) = ospf_costs (self frozen_world) !! (v, u).
Proof.
  apply (@pass_dies_of_the_cost_only demo_runtime frozen_world).
  - apply (bool_decide_unpack _). vm_compute. reflexivity.
  - apply (bool_decide_unpack _). vm_compute. reflexivity.
  - vm_compute. reflexivity.
Defined.

(** ** The topology is connected: probes between known nodes succeed *)

Lemma hops_of_app (p l : list string) (m : string) :
  last p = Some m -> hops_of (p ++ l) = hops_of p ++ hops_of (m :: l).
Proof.
  induction p as [|u [|v p] IH]; intros Hlast; [done|by injection Hlast as ->|].
  change ((u :: v :: p) ++ l) with (u :: v :: (p ++ l)).
  rewrite !hops_of_cons. cbn [app]. f_equal. by apply IH.
Qed.

Lemma is_path_app (w : World) (s m t : string) (p q : list string) :
  is_path w s m p -> is_path w m t q -> is_path w s t (p ++ tail q).
Proof.
  intros (Hhead & Hlast & Hlinked & Hhops) (Hhead' & Hlast' & _ & Hhops').
  destruct q as [|m' q]; [done|]. injection Hhead' as ->. cbn [tail].
  split_and!.
  - destruct p; [done|]. exact Hhead.
  - destruct q as [|x q].
    + rewrite app_nil_r. by injection Hlast' as <-.
    + rewrite last_cons_cons in Hlast'. by rewrite last_app_cons.
  - exact Hlinked.
  - rewrite (hops_of_app p q m Hlast). by apply Forall_app.
Qed.

Ltac solve_edge :=
  first [left; solve [repeat constructor] | right; solve [repeat constructor]].

Section Connected.
Variable w : World.
Hypothesis Hwf : well_formed w.

Lemma reference_path_to_R1 (X : string) :
  is_Some (nodes (self w) !! X) -> ∃ p, is_path w X "R1" p.
Proof.
  intros HX. pose proof (proj2 (well_formed_linked w Hwf X) HX) as Hlinked.
  destruct Hwf as (Hg & Hn & _). rewrite Hn in HX.
  apply reference_nodes_known in HX.
  assert (∀ p, head p = Some X -> last p = Some "R1" ->
               Forall (λ hop, hop ∈ nx.edges reference_graph
                              ∨ (hop.2, hop.1) ∈ nx.edges reference_graph) (hops_of p) ->
               ∃ p, is_path w X "R1" p) as Hgive.
  { intros p Hh Hl Hhops. exists p. split_and!; [done..|].
    eapply Forall_impl; [exact Hhops|]. intros [a b] Hab.
    unfold topology_edge. by rewrite Hg. }
  rewrite reference_edges in Hgive.
  repeat (apply elem_of_cons in HX as [->|HX]);
    [apply (Hgive ["R1"])|apply (Hgive ["R2"; "R1"])
    |apply (Hgive ["R3"; "R2"; "R1"])|apply (Hgive ["R4"; "R1"])
    |apply (Hgive ["N1"; "R1"])|apply (Hgive ["N2"; "R2"; "R1"])
    |apply (Hgive ["N3"; "R3"; "R2"; "R1"])|by apply elem_of_nil in HX];
    try reflexivity; cbn [hops_of];
    repeat (apply Forall_cons; split; [cbn [fst snd]; solve_edge|]);
    apply Forall_nil_2.
Qed.

Lemma reference_connected (source destination : string) :
  is_Some (nodes (self w) !! source) ->
  is_Some (nodes (self w) !! destination) ->
  ∃ q, is_path w source destination q.
Proof.
  intros [p Hp]%reference_path_to_R1 [q Hq]%reference_path_to_R1.
  apply reverse_is_path in Hq. eexists. by eapply is_path_app.
Qed.

End Connected.

Section AlwaysResolve.
Context `{Runtime}.

(** X16.  In the program as it is built, probes between two known nodes
    never fail: in every reachable world the path between any two nodes
    of the node table resolves, so [ping] returns its samples and never
    raises, and [traceroute] (when no other task removes a latency entry
    meanwhile) returns a non-empty hop list ending at the destination
    rather than its empty result. *)
Theorem probes_between_known_nodes_succeed (w : World) (source destination : string)
    (count : option Z) :
  reachable w ->
  is_Some (nodes (self w) !! source) ->
  is_Some (nodes (self w) !! destination) ->
  (∃ p, get_ospf_path source destination w = (Ok p, w)
        ∧ is_path w source destination p)
  ∧ (∃ rtts path w', ping source destination count w = (Ok (rtts, path), w'))
  ∧ (keeps_latencies ->
     ∃ hops path w',
       traceroute source destination w = (Ok (hops, path), w')
       ∧ last hops = Some (destination, Int 0)).
Proof.
  intros Hr Hs Hd. pose proof (reachable_well_formed w Hr) as Hwf.
  assert (costs_ok w) as Hcosts.
  { destruct (reachable_nonneg w Hr) as [_ Hc].
    apply Forall_forall. intros [u v] He.
    destruct (well_formed_edge w u v Hwf He) as (l & c & _ & _ & Hc1 & Hc2).
    exists c. split_and!; [done..|]. by eapply Hc. }
  destruct (reference_connected w Hwf source destination Hs Hd) as [q0 Hq0].
  destruct (get_ospf_path_resolves w source destination q0 Hcosts Hq0)
    as (p & Hp & Hpath).
  split_and!.
  - by exists p.
  - destruct (ping_resolved source destination count p w Hs Hd Hp)
      as (rtts & w' & Hping & _).
    by exists rtts, p, w'.
  - intros Hkeep.
    destruct (traceroute_resolved source destination p w Hkeep Hs Hd Hp)
      as (recs & Htr & _).
    + destruct Hpath as (_ & _ & _ & Hhops).
      eapply Forall_impl; [exact Hhops|]. intros [a b] Hab.
      by apply well_formed_latencies_present.
    + eexists _, _, _. split; [exact Htr|]. by rewrite last_snoc.
Qed.

End AlwaysResolve.

Lemma probes_between_known_nodes_succeed_witness :
  (∃ p, get_ospf_path "N2" "N3" demo_world = (Ok p, demo_world)
        ∧ is_path demo_world "N2" "N3" p)
  ∧ (∃ rtts path w',
       @ping demo_runtime "N2" "N3" None demo_world = (Ok (rtts, path), w'))
  ∧ (@keeps_latencies demo_runtime ->
     ∃ hops path w',
       @traceroute demo_runtime "N2" "N3" demo_world = (Ok (hops, path), w')
       ∧ last hops = Some ("N3", Int 0)).
Proof.
  apply (@probes_between_known_nodes_succeed demo_runtime demo_world "N2" "N3" None).
  - exact demo_world_reachable.
  - vm_compute. eexists. reflexivity.
  - vm_compute. eexists. reflexivity.
Defined.

(** ** What [visualize_network] computes before it draws *)

Lemma labels_lookup (lab : string * string -> string) (es : list (string * string))
    (acc : gmap (string * string) string) (e : string * string) :
  foldl (λ m x, <[x := lab x]> m) acc es !! e
  = if decide (e ∈ es) then Some (lab e) else acc !! e.
Proof.
  revert acc. induction es as [|x es IH]; intros acc.
  - by rewrite decide_False by apply not_elem_of_nil.
  - cbn [foldl]. rewrite IH.
    destruct (decide (e ∈ es)) as [Hin|Hnin].
    + by rewrite decide_True by (by right).
    + destruct (decide (e = x)) as [->|Hne].
      * rewrite decide_True by left. by rewrite lookup_insert_eq.
      * rewrite decide_False by (by intros [?|?]%elem_of_cons).
        by rewrite lookup_insert_ne.
Qed.

Lemma edge_labels_present (w : World) :
  Forall (λ e, is_Some (latencies (self w) !! e) ∧ is_Some (ospf_costs (self w) !! e))
         (nx.edges (graph (self w))) ->
  edge_labels w
  = (Ok (foldl (λ m e, <[e := edge_label (default 0%float (latencies (self w) !! e))
                                          (default 0 (ospf_costs (self w) !! e))]> m)
               ∅ (nx.edges (graph (self w)))), w).
Proof.
  unfold edge_labels. unfold bind at 1, read at 1. cbn beta iota.
  generalize (∅ : gmap (string * string) string).
  induction (nx.edges (graph (self w))) as [|e es IH]; intros acc Hcov; [done|].
  apply Forall_cons in Hcov as [[[l Hl] [c Hc]] Hcov].
  cbn [for_acc foldl]. unfold bind at 1. unfold bind at 1, read at 1. cbn beta iota.
  unfold bind at 1, getitem at 1. rewrite Hl. unfold ret at 1. cbn beta iota.
  unfold bind at 1, read at 1. cbn beta iota.
  unfold bind at 1, getitem at 1. rewrite Hc. unfold ret at 1. cbn beta iota.
  unfold ret at 1. cbn beta iota. cbn [default]. by apply IH.
Qed.

Lemma edge_labels_missing (w : World) (e : string * string) :
  e ∈ nx.edges (graph (self w)) ->
  latencies (self w) !! e = None ∨ ospf_costs (self w) !! e = None ->
  edge_labels w = (Raise KeyError, w).
Proof.
  intros He Hnone. unfold edge_labels. unfold bind at 1, read at 1. cbn beta iota.
  generalize (∅ : gmap (string * string) string).
  induction (nx.edges (graph (self w))) as [|x es IH]; intros acc;
    [by apply elem_of_nil in He|].
  cbn [for_acc]. unfold bind at 1. unfold bind at 1, read at 1. cbn beta iota.
  unfold bind at 1, getitem at 1.
  destruct (latencies (self w) !! x) as [l|] eqn:Hl; [|done].
  unfold ret at 1. cbn beta iota. unfold bind at 1, read at 1. cbn beta iota.
  unfold bind at 1, getitem at 1.
  destruct (ospf_costs (self w) !! x) as [c|] eqn:Hc; [|done].
  unfold ret at 1. cbn beta iota. unfold ret at 1. cbn beta iota.
  apply IH. apply elem_of_cons in He as [->|He]; [|done].
  destruct Hnone; congruence.
Qed.

Section Drawing.
Context `{Runtime}.

(** X17.  The labelling step of [visualize_network] cannot fail in a
    reachable world, and leaves the world as it is: it labels exactly the
    edges of the graph, each with the latency stored for it at that
    moment, printed with one decimal, and the cost stored for it.  In any
    world where an edge lacks one of the two entries it raises
    [KeyError] instead. *)
Theorem edge_labels_cover_the_graph (w : World) :
  (reachable w ->
   ∃ labels,
     edge_labels w = (Ok labels, w)
     ∧ (∀ e, is_Some (labels !! e) ↔ e ∈ nx.edges (graph (self w)))
     ∧ ∀ e, e ∈ nx.edges (graph (self w)) ->
         ∃ l c, latencies (self w) !! e = Some l
                ∧ ospf_costs (self w) !! e = Some c
                ∧ labels !! e = Some (edge_label l c))
  ∧ (∀ e, e ∈ nx.edges (graph (self w)) ->
          latencies (self w) !! e = None ∨ ospf_costs (self w) !! e = None ->
          edge_labels w = (Raise KeyError, w)).
Proof.
  split; [|apply edge_labels_missing].
  intros Hr. destruct (reachable_well_formed w Hr) as (Hg & _ & _ & _ & Hcov).
  eexists. split; [apply edge_labels_present|split].
  - rewrite Hg. apply Forall_forall. intros e He. by apply Hcov.
  - intros e.
    rewrite (labels_lookup (λ e, edge_label (default 0%float (latencies (self w) !! e))
                                            (default 0 (ospf_costs (self w) !! e)))).
    destruct (decide (e ∈ nx.edges (graph (self w)))) as [Hin|Hnin].
    + split; [done|by eexists].
    + rewrite lookup_empty. split; [by intros [? [=]]|done].
  - intros e He.
    rewrite (labels_lookup (λ e, edge_label (default 0%float (latencies (self w) !! e))
                                            (default 0 (ospf_costs (self w) !! e)))).
    rewrite decide_True by done. rewrite Hg in He.
    destruct (Hcov e He) as [[l Hl] [c Hc]]. exists l, c.
    by rewrite Hl, Hc.
Qed.

(** X18.  The edges [visualize_network] highlights for a path returned by
    [traceroute] in a reachable world are links of the drawn graph, one
    per consecutive pair of the path; nothing is highlighted exactly when
    [traceroute] gave up and returned the empty path. *)
Theorem highlighted_edges_are_links (w w' : World) (source destination : string)
    (hops : list (string * num)) (path : list string) :
  reachable w ->
  traceroute source destination w = (Ok (hops, path), w') ->
  match path_edges (Some path) with
  | Some es => es = hops_of path ∧ Forall (λ e, topology_edge w e.1 e.2) es
  | None => path = [] ∧ hops = []
  end.
Proof.
  intros Hr. unfold traceroute. unfold bind at 1, read at 1. cbn beta iota.
  destruct (_ && _); [|discriminate].
  unfold try_except. unfold bind at 1.
  pose proof (get_ospf_path_world source destination w) as Hsame.
  destruct (get_ospf_path source destination w) as [[p|e] w1] eqn:Hpath;
    simpl in Hsame; subst w1; [|unfold ret; by intros [= <- <- _]].
  unfold bind at 1.
  destruct (for_acc _ _ _ w) as [[recs|e] w2] eqn:Hloop;
    [|unfold ret; by intros [= <- <- _]].
  unfold ret. intros [= _ <- _].
  pose proof (reachable_well_formed w Hr) as Hwf.
  rewrite get_ospf_path_unfold in Hpath by (by apply well_formed_costs_present).
  pose proof (shortest_path_sound (ospf_graph_of w) source destination) as Hsp.
  destruct (nx.shortest_path _ _ _) as [q|e]; [|by destruct e].
  injection Hpath as ->. destruct Hsp as [d Hwalk].
  apply walk_is_path in Hwalk as (Hhead & _ & _ & Hhops).
  destruct p as [|x p]; [done|]. unfold path_edges. by split.
Qed.

End Drawing.

Lemma edge_labels_cover_the_graph_witness :
  ∃ labels,
    edge_labels demo_world = (Ok labels, demo_world)
    ∧ (∀ e, is_Some (labels !! e) ↔ e ∈ nx.edges (graph (self demo_world)))
    ∧ ∀ e, e ∈ nx.edges (graph (self demo_world)) ->
        ∃ l c, latencies (self demo_world) !! e = Some l
               ∧ ospf_costs (self demo_world) !! e = Some c
               ∧ labels !! e = Some (edge_label l c).
Proof.
  apply (@edge_labels_cover_the_graph demo_runtime demo_world).
  exact demo_world_reachable.
Defined.

Example edge_labels_demo_world :
  match (edge_labels demo_world).1 with
  | Ok labels => labels !! ("R3", "R4")
  | Raise _ => None
  end = Some ("33.3ms" +:+ newline +:+ "Cost: 30").
Proof. vm_compute. reflexivity. Qed.

Lemma highlighted_edges_are_links_witness :
  [("R1", "R4"); ("R4", "R3"); ("R3", "N3")] = hops_of ["R1"; "R4"; "R3"; "N3"]
  ∧ Forall (λ e, topology_edge demo_world e.1 e.2)
           [("R1", "R4"); ("R4", "R3"); ("R3", "N3")].
Proof.
  apply (@highlighted_edges_are_links demo_runtime demo_world
           (@traceroute demo_runtime "R1" "N3" demo_world).2 "R1" "N3"
           [("R1", Float 40); ("R4", Float 33.333333333333336); ("R3", Float 45);
            ("N3", Int 0)]
           ["R1"; "R4"; "R3"; "N3"]).
  - exact demo_world_reachable.
  - vm_compute. reflexivity.
Defined.

(** ** A generator that keeps drawing high: the latency overflows *)

Section PassSucceeds.
Context `{Runtime}.

(** A pass runs to its end when the cost expression can be evaluated on
    the new latency of every edge. *)
Lemma for_perturb_succeeds (es : list (string * string)) :
  separate es ->
  ∀ w,
    (∀ i e, es !! i = Some e ->
       ∃ l c, latencies (self w) !! e = Some l
              ∧ ospf_cost (l * (0.9 + (1.1 - 0.9)
                                  * random_stream (random_state w + i)))%float = Ok c) ->
    ∃ w', for_ es perturb w = (Ok tt, w').
Proof.
  induction es as [|e es IH]; intros Hsep w Hok; [by eexists|].
  apply separate_cons in Hsep as (Hsep & He & He' & _).
  destruct (Hok 0%nat e eq_refl) as (l & c & Hl & Hc). rewrite Nat.add_0_r in Hc.
  pose proof (perturb_unfold e w) as Hu. rewrite Hl in Hu. cbv zeta in Hu.
  rewrite Hc in Hu. cbn [for_]. unfold bind at 1. rewrite Hu.
  apply IH; [exact Hsep|]. intros i e' Hi.
  destruct (Hok (S i) e' Hi) as (l' & c' & Hl' & Hc').
  exists l', c'. cbn [self random_state latencies set_ospf_costs set_latencies].
  apply list_elem_of_lookup_2 in Hi.
  split.
  - rewrite !lookup_insert_ne; [done|by intros <-|].
    intros Heq. apply He'. by rewrite Heq.
  - by rewrite Nat.add_succ_comm.
Qed.

End PassSucceeds.

Lemma drift_costs_ok_each (n : nat) (l : float) :
  drift_costs_ok n l = true ->
  ∀ k, (k < n)%nat ->
    ∃ c, ospf_cost (Nat.iter (S k) (λ l, (l * drift_factor)%float) l) = Ok c.
Proof.
  revert l. induction n as [|n IH]; intros l Hok k Hk; [lia|].
  cbn [drift_costs_ok] in Hok. cbv zeta in Hok.
  destruct (ospf_cost (l * drift_factor)) as [c|e] eqn:Hc; [|done].
  destruct k as [|k]; [by exists c|].
  rewrite Nat.iter_succ_r. apply IH; [done|lia].
Qed.

(** Under [drift_runtime] all passes of which the costs can be evaluated
    run to their end, and all edges share the latency [drift_latency]. *)
Lemma drift_world_latency (n : nat) :
  (∀ k, (k < n)%nat -> ∃ c, ospf_cost (drift_latency (S k)) = Ok c) ->
  @settled drift_runtime (drift_world n)
  ∧ ∀ e, e ∈ nx.edges reference_graph ->
         latencies (self (drift_world n)) !! e = Some (drift_latency n).
Proof.
  induction n as [|n IH]; intros Hok.
  - split.
    + apply (@settled_new drift_runtime 0). vm_compute. reflexivity.
    + intros e He. rewrite reference_edges in He.
      repeat (apply elem_of_cons in He as [->|He]; [vm_compute; reflexivity|]).
      by apply elem_of_nil in He.
  - destruct IH as [Hs Hlat]; [intros k Hk; apply Hok; lia|].
    unfold drift_world. rewrite Nat.iter_succ. fold (drift_world n).
    pose proof (@reachable_well_formed drift_runtime _
                  (@settled_reachable drift_runtime _ Hs)) as (Hg & _).
    destruct (Hok n) as [c Hc]; [lia|].
    destruct (@for_perturb_succeeds drift_runtime (nx.edges reference_graph)
                separate_reference_edges (drift_world n)) as [w' Hpass].
    { intros i e Hi. exists (drift_latency n), c. split; [|exact Hc].
      apply Hlat. by eapply list_elem_of_lookup_2. }
    rewrite (@perturbation_pass_unfold drift_runtime), Hg, Hpass. cbn [snd].
    split.
    + apply (@settled_pass drift_runtime (drift_world n)); [exact Hs|].
      by rewrite (@perturbation_pass_unfold drift_runtime), Hg.
    + intros [u v] [i Hi]%list_elem_of_lookup_1.
      apply (@for_perturb_effect drift_runtime) in Hpass
        as (_ & _ & _ & _ & _ & _ & Hnew); [|exact separate_reference_edges].
      destruct (Hnew i u v Hi) as (l & c' & Hl & _ & Hl' & _).
      rewrite Hlat in Hl by (by eapply list_elem_of_lookup_2).
      injection Hl as <-. exact Hl'.
Qed.

Lemma drift_costs_ok_33 : drift_costs_ok 33 drift_start = true.
Proof. vm_compute. reflexivity. Qed.

Lemma drift_costs_ok_7600 : drift_costs_ok (76 * 100) drift_start = true.
Proof. vm_compute. reflexivity. Qed.

Lemma drift_latency_7600 : drift_latency (76 * 100) = infinity.
Proof. vm_compute. reflexivity. Qed.

(** C4, as stated, fails twice.  Under a generator that keeps drawing 0.99,
    every latency is multiplied by 1.098 in each pass, and every pass runs
    to its end.  After 33 passes the latency exceeds 1000 ms and the cost is
    0, not a positive integer; after 7600 passes the latency has overflowed
    to plus infinity, which is outside (0, +oo). *)
Lemma cost_reaches_zero :
  @settled drift_runtime (drift_world 33)
  ∧ ("R1", "R2") ∈ nx.edges (graph (self (drift_world 33)))
  ∧ latencies (self (drift_world 33)) !! ("R1", "R2") = Some 1084.8230396902031%float
  ∧ ospf_costs (self (drift_world 33)) !! ("R1", "R2") = Some 0
  ∧ ospf_costs (self (drift_world 31)) !! ("R1", "R2") = Some 1
  ∧ @settled drift_runtime (drift_world (76 * 100))
  ∧ latencies (self (drift_world (76 * 100))) !! ("R1", "R2") = Some infinity.
Proof.
  destruct (drift_world_latency 33 (drift_costs_ok_each _ _ drift_costs_ok_33))
    as [Hs33 _].
  destruct (drift_world_latency (76 * 100) (drift_costs_ok_each _ _ drift_costs_ok_7600))
    as [Hs Hlat].
  split_and!; [exact Hs33|vm_compute; left|vm_compute; reflexivity..|exact Hs|].
  rewrite <- drift_latency_7600. apply Hlat.
  rewrite reference_edges. left.
Qed.
